(** * selector-evaluator: a shallow embedding of [src/index.ts]

    The evaluator is generic in the node type [T] and reaches the document
    only through the [Operations] record.  Nodes are compared by identity
    (the source keeps them in a [WeakSet]); here identity is the decidable
    equality of [T].

    The adapter may describe a cyclic structure, on which the [while] loops
    and the recursive generator of the source never finish.  Every function
    that loops therefore takes a [fuel] bound and answers [Diverges] when the
    bound is exhausted; exceptions are the [Throws] outcome. *)

From Stdlib Require Import List String Ascii Bool Arith Lia Wellfounded.
Import ListNotations.

Set Implicit Arguments.

Local Open Scope string_scope.
Local Open Scope list_scope.

(** ** Outcomes of a call: a value, an exception, or no answer *)

Inductive exn : Type :=
| SyntaxError (msg : string)   (* raised by the external parser *)
| Error (msg : string)         (* [throw new Error(msg)] *)
| TypeError.                   (* destructuring [undefined] *)

Inductive outcome (A : Type) : Type :=
| Returns (a : A)
| Throws (e : exn)
| Diverges.

Arguments Throws {A} e.
Arguments Diverges {A}.

Definition bind {A B : Type} (m : outcome A) (k : A -> outcome B) : outcome B :=
  match m with
  | Returns a => k a
  | Throws e => Throws e
  | Diverges => Diverges
  end.

Notation "x <- m ;; k" := (bind m (fun x => k))
  (at level 61, m at next level, right associativity).

(** State of a [for ... of] loop after one round of its body: go on with the
    loop variables [s], or leave the enclosing function with [return r]. *)
Inductive ctl (St R : Type) : Type :=
| Continue (s : St)
| Break (r : R).

Arguments Continue {St R} s.
Arguments Break {St R} r.

(** [for (const x of xs) body] over an array. *)
Fixpoint for_of {A St R : Type} (xs : list A)
    (body : A -> St -> outcome (ctl St R)) (s : St) : outcome (ctl St R) :=
  match xs with
  | [] => Returns (Continue s)
  | x :: rest =>
      c <- body x s ;;
      match c with
      | Continue s' => for_of rest body s'
      | Break r => Returns (Break r)
      end
  end.

(** ** JavaScript string primitives used by the source

    Strings are sequences of 8-bit characters.  They stand for JavaScript
    strings of ASCII code units (below 128): on these
    [String.prototype.toUpperCase] turns each of [a] to [z] into the
    capital and leaves every other code unit, which is [toUpperCase] below.
    Beyond ASCII the conversion of JavaScript follows the Unicode case
    mappings, which these definitions do not have; what is said of
    [toUpperCase] is said of strings that satisfy [isAscii]. *)

Definition isAsciiChar (c : ascii) : bool := (nat_of_ascii c <? 128)%nat.

Fixpoint isAscii (s : string) : bool :=
  match s with
  | EmptyString => true
  | String c rest => isAsciiChar c && isAscii rest
  end.

Definition upperChar (c : ascii) : ascii :=
  let n := nat_of_ascii c in
  if ((97 <=? n)%nat && (n <=? 122)%nat)%bool then ascii_of_nat (n - 32) else c.

Fixpoint toUpperCase (s : string) : string :=
  match s with
  | EmptyString => EmptyString
  | String c rest => String (upperChar c) (toUpperCase rest)
  end.

Definition startsWith (value expected : string) : bool :=
  String.prefix expected value.

Fixpoint includes (value expected : string) : bool :=
  startsWith value expected ||
  match value with
  | EmptyString => false
  | String _ rest => includes rest expected
  end.

Definition endsWith (value expected : string) : bool :=
  let lv := String.length value in
  let le := String.length expected in
  (le <=? lv)%nat && String.eqb (String.substring (lv - le) le value) expected.

Definition space : ascii := " "%char.

(** [value.split(/ +/)]: a piece ends at every maximal run of U+0020.
    [inRun] tells that the previous character belonged to such a run,
    [piece] is the piece read so far.  A leading or a trailing run, and the
    empty string, leave an empty piece in the result. *)
Fixpoint splitSpacesFrom (inRun : bool) (piece : string) (s : string)
    : list string :=
  match s with
  | EmptyString => [piece]
  | String c rest =>
      if Ascii.eqb c space then
        if inRun then splitSpacesFrom true EmptyString rest
        else piece :: splitSpacesFrom true EmptyString rest
      else
        splitSpacesFrom false (String.append piece (String c EmptyString))
                        rest
  end.

Definition splitSpaces (value : string) : list string :=
  splitSpacesFrom false EmptyString value.

(** [Array.prototype.includes] on an array of strings. *)
Definition arrayIncludes (xs : list string) (x : string) : bool :=
  existsb (String.eqb x) xs.

(** ** The selector syntax tree *)

(** Modelled from the spec: the type declarations of the external package
    [selector-parser] ([CombinatorKind], [SelectorKind], [CompoundSelector],
    [ComplexSelector]) are not part of the sources; the constructors and
    fields below are the ones [index.ts] reads, named as it names them. *)
Inductive CombinatorKind : Type :=
| Descendant
| Child
| NextSibling
| SubsequentSibling
| Column.

Inductive AttributeMatcher : Type :=
| Equals            (* =  *)
| Includes          (* ~= *)
| DashMatch         (* |= *)
| PrefixMatch       (* ^= *)
| SuffixMatch       (* $= *)
| SubstringMatch.   (* *= *)

Record AttributeMatch : Type := {
  matcher : AttributeMatcher;
  expectedValue : string           (* [match.value.value] *)
}.

Inductive SubclassSelector : Type :=
| ID (value : string)
| Class (value : string)
| Attribute (name : string) (match_ : option AttributeMatch)
| PseudoClass (name : string)
| PseudoElement (name : string).

Record TypeSelector : Type := { typeName : string }.

Record CompoundSelector : Type := {
  type : option TypeSelector;
  subclasses : option (list SubclassSelector);
  pseudoes : option (list SubclassSelector)
}.

Record ComplexSelector : Type := {
  head : CompoundSelector;
  tail : list (CombinatorKind * CompoundSelector)
}.

(** Result of the external [S.parse]. *)
Inductive parsed : Type :=
| ParseOk (selectors : list ComplexSelector)
| ParseError (msg : string).

(** ** The attribute matcher registry *)

Definition matchers (m : AttributeMatcher) (value expected : string) : bool :=
  match m with
  | Equals => String.eqb value expected
  | Includes => arrayIncludes (splitSpaces value) expected
  | DashMatch =>
      String.eqb value expected ||
      startsWith value (String.append expected "-")
  | PrefixMatch => startsWith value expected
  | SuffixMatch => endsWith value expected
  | SubstringMatch => includes value expected
  end.

(** [new Error('column combinator is not supported')] *)
Definition columnNotSupported : exn :=
  Error "column combinator is not supported".

(** ** The engine, for one node type and one adapter

    [create(operations)] closes the functions below over [operations]; here
    the section does.  [parse] is [S.parse] of the external package
    [selector-parser]. *)

Record Operations (T : Type) : Type := {
  getTagName : T -> string;
  getContent : T -> string;
  getID : T -> string;
  hasClass : T -> string -> bool;
  getParent : T -> option T;
  getChildren : T -> list T;
  getAttribute : T -> string -> option string;
  getPreviouSibling : T -> option T;
  getNextSibling : T -> option T
}.

Section Engine.

Variable T : Type.
Variable T_eq_dec : forall a b : T, {a = b} + {a <> b}.
Variable operations : Operations T.
Variable parse : string -> parsed.

(** *** [WeakSet], keyed by node identity *)

Definition WeakSet : Type := list T.

Definition ws_empty : WeakSet := [].

Definition ws_has (s : WeakSet) (t : T) : bool :=
  existsb (fun u => if T_eq_dec t u then true else false) s.

Definition ws_add (s : WeakSet) (t : T) : WeakSet := t :: s.

(** *** Combinator collectors *)

(** The two local variables of a collector: the array that is returned and
    the deduplicator. *)
Definition collected : Type := (list T * WeakSet)%type.

(** [if (!deduplicator.has(t)) { out.push(t); deduplicator.add(t); }] *)
Definition pushOnce (t : T) (st : collected) : collected :=
  let (out, deduplicator) := st in
  if ws_has deduplicator t then st
  else (out ++ [t], ws_add deduplicator t).

(** [while (t) { pushOnce t; t = next(t); }] *)
Fixpoint whileChain (next : T -> option T) (fuel : nat) (t : option T)
    (st : collected) : outcome collected :=
  match t with
  | None => Returns st
  | Some x =>
      match fuel with
      | O => Diverges
      | S fuel' => whileChain next fuel' (next x) (pushOnce x st)
      end
  end.

(** The outer [for (const node of nodes)] of a collector. *)
Fixpoint forNodes (step : T -> collected -> outcome collected)
    (nodes : list T) (st : collected) : outcome collected :=
  match nodes with
  | [] => Returns st
  | node :: rest => st' <- step node st ;; forNodes step rest st'
  end.

Definition optionStep (next : T -> option T) (node : T) (st : collected)
    : outcome collected :=
  match next node with
  | Some p => Returns (pushOnce p st)
  | None => Returns st
  end.

Definition collectors (fuel : nat) (kind : CombinatorKind) (nodes : list T)
    : outcome (list T) :=
  match kind with
  | Descendant =>
      st <- forNodes
              (fun node st =>
                 whileChain (getParent operations) fuel
                            (getParent operations node) st)
              nodes ([], ws_empty) ;;
      Returns (fst st)
  | Child =>
      st <- forNodes (optionStep (getParent operations)) nodes ([], ws_empty) ;;
      Returns (fst st)
  | NextSibling =>
      st <- forNodes (optionStep (getPreviouSibling operations)) nodes
              ([], ws_empty) ;;
      Returns (fst st)
  | SubsequentSibling =>
      st <- forNodes
              (fun node st =>
                 whileChain (getPreviouSibling operations) fuel
                            (getPreviouSibling operations node) st)
              nodes ([], ws_empty) ;;
      Returns (fst st)
  | Column => Throws columnNotSupported
  end.

(** *** Tree traversal *)

(** The generator [function* preorderDepthFirstTraverse] is consumed by the
    [for ... of] loops of the two queries only.  It is embedded as an
    internal iterator: [yield node] runs the loop [body] of the consumer on
    [node] with the consumer's loop variables [s]; a [return] in the body
    ([Break]) abandons the generator, as leaving a [for ... of] does.
    [fuel] bounds the depth of the recursion. *)
Fixpoint preorderDepthFirstTraverse {St R : Type} (fuel : nat) (node : T)
    (includeRoot : bool) (body : T -> St -> outcome (ctl St R)) (s : St)
    : outcome (ctl St R) :=
  match fuel with
  | O => Diverges
  | S fuel' =>
      c <- (if includeRoot then body node s else Returns (Continue s)) ;;
      match c with
      | Break r => Returns (Break r)
      | Continue s1 =>
          for_of (getChildren operations node)
                 (fun child s' =>
                    preorderDepthFirstTraverse fuel' child true body s')
                 s1
      end
  end.

(** *** Matching *)

Definition matchSubClassSelector (node : T) (selector : SubclassSelector)
    : bool :=
  match selector with
  | ID value => String.eqb (getID operations node) value
  | Class value => hasClass operations node value
  | Attribute name match_ =>
      let value := getAttribute operations node name in
      match match_ with
      | None =>
          match value with Some _ => true | None => false end
      | Some m =>
          match value with
          | None => false
          | Some v => matchers (matcher m) v (expectedValue m)
          end
      end
  | PseudoClass _ => true
  | PseudoElement _ => false
  end.

(** [for (const selector of xs) if (!matchSubClassSelector(root, selector))
    return false;], answering whether the loop ran to its end. *)
Fixpoint allSubClassesMatch (root : T) (xs : list SubclassSelector) : bool :=
  match xs with
  | [] => true
  | selector :: rest =>
      if negb (matchSubClassSelector root selector) then false
      else allSubClassesMatch root rest
  end.

Definition matchCompoundSelector (root : T) (c : CompoundSelector) : bool :=
  if match type c with
     | Some ty =>
         negb (String.eqb (toUpperCase (getTagName operations root))
                          (toUpperCase (typeName ty)))
     | None => false
     end
  then false
  else if match subclasses c with
          | Some xs => negb (allSubClassesMatch root xs)
          | None => false
          end
  then false
  else if match pseudoes c with
          | Some xs => negb (allSubClassesMatch root xs)
          | None => false
          end
  then false
  else true.

(** The loop [for (let i = tail.length - 1; i >= 0; i -= 1)] of
    [matchComplexSelector]; [k] is [i + 1].  [Break false] is the
    [return false] of the loop body. *)
Fixpoint tailLoop (fuel : nat) (tl : list (CombinatorKind * CompoundSelector))
    (k : nat) (candidates : list T) : outcome (ctl (list T) bool) :=
  match k with
  | O => Returns (Continue candidates)
  | S i =>
      match nth_error tl i with
      | None => Throws TypeError
      | Some (combinator, selector) =>
          let candidates :=
            filter (fun t => matchCompoundSelector t selector) candidates in
          if (List.length candidates =? 0)%nat then Returns (Break false)
          else
            candidates <- collectors fuel combinator candidates ;;
            tailLoop fuel tl i candidates
      end
  end.

Definition matchComplexSelector (fuel : nat) (root : T) (sel : ComplexSelector)
    : outcome bool :=
  c <- tailLoop fuel (tail sel) (List.length (tail sel)) [root] ;;
  match c with
  | Break r => Returns r
  | Continue candidates =>
      let candidates :=
        filter (fun t => matchCompoundSelector t (head sel)) candidates in
      Returns (0 <? List.length candidates)%nat
  end.

Fixpoint matchSelectors (fuel : nat) (root : T)
    (selectors : list ComplexSelector) : outcome bool :=
  match selectors with
  | [] => Returns false
  | selector :: rest =>
      b <- matchComplexSelector fuel root selector ;;
      if b then Returns true else matchSelectors fuel root rest
  end.

(** *** The two queries *)

(** Body of the loop of [querySelector]; the loop has no variables. *)
Definition findBody (fuel : nat) (parsedSelectors : list ComplexSelector)
    (node : T) (_ : unit) : outcome (ctl unit T) :=
  b <- matchSelectors fuel node parsedSelectors ;;
  if b then Returns (Break node) else Returns (Continue tt).

Definition querySelector (fuel : nat) (root : T) (selectors : string)
    : outcome (option T) :=
  match parse selectors with
  | ParseError msg => Throws (SyntaxError msg)
  | ParseOk parsedSelectors =>
      c <- preorderDepthFirstTraverse fuel root false
             (findBody fuel parsedSelectors) tt ;;
      match c with
      | Break node => Returns (Some node)
      | Continue _ => Returns None
      end
  end.

(** Body of the loop of [querySelectorAll]; the loop variable is
    [matchList] and the body never returns from the function. *)
Definition collectBody (fuel : nat) (parsedSelectors : list ComplexSelector)
    (node : T) (matchList : list T) : outcome (ctl (list T) Empty_set) :=
  b <- matchSelectors fuel node parsedSelectors ;;
  if b then Returns (Continue (matchList ++ [node]))
  else Returns (Continue matchList).

Definition querySelectorAll (fuel : nat) (root : T) (selectors : string)
    : outcome (list T) :=
  match parse selectors with
  | ParseError msg => Throws (SyntaxError msg)
  | ParseOk parsedSelectors =>
      c <- preorderDepthFirstTraverse fuel root false
             (collectBody fuel parsedSelectors) [] ;;
      match c with
      | Continue matchList => Returns matchList
      | Break r => match r with end
      end
  end.

End Engine.

Arguments ws_has {T} T_eq_dec s t.
Arguments pushOnce {T} T_eq_dec t st.
Arguments whileChain {T} T_eq_dec next fuel t st.
Arguments forNodes {T} step nodes st.
Arguments optionStep {T} T_eq_dec next node st.

(** ** The adapter calls of the compound matcher

    The capabilities of the adapter are functions here, so a call that is
    not made leaves no trace in the value computed.  The definitions below
    list the calls that [matchSubClassSelector] and [matchCompoundSelector]
    make to the adapter, in the order in which the source makes them; every
    [return false] of the source ends the list. *)

Inductive call (T : Type) : Type :=
| CallGetTagName (node : T)
| CallGetID (node : T)
| CallHasClass (node : T) (className : string)
| CallGetAttribute (node : T) (name : string).

Section Calls.

Variable T : Type.
Variable operations : Operations T.

Definition matchSubClassSelectorCalls (node : T)
    (selector : SubclassSelector) : list (call T) :=
  match selector with
  | ID _ => [CallGetID node]
  | Class value => [CallHasClass node value]
  | Attribute name _ => [CallGetAttribute node name]
  | PseudoClass _ => []
  | PseudoElement _ => []
  end.

(** The calls of [for (const selector of xs) if (!matchSubClassSelector(root,
    selector)) return false;]. *)
Fixpoint allSubClassesCalls (root : T) (xs : list SubclassSelector)
    : list (call T) :=
  match xs with
  | [] => []
  | selector :: rest =>
      matchSubClassSelectorCalls root selector ++
      (if negb (matchSubClassSelector operations root selector) then []
       else allSubClassesCalls root rest)
  end.

Definition matchCompoundSelectorCalls (root : T) (c : CompoundSelector)
    : list (call T) :=
  match type c with
  | Some _ => [CallGetTagName root]
  | None => []
  end ++
  if match type c with
     | Some ty =>
         negb (String.eqb (toUpperCase (getTagName operations root))
                          (toUpperCase (typeName ty)))
     | None => false
     end
  then []
  else
    match subclasses c with
    | Some xs => allSubClassesCalls root xs
    | None => []
    end ++
    if match subclasses c with
       | Some xs => negb (allSubClassesMatch operations root xs)
       | None => false
       end
    then []
    else
      match pseudoes c with
      | Some xs => allSubClassesCalls root xs
      | None => []
      end.

End Calls.

(** ** Equality of names up to case

    What it is for two names to be equal case-insensitively, written
    without the case conversion of the source: the names have the same
    length and, place by place, hold the same character or the small and
    the capital form of one letter of the alphabet. *)

Definition isLowerLetter (c : ascii) : bool :=
  ((nat_of_ascii "a" <=? nat_of_ascii c)%nat &&
   (nat_of_ascii c <=? nat_of_ascii "z")%nat)%bool.

Definition isUpperLetter (c : ascii) : bool :=
  ((nat_of_ascii "A" <=? nat_of_ascii c)%nat &&
   (nat_of_ascii c <=? nat_of_ascii "Z")%nat)%bool.

(** [small] is a small letter and [capital] the capital at the same place
    of the alphabet. *)
Definition sameLetter (small capital : ascii) : bool :=
  (isLowerLetter small && isUpperLetter capital &&
   (nat_of_ascii small - nat_of_ascii "a" =?
    nat_of_ascii capital - nat_of_ascii "A")%nat)%bool.

Definition equalCharIgnoringCase (a b : ascii) : bool :=
  (Ascii.eqb a b || sameLetter a b || sameLetter b a)%bool.

Fixpoint equalIgnoringCase (a b : string) : bool :=
  match a, b with
  | EmptyString, EmptyString => true
  | String x a', String y b' =>
      (equalCharIgnoringCase x y && equalIgnoringCase a' b')%bool
  | _, _ => false
  end.

(** ** Reference definitions

    What the specification says in words, written independently of the
    loops above; the theorems compare the two. *)

Section Reference.

Variable T : Type.
Variable T_eq_dec : forall a b : T, {a = b} + {a <> b}.
Variable operations : Operations T.

(** [concatMap] of a partial function. *)
Fixpoint concatOption (f : T -> option (list T)) (xs : list T)
    : option (list T) :=
  match xs with
  | [] => Some []
  | x :: rest =>
      match f x, concatOption f rest with
      | Some here, Some there => Some (here ++ there)
      | _, _ => None
      end
  end.

(** The preorder sequence of the tree below [node]: a node comes before its
    descendants and the subtree of a child is complete before the subtree of
    the next child begins.  [None] when the tree is deeper than [fuel]. *)
Fixpoint preorder (fuel : nat) (node : T) (includeRoot : bool)
    : option (list T) :=
  match fuel with
  | O => None
  | S fuel' =>
      match concatOption (fun child => preorder fuel' child true)
                         (getChildren operations node) with
      | Some below => Some (if includeRoot then node :: below else below)
      | None => None
      end
  end.

(** [chain next x y]: [y] is reached from [x] by one or more [next] steps.
    With [getParent], [y] is a strict ancestor of [x]; with
    [getPreviouSibling], [y] is a preceding sibling of [x]. *)
Inductive chain (next : T -> option T) : T -> T -> Prop :=
| chain_one : forall x y, next x = Some y -> chain next x y
| chain_more : forall x y z, next x = Some y -> chain next y z ->
                             chain next x z.

(** What a collector has to contain, for one candidate [c]. *)
Definition related (kind : CombinatorKind) (c x : T) : Prop :=
  match kind with
  | Descendant => chain (getParent operations) c x
  | Child => getParent operations c = Some x
  | NextSibling => getPreviouSibling operations c = Some x
  | SubsequentSibling => chain (getPreviouSibling operations) c x
  | Column => False
  end.

(** [reach next t y]: the loop [while (t) { ...; t = next(t); }] meets [y]. *)
Definition reach (next : T -> option T) (t : option T) (y : T) : Prop :=
  match t with
  | None => False
  | Some x => y = x \/ chain next x y
  end.

(** The array of a collector holds no node twice, and the deduplicator
    holds the nodes of the array. *)
Definition synced (st : collected T) : Prop :=
  NoDup (fst st) /\ forall x, In x (fst st) <-> In x (snd st).

(** The three relations whose well-foundedness makes the adapter a finite
    acyclic tree. *)
Definition childOf (c p : T) : Prop := In c (getChildren operations p).
Definition parentOf (p n : T) : Prop := getParent operations n = Some p.
Definition previousOf (p n : T) : Prop :=
  getPreviouSibling operations n = Some p.

(** When one subclass or pseudo selector succeeds on a node. *)
Definition subclassHolds (node : T) (selector : SubclassSelector) : Prop :=
  match selector with
  | ID value => getID operations node = value
  | Class value => hasClass operations node value = true
  | Attribute name None =>
      exists v, getAttribute operations node name = Some v
  | Attribute name (Some m) =>
      exists v, getAttribute operations node name = Some v /\
                matchers (matcher m) v (expectedValue m) = true
  | PseudoClass _ => True
  | PseudoElement _ => False
  end.

(** The type selector, when there is one, names the tag of the node up to
    case. *)
Definition typeMatches (node : T) (c : CompoundSelector) : Prop :=
  match type c with
  | Some ty =>
      equalIgnoringCase (getTagName operations node) (typeName ty) = true
  | None => True
  end.

(** The two names that the type clause compares are ASCII. *)
Definition asciiNames (node : T) (c : CompoundSelector) : bool :=
  match type c with
  | Some ty => isAscii (getTagName operations node) && isAscii (typeName ty)
  | None => true
  end.

Definition allHold (node : T) (xs : option (list SubclassSelector)) : Prop :=
  match xs with
  | Some l => Forall (subclassHolds node) l
  | None => True
  end.

(** Right-to-left evaluation of tail pairs that are already listed from the
    last to the first. *)
Fixpoint rightToLeft (fuel : nat)
    (pairs : list (CombinatorKind * CompoundSelector)) (current : list T)
    : outcome (ctl (list T) bool) :=
  match pairs with
  | [] => Returns (Continue current)
  | (combinator, compound) :: rest =>
      match filter (fun t => matchCompoundSelector operations t compound)
                   current with
      | [] => Returns (Break false)
      | filtered =>
          next <- collectors T_eq_dec operations fuel combinator filtered ;;
          rightToLeft fuel rest next
      end
  end.

Definition complexMatches (fuel : nat) (node : T) (sel : ComplexSelector)
    : outcome bool :=
  r <- rightToLeft fuel (rev (tail sel)) [node] ;;
  match r with
  | Break b => Returns b
  | Continue final =>
      match filter (fun t => matchCompoundSelector operations t (head sel))
                   final with
      | [] => Returns false
      | _ => Returns true
      end
  end.

(** Evaluation of the member [sel] on [node] arrives at a column
    combinator: the pairs to its right have been walked without a failure
    and some candidate satisfies the compound selector of the column pair. *)
Definition reachesColumn (fuel : nat) (node : T) (sel : ComplexSelector)
    : Prop :=
  exists before compound after candidates,
    tail sel = before ++ (Column, compound) :: after /\
    rightToLeft fuel (rev after) [node] = Returns (Continue candidates) /\
    filter (fun t => matchCompoundSelector operations t compound) candidates
      <> [].

End Reference.

(** Whether a match came back with [true]. *)
Definition isTrue (o : outcome bool) : bool :=
  match o with
  | Returns true => true
  | _ => false
  end.

(** More fuel does not change an answer. *)
Definition monotone {A : Type} (f : nat -> outcome A) : Prop :=
  forall fuel fuel', fuel <= fuel' -> f fuel <> Diverges -> f fuel' = f fuel.

(** Some fuel is enough for an answer. *)
Definition halts {A : Type} (f : nat -> outcome A) : Prop :=
  exists fuel, f fuel <> Diverges.

(** A computation that, given enough fuel, settles on one answer. *)
Definition settles {A : Type} (f : nat -> outcome A) (r : outcome A) : Prop :=
  r <> Diverges /\ exists fuel0, forall fuel, fuel0 <= fuel -> f fuel = r.

Definition terminates {A : Type} (f : nat -> outcome A) : Prop :=
  exists r, settles f r.

(** ** Words of an attribute value, as the specification reads them *)

(** White space of the selectors grammar: space, tab, line feed, form feed,
    carriage return. *)
Definition isWhitespace (c : ascii) : bool :=
  let n := nat_of_ascii c in
  ((n =? 32) || (n =? 9) || (n =? 10) || (n =? 12) || (n =? 13))%nat.

(** The white-space-separated words of [s]; [word] is the word being read. *)
Fixpoint wordsFrom (word : string) (s : string) : list string :=
  match s with
  | EmptyString =>
      match word with EmptyString => [] | _ => [word] end
  | String c rest =>
      if isWhitespace c then
        match word with
        | EmptyString => wordsFrom EmptyString rest
        | _ => word :: wordsFrom EmptyString rest
        end
      else wordsFrom (String.append word (String c EmptyString)) rest
  end.

Definition wordList (value : string) : list string :=
  wordsFrom EmptyString value.

Definition nonEmpty (s : string) : bool :=
  match s with EmptyString => false | _ => true end.

(** The only white space of [s] is U+0020. *)
Fixpoint onlySpaces (s : string) : bool :=
  match s with
  | EmptyString => true
  | String c rest =>
      (Ascii.eqb c space || negb (isWhitespace c)) && onlySpaces rest
  end.

(** ** A sample document

    The fixture of [test/index.js]: [body] (0) holds [div.container] (1),
    which holds [div.gallery] (2) with six [article] children (3 to 8); the
    third and the fourth carry the class [bad].  Two articles also carry an
    attribute [data-x]. *)

Module Sample.

Definition node : Type := nat.

Definition tab : string := String (ascii_of_nat 9) EmptyString.

Definition tagName (n : node) : string :=
  match n with
  | 0 => "BODY"
  | 1 | 2 => "DIV"
  | _ => "ARTICLE"
  end.

Definition classes (n : node) : list string :=
  match n with
  | 1 => ["container"]
  | 2 => ["gallery"]
  | 5 | 6 => ["bad"]
  | _ => []
  end.

Definition parent (n : node) : option node :=
  match n with
  | 1 => Some 0
  | 2 => Some 1
  | 3 | 4 | 5 | 6 | 7 | 8 => Some 2
  | _ => None
  end.

Definition children (n : node) : list node :=
  match n with
  | 0 => [1]
  | 1 => [2]
  | 2 => [3; 4; 5; 6; 7; 8]
  | _ => []
  end.

Definition attribute (n : node) (name : string) : option string :=
  if String.eqb name "data-x" then
    match n with
    | 3 => Some "foo bar"
    | 4 => Some (String.append "foo" (String.append tab "bar"))
    | _ => None
    end
  else None.

Definition previous (n : node) : option node :=
  match n with
  | 4 => Some 3
  | 5 => Some 4
  | 6 => Some 5
  | 7 => Some 6
  | 8 => Some 7
  | _ => None
  end.

Definition next (n : node) : option node :=
  match n with
  | 3 => Some 4
  | 4 => Some 5
  | 5 => Some 6
  | 6 => Some 7
  | 7 => Some 8
  | _ => None
  end.

Definition ops : Operations node := {|
  getTagName := tagName;
  getContent := fun n => match n with 0 | 1 | 2 => "" | _ => "Item" end;
  getID := fun _ => "";
  hasClass := fun n c => existsb (String.eqb c) (classes n);
  getParent := parent;
  getChildren := children;
  getAttribute := attribute;
  getPreviouSibling := previous;
  getNextSibling := next
|}.

(** The same document seen through an adapter whose [getNextSibling] and
    [getContent] answer differently. *)
Definition opsOther : Operations node := {|
  getTagName := tagName;
  getContent := fun _ => "?";
  getID := fun _ => "";
  hasClass := fun n c => existsb (String.eqb c) (classes n);
  getParent := parent;
  getChildren := children;
  getAttribute := attribute;
  getPreviouSibling := previous;
  getNextSibling := fun _ => None
|}.

(** An adapter whose parent chain is cyclic: 1 is the child of 0 and each is
    the parent of the other. *)
Definition opsCyclic : Operations node := {|
  getTagName := fun _ => "DIV";
  getContent := fun _ => "";
  getID := fun _ => "";
  hasClass := fun _ _ => false;
  getParent := fun n => match n with 0 => Some 1 | 1 => Some 0 | _ => None end;
  getChildren := fun n => match n with 0 => [1] | _ => [] end;
  getAttribute := fun _ _ => None;
  getPreviouSibling := fun _ => None;
  getNextSibling := fun _ => None
|}.

Definition typed (name : string) : CompoundSelector :=
  {| type := Some {| typeName := name |}; subclasses := None;
     pseudoes := None |}.

Definition classed (name : string) : CompoundSelector :=
  {| type := None; subclasses := Some [Class name]; pseudoes := None |}.

Definition withAttribute (m : AttributeMatcher) (expected : string)
    : CompoundSelector :=
  {| type := None;
     subclasses :=
       Some [Attribute "data-x"
               (Some {| matcher := m; expectedValue := expected |})];
     pseudoes := None |}.

Definition simple (c : CompoundSelector) : ComplexSelector :=
  {| head := c; tail := [] |}.

(** [.container > .gallery > .bad] *)
Definition selBad : ComplexSelector :=
  {| head := classed "container";
     tail := [(Child, classed "gallery"); (Child, classed "bad")] |}.

(** [div div] *)
Definition selNested : ComplexSelector :=
  {| head := typed "div"; tail := [(Descendant, typed "div")] |}.

(** [div || article] *)
Definition selColumn : ComplexSelector :=
  {| head := typed "div"; tail := [(Column, typed "article")] |}.

(** The external parser on the selector strings used below; every other
    string is taken to be malformed. *)
Definition parse (s : string) : parsed :=
  if String.eqb s ".container > .gallery > .bad" then ParseOk [selBad]
  else if String.eqb s "article" then ParseOk [simple (typed "article")]
  else if String.eqb s ".bad" then ParseOk [simple (classed "bad")]
  else if String.eqb s "div" then ParseOk [simple (typed "div")]
  else if String.eqb s "div div" then ParseOk [selNested]
  else if String.eqb s "div || article" then ParseOk [selColumn]
  else if String.eqb s "div, div || article" then
    ParseOk [simple (typed "div"); selColumn]
  else if String.eqb s "article, div || article" then
    ParseOk [simple (typed "article"); selColumn]
  else if String.eqb s "div || article, article" then
    ParseOk [selColumn; simple (typed "article")]
  else if String.eqb s ".bad, div" then
    ParseOk [simple (classed "bad"); simple (typed "div")]
  else if String.eqb s "[data-x~=foo]" then
    ParseOk [simple (withAttribute Includes "foo")]
  else ParseError "unexpected token".

End Sample.

(** ** Further notions

    Vocabulary for the properties of the engine that follow the claims. *)

Section Notions.

Variable T : Type.
Variable operations : Operations T.

(** [descends p n]: [n] is reached from [p] by one or more [getChildren]
    steps, that is, [n] is a strict descendant of [p]. *)
Inductive descends : T -> T -> Prop :=
| descends_child : forall p c,
    In c (getChildren operations p) -> descends p c
| descends_down : forall p q c,
    descends p q -> In c (getChildren operations q) -> descends p c.

(** [walks pairs n y]: [n] satisfies the compound selector of the first
    pair and is related by its combinator to a node that walks the rest of
    the pairs to [y].  The pairs are listed from the last of the tail to
    the first, as the matcher meets them. *)
Fixpoint walks (pairs : list (CombinatorKind * CompoundSelector)) (n y : T)
    : Prop :=
  match pairs with
  | [] => y = n
  | (combinator, compound) :: rest =>
      matchCompoundSelector operations n compound = true /\
      exists x, related operations combinator n x /\ walks rest x y
  end.

(** [represents sel n]: some chain of nodes starting at [n] goes through
    the tail of [sel] and ends on a node that satisfies the head. *)
Definition represents (sel : ComplexSelector) (n : T) : Prop :=
  exists y, walks (rev (tail sel)) n y /\
            matchCompoundSelector operations y (head sel) = true.

(** No node is listed under two nodes, and none twice under one node. *)
Definition uniqueParent : Prop :=
  forall c p q,
    In c (getChildren operations p) -> In c (getChildren operations q) ->
    p = q.

Definition distinctChildren : Prop :=
  forall p, NoDup (getChildren operations p).

(** [getParent] and [getChildren] describe the same tree. *)
Definition parentsAgree : Prop :=
  forall c p,
    getParent operations c = Some p <-> In c (getChildren operations p).

End Notions.

(** The rightmost compound selector of a complex selector: the one that the
    node under test itself has to satisfy. *)
Definition subject (sel : ComplexSelector) : CompoundSelector :=
  last (map snd (tail sel)) (head sel).

(** Child to descendant, next sibling to subsequent sibling. *)
Definition loosen (kind : CombinatorKind) : CombinatorKind :=
  match kind with
  | Child => Descendant
  | NextSibling => SubsequentSibling
  | other => other
  end.

Definition loosenSelector (sel : ComplexSelector) : ComplexSelector :=
  {| head := head sel;
     tail := map (fun pair => (loosen (fst pair), snd pair)) (tail sel) |}.

(** The combinators whose collector has no [while] loop. *)
Definition singleStep (kind : CombinatorKind) : bool :=
  match kind with
  | Child | NextSibling => true
  | _ => false
  end.

Definition singleSteps (sel : ComplexSelector) : bool :=
  forallb (fun pair => singleStep (fst pair)) (tail sel).

Definition isColumn (kind : CombinatorKind) : bool :=
  match kind with
  | Column => true
  | _ => false
  end.

Definition usesColumn (sel : ComplexSelector) : bool :=
  existsb (fun pair => isColumn (fst pair)) (tail sel).

Definition isPseudoClass (selector : SubclassSelector) : bool :=
  match selector with
  | PseudoClass _ => true
  | _ => false
  end.

(** [A B]: a head and one descendant pair. *)
Definition descendantSelector (a b : CompoundSelector) : ComplexSelector :=
  {| head := a; tail := [(Descendant, b)] |}.

(** [s] has no U+0020. *)
Fixpoint noSpace (s : string) : bool :=
  match s with
  | EmptyString => true
  | String c rest => negb (Ascii.eqb c space) && noSpace rest
  end.

(** Further sample data: a document that lists one node twice (0 has the
    children 1, 1 and 2), and the external parser on two more strings. *)
Module Further.

Definition ops : Operations nat := {|
  getTagName := fun n => match n with 0 => "BODY" | _ => "DIV" end;
  getContent := fun _ => "";
  getID := fun _ => "";
  hasClass := fun _ _ => false;
  getParent := fun n => match n with 1 | 2 => Some 0 | _ => None end;
  getChildren := fun n => match n with 0 => [1; 1; 2] | _ => [] end;
  getAttribute := fun _ _ => None;
  getPreviouSibling := fun n => match n with 2 => Some 1 | _ => None end;
  getNextSibling := fun n => match n with 1 => Some 2 | _ => None end
|}.

(** [div > div] *)
Definition selChild : ComplexSelector :=
  {| head := Sample.typed "div"; tail := [(Child, Sample.typed "div")] |}.

Definition parse (s : string) : parsed :=
  if String.eqb s "div > div" then ParseOk [selChild]
  else if String.eqb s "div div" then ParseOk [loosenSelector selChild]
  else Sample.parse s.

End Further.

(** * Properties *)

(** ** Strings *)

Section Strings.

Lemma append_empty_r (s : string) : String.append s EmptyString = s.
Proof. induction s as [|c s IH]; simpl; [reflexivity | now rewrite IH]. Qed.

Lemma append_assoc (a b c : string) :
  String.append (String.append a b) c = String.append a (String.append b c).
Proof. induction a as [|x a IH]; simpl; [reflexivity | now rewrite IH]. Qed.

Lemma length_append (a b : string) :
  String.length (String.append a b) = String.length a + String.length b.
Proof. induction a as [|x a IH]; simpl; [reflexivity | now rewrite IH]. Qed.

Lemma startsWith_spec (value expected : string) :
  startsWith value expected = true <->
  exists rest, value = String.append expected rest.
Proof.
  unfold startsWith. revert value.
  induction expected as [|c e IH]; intros value; simpl.
  - split; [intros _; now exists value | now destruct value].
  - destruct value as [|d v]; simpl.
    + split; [discriminate | intros [rest H]; discriminate].
    + destruct (ascii_dec c d) as [->|Hcd].
      * rewrite IH. split; intros [rest H]; exists rest.
        -- now rewrite H.
        -- now inversion H.
      * split; [discriminate | intros [rest H]; inversion H; congruence].
Qed.

Lemma includes_spec (value expected : string) :
  includes value expected = true <->
  exists before after,
    value = String.append before (String.append expected after).
Proof.
  induction value as [|c v IH]; cbn [includes];
    rewrite orb_true_iff, startsWith_spec.
  - split.
    + intros [[rest H]|H]; [|discriminate]. now exists EmptyString, rest.
    + intros [[|x before] [after H]]; simpl in H; [|discriminate].
      left. now exists after.
  - rewrite IH. split.
    + intros [[rest H]|[before [after H]]].
      * now exists EmptyString, rest.
      * exists (String c before), after. simpl. now rewrite H.
    + intros [[|x before] [after H]]; simpl in H.
      * left. now exists after.
      * right. inversion H. now exists before, after.
Qed.

Lemma substring_skip (before s : string) (n : nat) :
  substring (String.length before) n (String.append before s) =
  substring 0 n s.
Proof. induction before as [|c b IH]; simpl; [reflexivity | exact IH]. Qed.

Lemma substring_whole (s : string) : substring 0 (String.length s) s = s.
Proof. induction s as [|c s IH]; simpl; [reflexivity | now rewrite IH]. Qed.

Lemma substring_cut (s : string) (n : nat) :
  n <= String.length s ->
  exists before,
    s = String.append before (substring n (String.length s - n) s).
Proof.
  revert n. induction s as [|c s IH]; intros n Hn; simpl in *.
  - exists EmptyString. now destruct n.
  - destruct n as [|n].
    + exists EmptyString. simpl. now rewrite substring_whole.
    + destruct (IH n) as [before H]; [lia|].
      exists (String c before). simpl. now rewrite <- H.
Qed.

Lemma endsWith_spec (value expected : string) :
  endsWith value expected = true <->
  exists before, value = String.append before expected.
Proof.
  unfold endsWith. rewrite andb_true_iff, Nat.leb_le, String.eqb_eq. split.
  - intros [Hle Hsub].
    destruct (@substring_cut value
                (String.length value - String.length expected))
      as [before H]; [lia|].
    exists before. rewrite H at 1. f_equal. rewrite <- Hsub at 3. f_equal. lia.
  - intros [before ->]. rewrite length_append. split; [lia|].
    replace (String.length before + String.length expected
             - String.length expected) with (String.length before) by lia.
    now rewrite substring_skip, substring_whole.
Qed.

Lemma arrayIncludes_spec (xs : list string) (x : string) :
  arrayIncludes xs x = true <-> In x xs.
Proof.
  unfold arrayIncludes. rewrite existsb_exists. split.
  - intros [y [Hin Heq]]. apply String.eqb_eq in Heq. now subst.
  - intros Hin. exists x. split; [assumption | apply String.eqb_refl].
Qed.

(** Each operator of the registry, in the words of the table. *)
Lemma matchers_spec (value expected : string) :
  (matchers Equals value expected = true <-> value = expected) /\
  (matchers Includes value expected = true <->
     In expected (splitSpaces value)) /\
  (matchers DashMatch value expected = true <->
     value = expected \/
     exists rest,
       value = String.append expected (String.append "-" rest)) /\
  (matchers PrefixMatch value expected = true <->
     exists rest, value = String.append expected rest) /\
  (matchers SuffixMatch value expected = true <->
     exists before, value = String.append before expected) /\
  (matchers SubstringMatch value expected = true <->
     exists before after,
       value = String.append before (String.append expected after)).
Proof.
  simpl. repeat split; try apply String.eqb_eq;
    try apply arrayIncludes_spec; try apply startsWith_spec;
    try apply endsWith_spec; try apply includes_spec; try apply String.eqb_eq.
  - rewrite orb_true_iff, String.eqb_eq, startsWith_spec.
    intros [H|[rest H]]; [now left | right; exists rest].
    now rewrite H, append_assoc.
  - rewrite orb_true_iff, String.eqb_eq, startsWith_spec.
    intros [H|[rest H]]; [now left | right; exists rest].
    now rewrite H, append_assoc.
Qed.

(** An empty expected value goes through the same code as any other: the
    prefix, suffix and substring operators then accept every value. *)
Lemma matchers_empty_expected (value : string) :
  matchers PrefixMatch value "" = true /\
  matchers SuffixMatch value "" = true /\
  matchers SubstringMatch value "" = true /\
  (matchers Equals value "" = true <-> value = "").
Proof.
  repeat split.
  - apply startsWith_spec. now exists value.
  - apply endsWith_spec. exists value. now rewrite append_empty_r.
  - apply includes_spec. now exists "", value.
  - apply String.eqb_eq.
  - apply String.eqb_eq.
Qed.

(** The examples of the specification on the value [foo bar]. *)
Lemma matchers_examples :
  matchers Includes "foo bar" "foo" = true /\
  matchers PrefixMatch "foo bar" "fo" = true /\
  matchers SuffixMatch "foo bar" "ar" = true /\
  matchers SubstringMatch "foo bar" "o b" = true /\
  matchers Includes "foo bar" "foo bar" = false /\
  matchers Equals "foo bar" "foo" = false.
Proof. repeat split. Qed.

(** Where the value has no white space other than U+0020, the pieces of
    [split(/ +/)] that are not empty are the words of the value. *)

Lemma splitSpacesFrom_words (s : string) :
  onlySpaces s = true ->
  forall (inRun : bool) (piece : string),
    (inRun = true -> piece = EmptyString) ->
    filter nonEmpty (splitSpacesFrom inRun piece s) = wordsFrom piece s.
Proof.
  induction s as [|c s IH]; intros Hs inRun piece Hrun; simpl.
  - now destruct piece.
  - simpl in Hs. apply andb_true_iff in Hs. destruct Hs as [Hc Hs].
    destruct (Ascii.eqb c space) eqn:Hsp.
    + apply Ascii.eqb_eq in Hsp. subst c. simpl.
      destruct inRun.
      * rewrite (Hrun eq_refl). now apply IH.
      * simpl. destruct piece; simpl; [|f_equal]; now apply IH.
    + simpl in Hc. apply negb_true_iff in Hc. rewrite Hc.
      apply IH; [assumption | discriminate].
Qed.

Lemma splitSpaces_words (value : string) :
  onlySpaces value = true ->
  filter nonEmpty (splitSpaces value) = wordList value.
Proof. intros H. now apply splitSpacesFrom_words. Qed.

Lemma matchers_includes_words (value expected : string) :
  onlySpaces value = true -> expected <> EmptyString ->
  (matchers Includes value expected = true <-> In expected (wordList value)).
Proof.
  intros Hv He. simpl.
  rewrite arrayIncludes_spec, <- splitSpaces_words by assumption.
  rewrite filter_In. split; [|tauto].
  intros H. split; [assumption|]. now destruct expected.
Qed.

End Strings.

(** ** Case conversion *)

Lemma nat_of_ascii_inj (a b : ascii) :
  nat_of_ascii a = nat_of_ascii b -> a = b.
Proof.
  intros H. rewrite <- (ascii_nat_embedding a), <- (ascii_nat_embedding b).
  now rewrite H.
Qed.

Lemma nat_of_upperChar (c : ascii) :
  nat_of_ascii (upperChar c) =
  if ((97 <=? nat_of_ascii c)%nat && (nat_of_ascii c <=? 122)%nat)%bool
  then nat_of_ascii c - 32 else nat_of_ascii c.
Proof.
  unfold upperChar. cbv zeta.
  destruct ((97 <=? nat_of_ascii c)%nat && (nat_of_ascii c <=? 122)%nat)%bool
    eqn:Hl; [|reflexivity].
  apply nat_ascii_embedding. pose proof (nat_ascii_bounded c). lia.
Qed.

(** Two characters have the same upper-case form exactly when they are
    equal or the two forms of one letter. *)
Lemma upperChar_equalIgnoringCase (a b : ascii) :
  upperChar a = upperChar b <-> equalCharIgnoringCase a b = true.
Proof.
  assert (Hcode : upperChar a = upperChar b <->
                  nat_of_ascii (upperChar a) = nat_of_ascii (upperChar b)).
  { split; [now intros -> | apply nat_of_ascii_inj]. }
  rewrite Hcode, !nat_of_upperChar.
  unfold equalCharIgnoringCase, sameLetter, isLowerLetter, isUpperLetter.
  change (nat_of_ascii "a") with 97. change (nat_of_ascii "z") with 122.
  change (nat_of_ascii "A") with 65. change (nat_of_ascii "Z") with 90.
  assert (Heq : Ascii.eqb a b = (nat_of_ascii a =? nat_of_ascii b)%nat).
  { destruct (Ascii.eqb a b) eqn:E.
    - apply Ascii.eqb_eq in E. subst. symmetry. apply Nat.eqb_refl.
    - symmetry. apply Nat.eqb_neq. intros H. apply nat_of_ascii_inj in H.
      apply Ascii.eqb_neq in E. contradiction. }
  rewrite Heq.
  generalize (nat_of_ascii a) (nat_of_ascii b). intros n m.
  rewrite !orb_true_iff, !andb_true_iff, !Nat.eqb_eq, !Nat.leb_le.
  destruct (97 <=? n)%nat eqn:H1, (n <=? 122)%nat eqn:H2,
           (97 <=? m)%nat eqn:H3, (m <=? 122)%nat eqn:H4; simpl;
    rewrite ?Nat.leb_le, ?Nat.leb_gt in *; lia.
Qed.

(** The comparison [a.toUpperCase() === b.toUpperCase()] of the source is
    equality up to case. *)
Lemma toUpperCase_equalIgnoringCase (a b : string) :
  toUpperCase a = toUpperCase b <-> equalIgnoringCase a b = true.
Proof.
  revert b. induction a as [|x a IH]; intros [|y b]; simpl;
    try (split; [reflexivity || discriminate | reflexivity || discriminate]).
  rewrite andb_true_iff, <- upperChar_equalIgnoringCase, <- IH.
  split; [now inversion 1 | intros [-> ->]; reflexivity].
Qed.

Lemma toUpperCase_eqb (a b : string) :
  String.eqb (toUpperCase a) (toUpperCase b) = equalIgnoringCase a b.
Proof.
  destruct (equalIgnoringCase a b) eqn:E.
  - apply String.eqb_eq. now apply toUpperCase_equalIgnoringCase.
  - apply String.eqb_neq. intros H.
    apply toUpperCase_equalIgnoringCase in H. congruence.
Qed.

(** Upper-casing keeps a string ASCII and is idempotent. *)
Lemma toUpperCase_isAscii (s : string) :
  isAscii s = true -> isAscii (toUpperCase s) = true.
Proof.
  induction s as [|c s IH]; simpl; [reflexivity|].
  rewrite !andb_true_iff. intros [Hc Hs]. split; [|now apply IH].
  unfold isAsciiChar in *. rewrite Nat.ltb_lt in *. rewrite nat_of_upperChar.
  destruct ((97 <=? nat_of_ascii c)%nat && (nat_of_ascii c <=? 122)%nat)%bool;
    lia.
Qed.

(** ** Compound selectors *)

Section Compound.

Variable T : Type.
Variable operations : Operations T.

Lemma matchSubClassSelector_spec (node : T) (selector : SubclassSelector) :
  matchSubClassSelector operations node selector = true <->
  subclassHolds operations node selector.
Proof.
  destruct selector as [value|value|name [m|]|name|name]; simpl.
  - apply String.eqb_eq.
  - reflexivity.
  - destruct (getAttribute operations node name) as [v|].
    + split; [intros H; now exists v | intros [w [Hw H]]; congruence].
    + split; [discriminate | intros [w [Hw _]]; discriminate].
  - destruct (getAttribute operations node name) as [v|].
    + split; [intros _; now exists v | reflexivity].
    + split; [discriminate | intros [w Hw]; discriminate].
  - tauto.
  - split; [discriminate | contradiction].
Qed.

Lemma allSubClassesMatch_spec (node : T) (xs : list SubclassSelector) :
  allSubClassesMatch operations node xs = true <->
  Forall (subclassHolds operations node) xs.
Proof.
  induction xs as [|selector rest IH]; simpl.
  - split; [constructor | reflexivity].
  - destruct (matchSubClassSelector operations node selector) eqn:Hm; simpl.
    + rewrite IH. apply matchSubClassSelector_spec in Hm. split.
      * now constructor.
      * now inversion 1.
    + split; [discriminate|]. inversion 1 as [|? ? Hs _]; subst.
      apply matchSubClassSelector_spec in Hs. congruence.
Qed.

(** The loop stops at the first selector that fails: what follows it is not
    looked at. *)
Lemma allSubClassesMatch_first_failure (node : T)
    (before after : list SubclassSelector) (selector : SubclassSelector) :
  matchSubClassSelector operations node selector = false ->
  allSubClassesMatch operations node (before ++ selector :: after) =
  allSubClassesMatch operations node (before ++ [selector]).
Proof.
  intros Hf. induction before as [|b before IH]; simpl.
  - now rewrite Hf.
  - destruct (matchSubClassSelector operations node b); simpl;
      [exact IH | reflexivity].
Qed.

(** The calls of the loop over a list whose selectors all succeed are the
    calls of each selector in turn. *)
Lemma allSubClassesCalls_all (node : T) (xs : list SubclassSelector) :
  allSubClassesMatch operations node xs = true ->
  allSubClassesCalls operations node xs =
  flat_map (matchSubClassSelectorCalls node) xs.
Proof.
  induction xs as [|selector rest IH]; simpl; [reflexivity|].
  destruct (matchSubClassSelector operations node selector); simpl;
    [|discriminate].
  intros H. now rewrite IH.
Qed.

(** The calls of the loop end with those of the first selector that
    fails. *)
Lemma allSubClassesCalls_first_failure (node : T)
    (before after : list SubclassSelector) (selector : SubclassSelector) :
  allSubClassesMatch operations node before = true ->
  matchSubClassSelector operations node selector = false ->
  allSubClassesCalls operations node (before ++ selector :: after) =
  flat_map (matchSubClassSelectorCalls node) (before ++ [selector]).
Proof.
  intros Hb Hf. induction before as [|b before IH]; simpl.
  - rewrite Hf. simpl. reflexivity.
  - simpl in Hb.
    destruct (matchSubClassSelector operations node b); simpl in *;
      [|discriminate].
    now rewrite IH.
Qed.

Lemma matchCompoundSelector_conjunction (node : T) (c : CompoundSelector) :
  matchCompoundSelector operations node c = true <->
  typeMatches operations node c /\
  allHold operations node (subclasses c) /\
  allHold operations node (pseudoes c).
Proof.
  unfold matchCompoundSelector, typeMatches, allHold.
  destruct (type c) as [ty|].
  - rewrite toUpperCase_eqb.
    destruct (equalIgnoringCase (getTagName operations node) (typeName ty));
      simpl.
    + destruct (subclasses c) as [xs|], (pseudoes c) as [ys|];
        rewrite <- ?allSubClassesMatch_spec;
        repeat match goal with
               | |- context [allSubClassesMatch operations node ?l] =>
                   destruct (allSubClassesMatch operations node l)
               end; simpl; intuition congruence.
    + intuition congruence.
  - destruct (subclasses c) as [xs|], (pseudoes c) as [ys|];
      rewrite <- ?allSubClassesMatch_spec;
      repeat match goal with
             | |- context [allSubClassesMatch operations node ?l] =>
                 destruct (allSubClassesMatch operations node l)
             end; simpl; intuition congruence.
Qed.

(** C5. For a node and a compound selector whose tag name and type name
    are ASCII, [matchCompoundSelector] answers [true] exactly when the type
    selector, if there is one, names the tag of the node up to the case of
    its letters, and every subclass selector and every pseudo selector
    succeeds on its own; a type selector that does not, makes the answer
    [false] at once, the tag name being the only thing asked of the
    adapter.  The selectors succeed as follows: an ID by equality with the
    adapter's id, a class by the adapter's membership test, an attribute
    without operator when the attribute exists, an attribute with operator
    when it exists and the registered matcher holds on its value and the
    expected value; a pseudo-class always succeeds and a pseudo-element
    always fails.  The conjunction stops at the first failure: when the
    selectors before a failing one succeed, the answer is [false] and the
    adapter is asked for these selectors and the failing one only, whatever
    follows; and when a subclass selector fails, the pseudo selectors are
    not evaluated. *)
Theorem C5_matchCompoundSelector_spec :
  forall (node : T) (c : CompoundSelector),
    (asciiNames operations node c = true ->
       (matchCompoundSelector operations node c = true <->
          typeMatches operations node c /\
          allHold operations node (subclasses c) /\
          allHold operations node (pseudoes c)) /\
       (forall ty,
          type c = Some ty ->
          equalIgnoringCase (getTagName operations node) (typeName ty) =
            false ->
          matchCompoundSelector operations node c = false /\
          matchCompoundSelectorCalls operations node c =
            [CallGetTagName node])) /\
    (forall name,
       matchSubClassSelector operations node (PseudoClass name) = true) /\
    (forall name,
       matchSubClassSelector operations node (PseudoElement name) = false) /\
    (forall value,
       matchSubClassSelector operations node (ID value) = true <->
       getID operations node = value) /\
    (forall value,
       matchSubClassSelector operations node (Class value) =
       hasClass operations node value) /\
    (forall name,
       matchSubClassSelector operations node (Attribute name None) = true <->
       getAttribute operations node name <> None) /\
    (forall name m,
       matchSubClassSelector operations node (Attribute name (Some m)) = true
       <->
       exists v, getAttribute operations node name = Some v /\
                 matchers (matcher m) v (expectedValue m) = true) /\
    (forall before selector after,
       allSubClassesMatch operations node before = true ->
       matchSubClassSelector operations node selector = false ->
       allSubClassesMatch operations node (before ++ selector :: after) =
         false /\
       allSubClassesCalls operations node (before ++ selector :: after) =
         flat_map (matchSubClassSelectorCalls node) (before ++ [selector])) /\
    (forall xs,
       subclasses c = Some xs ->
       allSubClassesMatch operations node xs = false ->
       matchCompoundSelector operations node c = false /\
       matchCompoundSelectorCalls operations node c =
         matchCompoundSelectorCalls operations node
           {| type := type c; subclasses := Some xs; pseudoes := None |}).
Proof.
  intros node c.
  split; [|split; [|split; [|split; [|split; [|split;
    [|split; [|split]]]]]]].
  - intros _. split; [apply matchCompoundSelector_conjunction|].
    intros ty Hty Hne.
    unfold matchCompoundSelector, matchCompoundSelectorCalls.
    rewrite Hty, toUpperCase_eqb, Hne. simpl. now split.
  - reflexivity.
  - reflexivity.
  - intros value. apply String.eqb_eq.
  - reflexivity.
  - intros name. simpl.
    destruct (getAttribute operations node name); split; congruence.
  - intros name m.
    apply (matchSubClassSelector_spec node (Attribute name (Some m))).
  - intros before selector after Hb Hf. split.
    + rewrite allSubClassesMatch_first_failure by assumption.
      clear after. induction before as [|b before IH]; simpl.
      * now rewrite Hf.
      * simpl in Hb.
        destruct (matchSubClassSelector operations node b); simpl in *;
          [now apply IH | discriminate].
    + now apply allSubClassesCalls_first_failure.
  - intros xs Hxs Hfail. split.
    + unfold matchCompoundSelector. rewrite Hxs, Hfail. simpl.
      now destruct (match type c with
                    | Some ty =>
                        negb (String.eqb
                                (toUpperCase (getTagName operations node))
                                (toUpperCase (typeName ty)))
                    | None => false
                    end).
    + unfold matchCompoundSelectorCalls. cbn [type subclasses pseudoes].
      rewrite Hxs, Hfail. reflexivity.
Qed.

End Compound.

(** ** Combinator collectors *)

Section Collectors.

Variable T : Type.
Variable T_eq_dec : forall a b : T, {a = b} + {a <> b}.
Variable operations : Operations T.

Lemma ws_has_In (s : WeakSet T) (t : T) :
  ws_has T_eq_dec s t = true <-> In t s.
Proof.
  unfold ws_has. rewrite existsb_exists. split.
  - intros [u [Hin Hu]]. destruct (T_eq_dec t u); [now subst | discriminate].
  - intros Hin. exists t. split; [assumption|].
    destruct (T_eq_dec t t); [reflexivity | contradiction].
Qed.

Lemma pushOnce_ok (t : T) (st : collected T) :
  synced st ->
  synced (pushOnce T_eq_dec t st) /\
  forall y, In y (fst (pushOnce T_eq_dec t st)) <-> In y (fst st) \/ y = t.
Proof.
  destruct st as [out dedup]. unfold synced, pushOnce. simpl.
  intros [Hnd Hsame].
  destruct (ws_has T_eq_dec dedup t) eqn:Hhas; simpl.
  - apply ws_has_In in Hhas. split; [now split|].
    intros y. split; [tauto|]. intros [H| ->]; [assumption | now apply Hsame].
  - assert (Hnot : ~ In t out).
    { intros Hin. apply Hsame, ws_has_In in Hin. congruence. }
    split; [split|].
    + apply NoDup_app; repeat split; try assumption.
      * constructor; [intros [] | constructor].
      * intros x Hx [<-|[]]. contradiction.
    + intros x. rewrite in_app_iff. unfold ws_add. simpl.
      rewrite Hsame. intuition.
    + intros y. rewrite in_app_iff. simpl. intuition.
Qed.

Lemma chain_unfold (next : T -> option T) (x y : T) :
  chain next x y <-> reach next (next x) y.
Proof.
  unfold reach. split.
  - intros H. destruct H as [x y H|x y z H Hc]; rewrite H.
    + now left.
    + now right.
  - destruct (next x) as [p|] eqn:Hp; [|contradiction].
    intros [->|Hc]; [now apply chain_one | now apply chain_more with p].
Qed.

Lemma whileChain_ok (next : T -> option T) (fuel : nat) :
  forall (t : option T) (st st' : collected T),
    whileChain T_eq_dec next fuel t st = Returns st' ->
    synced st ->
    synced st' /\
    forall y, In y (fst st') <-> In y (fst st) \/ reach next t y.
Proof.
  induction fuel as [|fuel IH]; intros [x|] st st' Hrun Hst; simpl in Hrun;
    try discriminate.
  - inversion Hrun; subst. split; [assumption | simpl; tauto].
  - destruct (pushOnce_ok x Hst) as [Hst1 Hin1].
    destruct (IH _ _ _ Hrun Hst1) as [Hst' Hin']. split; [assumption|].
    intros y. rewrite Hin', Hin1. simpl. rewrite chain_unfold. tauto.
  - inversion Hrun; subst. split; [assumption | simpl; tauto].
Qed.

Lemma forNodes_ok (step : T -> collected T -> outcome (collected T))
    (P : T -> T -> Prop) :
  (forall node st st',
     step node st = Returns st' -> synced st ->
     synced st' /\ forall y, In y (fst st') <-> In y (fst st) \/ P node y) ->
  forall (nodes : list T) (st st' : collected T),
    forNodes step nodes st = Returns st' -> synced st ->
    synced st' /\
    forall y, In y (fst st') <->
              In y (fst st) \/ exists c, In c nodes /\ P c y.
Proof.
  intros Hstep. induction nodes as [|node rest IH]; intros st st' Hrun Hst;
    simpl in Hrun.
  - inversion Hrun; subst. split; [assumption|].
    intros y. split; [tauto | intros [H|[c [[] _]]]; assumption].
  - destruct (step node st) as [st1| |] eqn:H1; simpl in Hrun;
      try discriminate.
    destruct (Hstep _ _ _ H1 Hst) as [Hst1 Hin1].
    destruct (IH _ _ Hrun Hst1) as [Hst' Hin']. split; [assumption|].
    intros y. rewrite Hin', Hin1. simpl. split.
    + intros [[H|H]|[c [Hc H]]]; [now left | right..].
      * exists node. auto.
      * exists c. auto.
    + intros [H|[c [[<-|Hc] H]]]; [tauto | tauto | right; now exists c].
Qed.

Lemma optionStep_ok (next : T -> option T) (node : T)
    (st st' : collected T) :
  optionStep T_eq_dec next node st = Returns st' -> synced st ->
  synced st' /\
  forall y, In y (fst st') <-> In y (fst st) \/ next node = Some y.
Proof.
  unfold optionStep. intros Hrun Hst.
  destruct (next node) as [p|]; inversion Hrun; subst.
  - destruct (pushOnce_ok p Hst) as [Hst' Hin]. split; [assumption|].
    intros y. rewrite Hin. split; (intros [H|H]; [now left | right]);
      congruence.
  - split; [assumption|]. intros y. split; [tauto|].
    intros [H|H]; [assumption | discriminate].
Qed.

Lemma synced_empty : synced (([], ws_empty T) : collected T).
Proof. split; [constructor | intros x; simpl; tauto]. Qed.

(** A collector that returns answers with a duplicate-free array holding
    exactly the nodes related to some candidate. *)
Lemma collectors_sound (fuel : nat) (kind : CombinatorKind)
    (nodes out : list T) :
  collectors T_eq_dec operations fuel kind nodes = Returns out ->
  NoDup out /\
  forall x, In x out <-> exists c, In c nodes /\ related operations kind c x.
Proof.
  intros Hrun.
  assert (Hfrom : forall st : collected T,
             (synced st /\
              forall y, In y (fst st) <->
                In y (@nil T) \/
                exists c, In c nodes /\ related operations kind c y) ->
             out = fst st ->
             NoDup out /\
             forall x, In x out <->
               exists c, In c nodes /\ related operations kind c x).
  { intros st [[Hnd _] Hin] ->. split; [assumption|].
    intros x. rewrite Hin. simpl. tauto. }
  destruct kind; simpl in Hrun;
    try (match type of Hrun with
         | bind ?m _ = _ => destruct m as [st| |] eqn:Hloop
         end; simpl in Hrun; try discriminate;
         inversion Hrun; subst; apply (Hfrom st); [|reflexivity]).
  - apply forNodes_ok with (P := related operations Descendant)
      (3 := synced_empty) in Hloop; [exact Hloop|].
    intros node s s' Hs Hok. simpl.
    apply whileChain_ok in Hs; [|assumption].
    destruct Hs as [Hok' Hin]. split; [assumption|].
    intros y. now rewrite Hin, chain_unfold.
  - apply forNodes_ok with (P := related operations Child) (3 := synced_empty)
      in Hloop; [exact Hloop|].
    intros node s s' Hs Hok. now apply optionStep_ok.
  - apply forNodes_ok with (P := related operations NextSibling)
      (3 := synced_empty) in Hloop; [exact Hloop|].
    intros node s s' Hs Hok. now apply optionStep_ok.
  - apply forNodes_ok with (P := related operations SubsequentSibling)
      (3 := synced_empty) in Hloop; [exact Hloop|].
    intros node s s' Hs Hok. simpl.
    apply whileChain_ok in Hs; [|assumption].
    destruct Hs as [Hok' Hin]. split; [assumption|].
    intros y. now rewrite Hin, chain_unfold.
  - discriminate.
Qed.

End Collectors.

(** ** Complex selectors and selector lists *)

Section Complex.

Variable T : Type.
Variable T_eq_dec : forall a b : T, {a = b} + {a <> b}.
Variable operations : Operations T.

Lemma firstn_snoc (A : Type) (l : list A) (i : nat) (x : A) :
  nth_error l i = Some x -> firstn (S i) l = firstn i l ++ [x].
Proof.
  revert i. induction l as [|a l IH]; intros [|i] H; simpl in *;
    try discriminate.
  - now inversion H.
  - f_equal. now apply IH.
Qed.

(** The counting loop walks the first [k] pairs from the last to the
    first. *)
Lemma tailLoop_rightToLeft (fuel : nat)
    (tl : list (CombinatorKind * CompoundSelector)) (k : nat) :
  k <= List.length tl ->
  forall candidates,
    tailLoop T_eq_dec operations fuel tl k candidates =
    rightToLeft T_eq_dec operations fuel (rev (firstn k tl)) candidates.
Proof.
  induction k as [|i IH]; intros Hk candidates.
  - reflexivity.
  - cbn [tailLoop].
    destruct (nth_error tl i) as [[combinator selector]|] eqn:Hi.
    + rewrite (firstn_snoc _ _ Hi), rev_app_distr. cbn [rev app rightToLeft].
      destruct (filter (fun t => matchCompoundSelector operations t selector)
                       candidates) as [|c cs] eqn:Hf.
      * reflexivity.
      * cbn [List.length Nat.eqb].
        destruct (collectors T_eq_dec operations fuel combinator (c :: cs));
          simpl; [apply IH; lia | reflexivity | reflexivity].
    + apply nth_error_None in Hi. lia.
Qed.

(** C3. [matchComplexSelector] evaluates from right to left: it starts from
    the set holding the node alone; for each tail pair, from the last to the
    first, it keeps the nodes of the set that satisfy the compound selector
    of the pair, fails at once when none is left, and else replaces the set
    by what the collector of the pair's combinator returns; it then keeps
    the nodes that satisfy the head, and the node matches exactly when some
    node is left. *)
Theorem C3_matchComplexSelector_right_to_left :
  forall (fuel : nat) (node : T) (sel : ComplexSelector),
    matchComplexSelector T_eq_dec operations fuel node sel =
    complexMatches T_eq_dec operations fuel node sel.
Proof.
  intros fuel node sel. unfold matchComplexSelector, complexMatches.
  rewrite tailLoop_rightToLeft by lia. rewrite firstn_all.
  destruct (rightToLeft T_eq_dec operations fuel (rev (tail sel)) [node])
    as [[final|b]| |]; simpl; try reflexivity.
  now destruct (filter _ final).
Qed.

(** The first pair that is evaluated is the last of the tail. *)
Lemma rightToLeft_app (fuel : nat)
    (first rest : list (CombinatorKind * CompoundSelector))
    (current : list T) :
  rightToLeft T_eq_dec operations fuel (first ++ rest) current =
  (c <- rightToLeft T_eq_dec operations fuel first current ;;
   match c with
   | Continue next => rightToLeft T_eq_dec operations fuel rest next
   | Break b => Returns (Break b)
   end).
Proof.
  revert current. induction first as [|[combinator compound] first IH];
    intros current; cbn [app rightToLeft].
  - reflexivity.
  - destruct (filter _ current) as [|c cs]; [reflexivity|].
    destruct (collectors T_eq_dec operations fuel combinator (c :: cs));
      simpl; [apply IH | reflexivity | reflexivity].
Qed.

(** A member whose evaluation arrives at a column combinator raises. *)
Lemma reachesColumn_throws (fuel : nat) (node : T) (sel : ComplexSelector) :
  reachesColumn T_eq_dec operations fuel node sel ->
  matchComplexSelector T_eq_dec operations fuel node sel =
  Throws columnNotSupported.
Proof.
  intros [before [compound [after [candidates [Htail [Hwalk Hsome]]]]]].
  unfold matchComplexSelector.
  rewrite tailLoop_rightToLeft by lia. rewrite firstn_all.
  rewrite Htail, rev_app_distr. cbn [rev]. rewrite <- app_assoc.
  rewrite rightToLeft_app, Hwalk. cbn [bind app rightToLeft].
  destruct (filter _ candidates) as [|c cs]; [contradiction | reflexivity].
Qed.

(** [matchSelectors] goes through the members from left to right and stops
    at the first that matches. *)
Lemma matchSelectors_true (fuel : nat) (node : T)
    (selectors : list ComplexSelector) :
  matchSelectors T_eq_dec operations fuel node selectors = Returns true <->
  exists before member after,
    selectors = before ++ member :: after /\
    Forall (fun m => matchComplexSelector T_eq_dec operations fuel node m =
                     Returns false) before /\
    matchComplexSelector T_eq_dec operations fuel node member = Returns true.
Proof.
  induction selectors as [|m rest IH]; cbn [matchSelectors].
  - split; [discriminate|]. intros [[|? ?] [? [? [H _]]]]; discriminate.
  - destruct (matchComplexSelector T_eq_dec operations fuel node m)
      as [[|]| |] eqn:Hm; cbn [bind].
    + split; [intros _|reflexivity]. now exists [], m, rest.
    + rewrite IH. split.
      * intros [before [member [after [-> [Hb Hmem]]]]].
        exists (m :: before), member, after. repeat split; auto.
      * intros [[|m' before] [member [after [Heq [Hb Hmem]]]]];
          simpl in Heq; inversion Heq; subst; [congruence|].
        exists before, member, after. inversion Hb; auto.
    + split; [discriminate|].
      intros [[|m' before] [member [after [Heq [Hb Hmem]]]]];
        simpl in Heq; inversion Heq; subst; [congruence|].
      inversion Hb; congruence.
    + split; [discriminate|].
      intros [[|m' before] [member [after [Heq [Hb Hmem]]]]];
        simpl in Heq; inversion Heq; subst; [congruence|].
      inversion Hb; congruence.
Qed.

Lemma matchSelectors_false (fuel : nat) (node : T)
    (selectors : list ComplexSelector) :
  matchSelectors T_eq_dec operations fuel node selectors = Returns false <->
  Forall (fun m => matchComplexSelector T_eq_dec operations fuel node m =
                   Returns false) selectors.
Proof.
  induction selectors as [|m rest IH]; cbn [matchSelectors].
  - split; [constructor | reflexivity].
  - destruct (matchComplexSelector T_eq_dec operations fuel node m)
      as [[|]| |] eqn:Hm; cbn [bind];
      try (split; [discriminate | inversion 1; congruence]).
    rewrite IH. split; [now constructor | now inversion 1].
Qed.

(** A member that raises or diverges before any member has matched decides
    the outcome of the list. *)
Lemma matchSelectors_app (fuel : nat) (node : T)
    (first rest : list ComplexSelector) :
  matchSelectors T_eq_dec operations fuel node (first ++ rest) =
  (b <- matchSelectors T_eq_dec operations fuel node first ;;
   if b then Returns true
   else matchSelectors T_eq_dec operations fuel node rest).
Proof.
  induction first as [|m first IH]; cbn [app matchSelectors].
  - reflexivity.
  - destruct (matchComplexSelector T_eq_dec operations fuel node m)
      as [[|]| |]; cbn [bind]; auto.
Qed.

End Complex.

(** ** Traversal and the two queries *)

Section Queries.

Variable T : Type.
Variable T_eq_dec : forall a b : T, {a = b} + {a <> b}.
Variable operations : Operations T.
Variable parse : string -> parsed.

Lemma for_of_app (A St R : Type) (xs ys : list A)
    (body : A -> St -> outcome (ctl St R)) (s : St) :
  for_of (xs ++ ys) body s =
  (c <- for_of xs body s ;;
   match c with
   | Continue s' => for_of ys body s'
   | Break r => Returns (Break r)
   end).
Proof.
  revert s. induction xs as [|x xs IH]; intros s; cbn [app for_of].
  - reflexivity.
  - destruct (body x s) as [[s'|r]| |]; cbn [bind]; auto.
Qed.

(** Running a loop over the generator is running it over the preorder
    sequence. *)
Lemma traverse_preorder (St R : Type) (body : T -> St -> outcome (ctl St R))
    (fuel : nat) :
  forall (node : T) (includeRoot : bool) (nodes : list T) (s : St),
    preorder operations fuel node includeRoot = Some nodes ->
    preorderDepthFirstTraverse operations fuel node includeRoot body s =
    for_of nodes body s.
Proof.
  induction fuel as [|fuel IH]; intros node includeRoot nodes s Hpre;
    cbn [preorder] in Hpre; [discriminate|].
  cbn [preorderDepthFirstTraverse].
  destruct (concatOption (fun child => preorder operations fuel child true)
                         (getChildren operations node)) as [below|] eqn:Hb;
    [|discriminate].
  assert (Hkids : forall s1,
             for_of (getChildren operations node)
                    (fun child s' =>
                       preorderDepthFirstTraverse operations fuel child true
                                                  body s') s1 =
             for_of below body s1).
  { clear Hpre. revert below Hb.
    induction (getChildren operations node) as [|c cs IHc];
      intros below Hb s1; cbn [concatOption] in Hb.
    - now inversion Hb.
    - destruct (preorder operations fuel c true) as [here|] eqn:Hc;
        [|discriminate].
      destruct (concatOption _ cs) as [there|]; [|discriminate].
      inversion Hb; subst. rewrite for_of_app. cbn [for_of].
      rewrite (IH _ _ _ s1 Hc).
      destruct (for_of here body s1) as [[s'|r]| |]; cbn [bind]; auto. }
  inversion Hpre; subst. destruct includeRoot; cbn [for_of bind].
  - destruct (body node s) as [[s'|r]| |]; cbn [bind]; auto.
  - apply Hkids.
Qed.

(** A loop that ran to the end of the generator has seen a whole preorder
    sequence. *)
Lemma traverse_continue (St R : Type) (body : T -> St -> outcome (ctl St R))
    (fuel : nat) :
  forall (node : T) (includeRoot : bool) (s s' : St),
    preorderDepthFirstTraverse operations fuel node includeRoot body s =
      Returns (Continue s') ->
    exists nodes, preorder operations fuel node includeRoot = Some nodes.
Proof.
  induction fuel as [|fuel IH]; intros node includeRoot s s' Hrun;
    cbn [preorderDepthFirstTraverse] in Hrun; [discriminate|].
  cbn [preorder].
  destruct (if includeRoot then body node s else Returns (Continue s))
    as [[s1|r]| |]; cbn [bind] in Hrun; try discriminate.
  assert (Hkids : exists below,
             concatOption (fun child => preorder operations fuel child true)
                          (getChildren operations node) = Some below).
  { clear - IH Hrun. revert s1 Hrun.
    induction (getChildren operations node) as [|c cs IHc]; intros s1 Hrun;
      cbn [for_of concatOption] in *.
    - now exists [].
    - destruct (preorderDepthFirstTraverse operations fuel c true body s1)
        as [[s2|r]| |] eqn:Hc;
        cbn [bind] in Hrun; try discriminate.
      destruct (IH _ _ _ _ Hc) as [here ->].
      destruct (IHc _ Hrun) as [there ->]. now exists (here ++ there). }
  destruct Hkids as [below ->]. eauto.
Qed.

(** *** [querySelectorAll] *)

Lemma collect_loop (fuel : nat) (selectors : list ComplexSelector)
    (nodes : list T) :
  forall (acc out : list T),
    for_of nodes (collectBody T_eq_dec operations fuel selectors) acc =
      Returns (Continue out) <->
    (forall n, In n nodes ->
               exists b, matchSelectors T_eq_dec operations fuel n selectors =
                         Returns b) /\
    out = acc ++ filter (fun n => isTrue (matchSelectors T_eq_dec operations
                                                         fuel n selectors))
                        nodes.
Proof.
  induction nodes as [|n nodes IH]; intros acc out; cbn [for_of filter].
  - rewrite app_nil_r. split.
    + intros H. inversion H. split; [intros ? []|reflexivity].
    + intros [_ ->]. reflexivity.
  - unfold collectBody at 1.
    destruct (matchSelectors T_eq_dec operations fuel n selectors)
      as [[|]| |] eqn:Hn;
      cbn [bind isTrue].
    + rewrite IH, <- app_assoc. cbn [app]. split; intros [Hall ->];
        (split; [|reflexivity]).
      * intros x [<-|Hx]; eauto.
      * intros x Hx. apply Hall. now right.
    + rewrite IH. split; intros [Hall ->]; (split; [|reflexivity]).
      * intros x [<-|Hx]; eauto.
      * intros x Hx. apply Hall. now right.
    + split; [discriminate|]. intros [Hall _].
      destruct (Hall n (or_introl eq_refl)) as [b Hb]. congruence.
    + split; [discriminate|]. intros [Hall _].
      destruct (Hall n (or_introl eq_refl)) as [b Hb]. congruence.
Qed.

Lemma querySelectorAll_returns (fuel : nat) (root : T) (s : string)
    (selectors : list ComplexSelector) (out : list T) :
  parse s = ParseOk selectors ->
  (querySelectorAll T_eq_dec operations parse fuel root s = Returns out <->
   exists nodes,
     preorder operations fuel root false = Some nodes /\
     (forall n, In n nodes ->
                exists b, matchSelectors T_eq_dec operations fuel n selectors =
                          Returns b) /\
     out = filter (fun n => isTrue (matchSelectors T_eq_dec operations fuel n
                                                   selectors)) nodes).
Proof.
  intros Hparse. unfold querySelectorAll. rewrite Hparse. split.
  - intros Hrun.
    destruct (preorderDepthFirstTraverse operations fuel root false
                (collectBody T_eq_dec operations fuel selectors) [])
      as [[l|[]]| |] eqn:Ht; cbn [bind] in Hrun; try discriminate.
    inversion Hrun; subst.
    destruct (traverse_continue _ _ _ _ _ Ht) as [nodes Hpre].
    exists nodes. split; [assumption|].
    rewrite traverse_preorder with (1 := Hpre) in Ht.
    now apply collect_loop in Ht.
  - intros [nodes [Hpre [Hall ->]]].
    rewrite traverse_preorder with (1 := Hpre).
    assert (Hloop := proj2 (collect_loop fuel selectors nodes [] _)
                           (conj Hall eq_refl)).
    now rewrite Hloop.
Qed.

(** C1. [querySelectorAll] runs through the preorder sequence of the tree
    below the root, the root itself left out, and returns the visited nodes
    that the parsed selector list matches, in the order of the traversal;
    when no visited node matches it returns the empty sequence. *)
Theorem C1_querySelectorAll_preorder_matches :
  forall (fuel : nat) (root : T) (s : string)
         (selectors : list ComplexSelector),
    parse s = ParseOk selectors ->
    (forall out,
       querySelectorAll T_eq_dec operations parse fuel root s = Returns out <->
       exists nodes,
         preorder operations fuel root false = Some nodes /\
         (forall n, In n nodes ->
                    exists b, matchSelectors T_eq_dec operations fuel n
                                             selectors = Returns b) /\
         out = filter (fun n => isTrue (matchSelectors T_eq_dec operations
                                                       fuel n selectors))
                      nodes) /\
    (forall nodes,
       preorder operations fuel root false = Some nodes ->
       (forall n, In n nodes ->
                  matchSelectors T_eq_dec operations fuel n selectors =
                  Returns false) ->
       querySelectorAll T_eq_dec operations parse fuel root s = Returns []).
Proof.
  intros fuel root s selectors Hparse. split.
  - intros out. now apply querySelectorAll_returns.
  - intros nodes Hpre Hnone.
    apply (querySelectorAll_returns fuel root _ Hparse). exists nodes.
    split; [assumption|]. split; [intros n Hn; eauto|].
    symmetry. clear Hpre. induction nodes as [|n nodes IH]; [reflexivity|].
    cbn [filter]. rewrite (Hnone n (or_introl eq_refl)). cbn [isTrue].
    apply IH. intros x Hx. apply Hnone. now right.
Qed.

End Queries.

(** ** Fuel

    An answer reached with some fuel is the answer with any larger fuel. *)

Section Fuel.

Variable T : Type.
Variable T_eq_dec : forall a b : T, {a = b} + {a <> b}.
Variable operations : Operations T.
Variable parse : string -> parsed.

Lemma monotone_const (A : Type) (r : outcome A) : monotone (fun _ => r).
Proof. intros fuel fuel' _ _. reflexivity. Qed.

Lemma monotone_bind (A B : Type) (f : nat -> outcome A)
    (g : A -> nat -> outcome B) :
  monotone f -> (forall a, monotone (g a)) ->
  monotone (fun fuel => bind (f fuel) (fun a => g a fuel)).
Proof.
  intros Hf Hg fuel fuel' Hle Hnd.
  destruct (f fuel) as [a| |] eqn:Ha; cbn [bind] in Hnd;
    try congruence.
  - rewrite (Hf _ _ Hle) by congruence. rewrite Ha. cbn [bind].
    now apply Hg.
  - rewrite (Hf _ _ Hle) by congruence. now rewrite Ha.
Qed.

Lemma monotone_settles (A : Type) (f : nat -> outcome A) (fuel : nat)
    (r : outcome A) :
  monotone f -> f fuel = r -> r <> Diverges -> settles f r.
Proof.
  intros Hf Hr Hnd. split; [assumption|]. exists fuel. intros fuel' Hle.
  rewrite (Hf _ _ Hle); congruence.
Qed.

Lemma settles_unique (A : Type) (f : nat -> outcome A) (r r' : outcome A) :
  settles f r -> settles f r' -> r = r'.
Proof.
  intros [_ [k Hk]] [_ [k' Hk']].
  rewrite <- (Hk (max k k')), <- (Hk' (max k k')) by lia. reflexivity.
Qed.

Lemma whileChain_monotone (next : T -> option T) (t : option T)
    (st : collected T) :
  monotone (fun fuel => whileChain T_eq_dec next fuel t st).
Proof.
  intros fuel. revert t st.
  induction fuel as [|fuel IH]; intros [x|] st fuel' Hle Hnd;
    cbn [whileChain] in *; try congruence.
  - now destruct fuel'.
  - destruct fuel' as [|fuel']; [lia|]. cbn [whileChain].
    apply IH; [lia | assumption].
  - now destruct fuel'.
Qed.

Lemma forNodes_monotone
    (step : nat -> T -> collected T -> outcome (collected T))
    (nodes : list T) :
  (forall node st, monotone (fun fuel => step fuel node st)) ->
  forall st, monotone (fun fuel => forNodes (step fuel) nodes st).
Proof.
  intros Hstep. induction nodes as [|node rest IH]; intros st;
    cbn [forNodes].
  - apply monotone_const.
  - apply monotone_bind with (f := fun fuel => step fuel node st)
             (g := fun st' fuel => forNodes (step fuel) rest st');
      [apply Hstep | apply IH].
Qed.

Lemma collectors_monotone (kind : CombinatorKind) (nodes : list T) :
  monotone (fun fuel => collectors T_eq_dec operations fuel kind nodes).
Proof.
  destruct kind; cbn [collectors]; try apply monotone_const.
  - apply monotone_bind with
             (f := fun fuel =>
                     forNodes
                       (fun node st =>
                          whileChain T_eq_dec (getParent operations) fuel
                                     (getParent operations node) st)
                       nodes ([], ws_empty T))
             (g := fun st _ => Returns (fst st)).
    + apply (forNodes_monotone
               (fun fuel node st =>
                  whileChain T_eq_dec (getParent operations) fuel
                             (getParent operations node) st)).
      intros node st. apply whileChain_monotone.
    + intros st. apply monotone_const.
  - apply monotone_bind with
             (f := fun fuel =>
                     forNodes
                       (fun node st =>
                          whileChain T_eq_dec (getPreviouSibling operations)
                                     fuel
                                     (getPreviouSibling operations node) st)
                       nodes ([], ws_empty T))
             (g := fun st _ => Returns (fst st)).
    + apply (forNodes_monotone
               (fun fuel node st =>
                  whileChain T_eq_dec (getPreviouSibling operations) fuel
                             (getPreviouSibling operations node) st)).
      intros node st. apply whileChain_monotone.
    + intros st. apply monotone_const.
Qed.

Lemma tailLoop_monotone (tl : list (CombinatorKind * CompoundSelector))
    (k : nat) :
  forall candidates,
    monotone (fun fuel => tailLoop T_eq_dec operations fuel tl k candidates).
Proof.
  induction k as [|i IH]; intros candidates; cbn [tailLoop].
  - apply monotone_const.
  - destruct (nth_error tl i) as [[combinator selector]|];
      [|apply monotone_const].
    destruct (List.length (filter _ candidates) =? 0)%nat;
      [apply monotone_const|].
    apply monotone_bind with
             (f := fun fuel => collectors T_eq_dec operations fuel combinator _)
             (g := fun next fuel =>
                     tailLoop T_eq_dec operations fuel tl i next);
      [apply collectors_monotone | apply IH].
Qed.

Lemma matchComplexSelector_monotone (node : T) (sel : ComplexSelector) :
  monotone (fun fuel => matchComplexSelector T_eq_dec operations fuel node sel).
Proof.
  unfold matchComplexSelector.
  apply monotone_bind with
           (f := fun fuel => tailLoop T_eq_dec operations fuel (tail sel)
                                      (List.length (tail sel)) [node])
           (g := fun c _ =>
                   match c with
                   | Break r => Returns r
                   | Continue candidates =>
                       Returns (0 <? List.length
                                  (filter (fun t => matchCompoundSelector
                                                      operations t (head sel))
                                          candidates))%nat
                   end).
  - apply tailLoop_monotone.
  - intros c. apply monotone_const.
Qed.

Lemma matchSelectors_monotone (node : T) (selectors : list ComplexSelector) :
  monotone (fun fuel => matchSelectors T_eq_dec operations fuel node selectors).
Proof.
  induction selectors as [|m rest IH]; cbn [matchSelectors].
  - apply monotone_const.
  - apply monotone_bind with
             (f := fun fuel => matchComplexSelector T_eq_dec operations fuel
                                                    node m)
             (g := fun (b : bool) fuel =>
                     if b then Returns true
                     else matchSelectors T_eq_dec operations fuel node rest).
    + apply matchComplexSelector_monotone.
    + intros [|]; [apply monotone_const | exact IH].
Qed.

Lemma for_of_refine (A St R : Type) (xs : list A)
    (f g : A -> St -> outcome (ctl St R)) :
  (forall x s, In x xs -> f x s <> Diverges -> g x s = f x s) ->
  forall s, for_of xs f s <> Diverges -> for_of xs g s = for_of xs f s.
Proof.
  induction xs as [|x xs IH]; intros Hfg s Hnd; cbn [for_of] in *.
  - reflexivity.
  - destruct (f x s) as [[s'|r]| |] eqn:Hx; cbn [bind] in Hnd;
      try congruence;
      rewrite (Hfg x s (or_introl eq_refl)) by congruence; rewrite Hx;
      cbn [bind]; try reflexivity.
    apply IH; [|assumption]. intros y s0 Hy. apply Hfg. now right.
Qed.

Lemma traverse_refine (St R : Type)
    (body body' : T -> St -> outcome (ctl St R)) :
  (forall x s, body x s <> Diverges -> body' x s = body x s) ->
  forall depth depth', depth <= depth' ->
  forall node includeRoot s,
    preorderDepthFirstTraverse operations depth node includeRoot body s
      <> Diverges ->
    preorderDepthFirstTraverse operations depth' node includeRoot body' s =
    preorderDepthFirstTraverse operations depth node includeRoot body s.
Proof.
  intros Hbody. induction depth as [|depth IH];
    intros depth' Hle node includeRoot s Hnd;
    cbn [preorderDepthFirstTraverse] in *; [congruence|].
  destruct depth' as [|depth']; [lia|]. cbn [preorderDepthFirstTraverse].
  assert (Hfirst :
            (if includeRoot then body' node s else Returns (Continue s)) =
            (if includeRoot then body node s else Returns (Continue s))).
  { destruct includeRoot; [|reflexivity]. apply Hbody.
    intros Hd. rewrite Hd in Hnd. now cbn [bind] in Hnd. }
  rewrite Hfirst.
  destruct (if includeRoot then body node s else Returns (Continue s))
    as [[s1|r]| |]; cbn [bind] in *; try reflexivity.
  apply for_of_refine; [|assumption].
  intros child s' _ Hc. apply IH; [lia | assumption].
Qed.

Lemma preorder_monotone (fuel : nat) :
  forall fuel' node includeRoot nodes,
    fuel <= fuel' ->
    preorder operations fuel node includeRoot = Some nodes ->
    preorder operations fuel' node includeRoot = Some nodes.
Proof.
  induction fuel as [|fuel IH]; intros fuel' node includeRoot nodes Hle Hpre;
    cbn [preorder] in Hpre; [discriminate|].
  destruct fuel' as [|fuel']; [lia|]. cbn [preorder].
  destruct (concatOption (fun child => preorder operations fuel child true)
                         (getChildren operations node)) as [below|] eqn:Hb;
    [|discriminate].
  assert (Hkids : forall cs below',
             concatOption (fun child => preorder operations fuel child true)
                          cs = Some below' ->
             concatOption (fun child => preorder operations fuel' child true)
                          cs = Some below').
  { induction cs as [|c cs IHc]; intros below' Hcs;
      cbn [concatOption] in *; [assumption|].
    destruct (preorder operations fuel c true) as [here|] eqn:Hc;
      [|discriminate].
    destruct (concatOption _ cs) as [there|] eqn:Hrest; [|discriminate].
    rewrite (IH fuel' c true here) by (assumption || lia).
    now rewrite (IHc there eq_refl). }
  apply Hkids in Hb.
  now rewrite Hb.
Qed.

Lemma findBody_monotone (selectors : list ComplexSelector) (node : T)
    (u : unit) :
  monotone (fun fuel => findBody T_eq_dec operations fuel selectors node u).
Proof.
  unfold findBody.
  apply monotone_bind with
           (f := fun fuel => matchSelectors T_eq_dec operations fuel node
                                            selectors)
           (g := fun (b : bool) _ =>
                   if b then Returns (Break node)
                   else Returns (Continue tt)).
  - apply matchSelectors_monotone.
  - intros b. apply monotone_const.
Qed.

Lemma collectBody_monotone (selectors : list ComplexSelector) (node : T)
    (acc : list T) :
  monotone
    (fun fuel => collectBody T_eq_dec operations fuel selectors node acc).
Proof.
  unfold collectBody.
  apply monotone_bind with
           (f := fun fuel => matchSelectors T_eq_dec operations fuel node
                                            selectors)
           (g := fun (b : bool) _ =>
                   if b then Returns (Continue (acc ++ [node]))
                   else Returns (Continue acc)).
  - apply matchSelectors_monotone.
  - intros b. apply monotone_const.
Qed.

Lemma querySelector_monotone (root : T) (s : string) :
  monotone (fun fuel => querySelector T_eq_dec operations parse fuel root s).
Proof.
  unfold querySelector. destruct (parse s) as [selectors|msg];
    [|apply monotone_const].
  intros fuel fuel' Hle Hnd.
  rewrite (@traverse_refine unit T
             (findBody T_eq_dec operations fuel selectors)
             (findBody T_eq_dec operations fuel' selectors))
    with (depth := fuel);
    try assumption; try reflexivity.
  - intros x u Hx. now apply (findBody_monotone selectors x u).
  - intros Hd. rewrite Hd in Hnd. now cbn [bind] in Hnd.
Qed.

Lemma querySelectorAll_monotone (root : T) (s : string) :
  monotone (fun fuel => querySelectorAll T_eq_dec operations parse fuel root s).
Proof.
  unfold querySelectorAll. destruct (parse s) as [selectors|msg];
    [|apply monotone_const].
  intros fuel fuel' Hle Hnd.
  rewrite (@traverse_refine (list T) Empty_set
             (collectBody T_eq_dec operations fuel selectors)
             (collectBody T_eq_dec operations fuel' selectors))
    with (depth := fuel); try assumption; try reflexivity.
  - intros x acc Hx. now apply (collectBody_monotone selectors x acc).
  - intros Hd. rewrite Hd in Hnd. now cbn [bind] in Hnd.
Qed.

End Fuel.

(** ** Termination on well-founded adapters *)

Section Termination.

Variable T : Type.
Variable T_eq_dec : forall a b : T, {a = b} + {a <> b}.
Variable operations : Operations T.
Variable parse : string -> parsed.

Lemma halts_terminates (A : Type) (f : nat -> outcome A) :
  monotone f -> halts f -> terminates f.
Proof.
  intros Hmono [fuel Hnd]. exists (f fuel).
  now apply monotone_settles with fuel.
Qed.

Lemma halts_const (A : Type) (r : outcome A) :
  r <> Diverges -> halts (fun _ => r).
Proof. intros H. now exists 0. Qed.

Lemma halts_bind (A B : Type) (f : nat -> outcome A)
    (g : A -> nat -> outcome B) :
  monotone f -> (forall a, monotone (g a)) ->
  halts f -> (forall a, halts (g a)) ->
  halts (fun fuel => bind (f fuel) (fun a => g a fuel)).
Proof.
  intros Mf Mg [k Hk] Hg.
  destruct (f k) as [a| |] eqn:Ha; try congruence.
  - destruct (Hg a) as [k' Hk'].
    exists (max k k').
    rewrite (Mf k (max k k')) by (lia || congruence). rewrite Ha.
    cbn [bind]. rewrite (Mg a k' (max k k')) by (lia || assumption).
    assumption.
  - exists k. rewrite Ha. cbn [bind]. discriminate.
Qed.

Lemma whileChain_halts (next : T -> option T) (x : T) :
  Acc (fun p n => next n = Some p) x ->
  forall st, halts (fun fuel => whileChain T_eq_dec next fuel (Some x) st).
Proof.
  induction 1 as [x _ IH]. intros st.
  destruct (next x) as [y|] eqn:Hy.
  - destruct (IH y eq_refl (pushOnce T_eq_dec x st)) as [fuel Hfuel].
    exists (S fuel). cbn [whileChain]. now rewrite Hy.
  - exists 1. cbn [whileChain]. rewrite Hy. discriminate.
Qed.

Lemma whileChain_from_halts (next : T -> option T) (t : option T) :
  well_founded (fun p n => next n = Some p) ->
  forall st, halts (fun fuel => whileChain T_eq_dec next fuel t st).
Proof.
  intros Hwf st. destruct t as [x|].
  - now apply whileChain_halts.
  - exists 0. discriminate.
Qed.

Lemma forNodes_halts (step : nat -> T -> collected T -> outcome (collected T))
    (nodes : list T) :
  (forall node st, monotone (fun fuel => step fuel node st)) ->
  (forall node st, halts (fun fuel => step fuel node st)) ->
  forall st, halts (fun fuel => forNodes (step fuel) nodes st).
Proof.
  intros Mstep Hstep. induction nodes as [|node rest IH]; intros st;
    cbn [forNodes].
  - apply halts_const. discriminate.
  - apply halts_bind with (f := fun fuel => step fuel node st)
                          (g := fun st' fuel => forNodes (step fuel) rest st');
      auto.
    intros st'. now apply forNodes_monotone.
Qed.

Lemma forNodes_optionStep_returns (next : T -> option T) (nodes : list T) :
  forall st, exists st',
    forNodes (optionStep T_eq_dec next) nodes st = Returns st'.
Proof.
  induction nodes as [|node rest IH]; intros st; cbn [forNodes].
  - now exists st.
  - unfold optionStep at 1. destruct (next node); cbn [bind]; apply IH.
Qed.

Lemma whileChain_not_throws (next : T -> option T) (fuel : nat) :
  forall t st e, whileChain T_eq_dec next fuel t st <> Throws e.
Proof.
  induction fuel as [|fuel IH]; intros [x|] st e; cbn [whileChain];
    try discriminate. apply IH.
Qed.

Lemma forNodes_not_throws (step : T -> collected T -> outcome (collected T))
    (nodes : list T) :
  (forall node st e, step node st <> Throws e) ->
  forall st e, forNodes step nodes st <> Throws e.
Proof.
  intros Hstep. induction nodes as [|node rest IH]; intros st e;
    cbn [forNodes]; [discriminate|].
  destruct (step node st) as [st'|e'|] eqn:Hs; cbn [bind];
    [apply IH | now apply Hstep in Hs | discriminate].
Qed.

Lemma optionStep_not_throws (next : T -> option T) (node : T)
    (st : collected T) (e : exn) :
  optionStep T_eq_dec next node st <> Throws e.
Proof. unfold optionStep. destruct (next node); discriminate. Qed.

Lemma collectors_not_throws (fuel : nat) (kind : CombinatorKind)
    (nodes : list T) (e : exn) :
  kind <> Column ->
  collectors T_eq_dec operations fuel kind nodes <> Throws e.
Proof.
  intros Hkind.
  assert (Hloop : forall step st,
             (forall node s e', step node s <> Throws e') ->
             bind (forNodes step nodes st)
                  (fun s : collected T => Returns (fst s)) <> Throws e).
  { intros step st Hstep.
    destruct (forNodes step nodes st) as [st'|e'|] eqn:Hrun; cbn [bind];
      try discriminate.
    now apply forNodes_not_throws in Hrun. }
  destruct kind; cbn [collectors]; try congruence; apply Hloop; intros.
  - apply whileChain_not_throws.
  - apply optionStep_not_throws.
  - apply optionStep_not_throws.
  - apply whileChain_not_throws.
Qed.

Lemma collectors_halts (kind : CombinatorKind) (nodes : list T) :
  well_founded (parentOf operations) ->
  well_founded (previousOf operations) ->
  halts (fun fuel => collectors T_eq_dec operations fuel kind nodes).
Proof.
  intros Hparent Hprevious. destruct kind; cbn [collectors].
  - apply halts_bind with
      (f := fun fuel =>
              forNodes
                (fun node st =>
                   whileChain T_eq_dec (getParent operations) fuel
                              (getParent operations node) st)
                nodes ([], ws_empty T))
      (g := fun st _ => Returns (fst st)).
    + apply (forNodes_monotone
               (fun fuel node st =>
                  whileChain T_eq_dec (getParent operations) fuel
                             (getParent operations node) st)).
      intros node st. apply whileChain_monotone.
    + intros st. apply monotone_const.
    + apply (forNodes_halts
               (fun fuel node st =>
                  whileChain T_eq_dec (getParent operations) fuel
                             (getParent operations node) st)).
      * intros node st. apply whileChain_monotone.
      * intros node st. now apply whileChain_from_halts.
    + intros st. apply halts_const. discriminate.
  - exists 0.
    destruct (forNodes_optionStep_returns (getParent operations) nodes
                ([], ws_empty T)) as [st' ->].
    discriminate.
  - exists 0.
    destruct (forNodes_optionStep_returns (getPreviouSibling operations)
                nodes ([], ws_empty T)) as [st' ->].
    discriminate.
  - apply halts_bind with
      (f := fun fuel =>
              forNodes
                (fun node st =>
                   whileChain T_eq_dec (getPreviouSibling operations) fuel
                              (getPreviouSibling operations node) st)
                nodes ([], ws_empty T))
      (g := fun st _ => Returns (fst st)).
    + apply (forNodes_monotone
               (fun fuel node st =>
                  whileChain T_eq_dec (getPreviouSibling operations) fuel
                             (getPreviouSibling operations node) st)).
      intros node st. apply whileChain_monotone.
    + intros st. apply monotone_const.
    + apply (forNodes_halts
               (fun fuel node st =>
                  whileChain T_eq_dec (getPreviouSibling operations) fuel
                             (getPreviouSibling operations node) st)).
      * intros node st. apply whileChain_monotone.
      * intros node st. now apply whileChain_from_halts.
    + intros st. apply halts_const. discriminate.
  - apply halts_const. discriminate.
Qed.

(** C4. Every collector returns each node at most once, and returns exactly:
    for [Descendant] the strict ancestors of the candidates, for [Child]
    their parents, for [NextSibling] their immediately preceding siblings,
    for [SubsequentSibling] all their preceding siblings.  The parent and
    sibling collectors always return; the ancestor and preceding-sibling
    collectors return when the parent and the previous-sibling chains are
    well-founded. *)
Theorem C4_collectors_spec :
  forall (kind : CombinatorKind) (nodes : list T),
    (forall fuel out,
       collectors T_eq_dec operations fuel kind nodes = Returns out ->
       NoDup out /\
       forall x, In x out <->
                 exists c, In c nodes /\ related operations kind c x) /\
    (kind = Child \/ kind = NextSibling ->
     forall fuel, exists out,
       collectors T_eq_dec operations fuel kind nodes = Returns out) /\
    (kind <> Column ->
     well_founded (parentOf operations) ->
     well_founded (previousOf operations) ->
     exists out,
       settles (fun fuel => collectors T_eq_dec operations fuel kind nodes)
               (Returns out)).
Proof.
  intros kind nodes. split; [|split].
  - intros fuel out. apply collectors_sound.
  - intros [->| ->] fuel; cbn [collectors].
    + destruct (forNodes_optionStep_returns (getParent operations) nodes
                  ([], ws_empty T)) as [st' ->].
      now exists (fst st').
    + destruct (forNodes_optionStep_returns (getPreviouSibling operations)
                  nodes ([], ws_empty T)) as [st' ->].
      now exists (fst st').
  - intros Hkind Hparent Hprevious.
    destruct (collectors_halts kind nodes Hparent Hprevious) as [fuel Hfuel].
    destruct (collectors T_eq_dec operations fuel kind nodes) as [out|e|]
      eqn:Hrun; [|now apply collectors_not_throws in Hrun|congruence].
    exists out. apply monotone_settles with fuel;
      [apply collectors_monotone | assumption | discriminate].
Qed.

Lemma tailLoop_halts (tl : list (CombinatorKind * CompoundSelector))
    (k : nat) :
  well_founded (parentOf operations) ->
  well_founded (previousOf operations) ->
  forall candidates,
    halts (fun fuel => tailLoop T_eq_dec operations fuel tl k candidates).
Proof.
  intros Hparent Hprevious.
  induction k as [|i IH]; intros candidates; cbn [tailLoop].
  - apply halts_const. discriminate.
  - destruct (nth_error tl i) as [[combinator selector]|];
      [|apply halts_const; discriminate].
    destruct (List.length (filter _ candidates) =? 0)%nat;
      [apply halts_const; discriminate|].
    apply halts_bind with
      (f := fun fuel => collectors T_eq_dec operations fuel combinator _)
      (g := fun next fuel => tailLoop T_eq_dec operations fuel tl i next).
    + apply collectors_monotone.
    + intros next. apply tailLoop_monotone.
    + now apply collectors_halts.
    + apply IH.
Qed.

Lemma matchComplexSelector_halts (node : T) (sel : ComplexSelector) :
  well_founded (parentOf operations) ->
  well_founded (previousOf operations) ->
  halts (fun fuel => matchComplexSelector T_eq_dec operations fuel node sel).
Proof.
  intros Hparent Hprevious. unfold matchComplexSelector.
  apply halts_bind with
    (f := fun fuel => tailLoop T_eq_dec operations fuel (tail sel)
                               (List.length (tail sel)) [node])
    (g := fun c _ =>
            match c with
            | Break r => Returns r
            | Continue candidates =>
                Returns (0 <? List.length
                           (filter (fun t => matchCompoundSelector
                                               operations t (head sel))
                                   candidates))%nat
            end).
  - apply tailLoop_monotone.
  - intros c. apply monotone_const.
  - now apply tailLoop_halts.
  - intros [candidates|r]; apply halts_const; discriminate.
Qed.

Lemma matchSelectors_halts (node : T) (selectors : list ComplexSelector) :
  well_founded (parentOf operations) ->
  well_founded (previousOf operations) ->
  halts (fun fuel => matchSelectors T_eq_dec operations fuel node selectors).
Proof.
  intros Hparent Hprevious.
  induction selectors as [|m rest IH]; cbn [matchSelectors].
  - apply halts_const. discriminate.
  - apply halts_bind with
      (f := fun fuel => matchComplexSelector T_eq_dec operations fuel node m)
      (g := fun (b : bool) fuel =>
              if b then Returns true
              else matchSelectors T_eq_dec operations fuel node rest).
    + apply matchComplexSelector_monotone.
    + intros [|]; [apply monotone_const | apply matchSelectors_monotone].
    + now apply matchComplexSelector_halts.
    + intros [|]; [apply halts_const; discriminate | exact IH].
Qed.

Lemma concatOption_preorder_monotone (fuel fuel' : nat) (cs : list T) :
  fuel <= fuel' ->
  forall below,
    concatOption (fun child => preorder operations fuel child true) cs =
      Some below ->
    concatOption (fun child => preorder operations fuel' child true) cs =
      Some below.
Proof.
  intros Hle. induction cs as [|c cs IH]; intros below Hcs;
    cbn [concatOption] in *; [assumption|].
  destruct (preorder operations fuel c true) as [here|] eqn:Hc;
    [|discriminate].
  destruct (concatOption _ cs) as [there|] eqn:Hrest; [|discriminate].
  rewrite (preorder_monotone operations (fuel := fuel) (fuel' := fuel')
             c true Hle Hc).
  now rewrite (IH there eq_refl).
Qed.

(** On a well-founded child relation the preorder sequence is finite. *)
Lemma preorder_exists (node : T) :
  Acc (childOf operations) node ->
  forall includeRoot, exists fuel nodes,
    preorder operations fuel node includeRoot = Some nodes.
Proof.
  induction 1 as [node _ IH]. intros includeRoot.
  assert (Hkids : forall cs,
             (forall c, In c cs -> childOf operations c node) ->
             exists fuel below,
               concatOption (fun child => preorder operations fuel child true)
                            cs = Some below).
  { induction cs as [|c cs IHc]; intros Hcs.
    - now exists 0, [].
    - destruct (IH c (Hcs c (or_introl eq_refl)) true) as [k [here Hhere]].
      destruct IHc as [k' [there Hthere]].
      { intros x Hx. apply Hcs. now right. }
      exists (max k k'), (here ++ there). cbn [concatOption].
      rewrite (preorder_monotone operations (fuel := k) (fuel' := max k k')
                 c true (Nat.le_max_l k k') Hhere).
      now rewrite (concatOption_preorder_monotone cs (Nat.le_max_r k k')
                     Hthere). }
  destruct (Hkids (getChildren operations node)) as [fuel [below Hbelow]].
  { intros c Hc. exact Hc. }
  exists (S fuel), (if includeRoot then node :: below else below).
  cbn [preorder]. now rewrite Hbelow.
Qed.

Lemma for_of_monotone (St R : Type)
    (body : nat -> T -> St -> outcome (ctl St R)) (xs : list T) (s : St) :
  (forall x s', monotone (fun fuel => body fuel x s')) ->
  monotone (fun fuel => for_of xs (body fuel) s).
Proof.
  intros Hbody fuel fuel' Hle Hnd. apply for_of_refine; [|assumption].
  intros x s' _ Hx. now apply (Hbody x s').
Qed.

Lemma for_of_halts (St R : Type)
    (body : nat -> T -> St -> outcome (ctl St R)) (xs : list T) :
  (forall x s, monotone (fun fuel => body fuel x s)) ->
  (forall x s, halts (fun fuel => body fuel x s)) ->
  forall s, halts (fun fuel => for_of xs (body fuel) s).
Proof.
  intros Mbody Hbody. induction xs as [|x xs IH]; intros s; cbn [for_of].
  - apply halts_const. discriminate.
  - apply halts_bind with
      (f := fun fuel => body fuel x s)
      (g := fun c fuel =>
              match c with
              | Continue s' => for_of xs (body fuel) s'
              | Break r => Returns (Break r)
              end); auto.
    + intros [s'|r]; [now apply for_of_monotone | apply monotone_const].
    + intros [s'|r]; [apply IH | apply halts_const; discriminate].
Qed.

(** A loop over the generator halts when the tree is well-founded and its
    body halts. *)
Lemma traverse_halts (St R : Type)
    (body : nat -> T -> St -> outcome (ctl St R)) (root : T) (s : St) :
  Acc (childOf operations) root ->
  (forall x s', monotone (fun fuel => body fuel x s')) ->
  (forall x s', halts (fun fuel => body fuel x s')) ->
  halts (fun fuel =>
           preorderDepthFirstTraverse operations fuel root false
                                      (body fuel) s).
Proof.
  intros Hacc Mbody Hbody.
  destruct (preorder_exists Hacc false) as [k [nodes Hnodes]].
  destruct (for_of_halts body nodes Mbody Hbody s) as [k' Hk'].
  exists (max k k').
  rewrite traverse_preorder with (nodes := nodes)
    by (apply preorder_monotone with k; [lia | assumption]).
  rewrite (for_of_monotone body nodes s Mbody (fuel := k') (fuel' := max k k'))
    by (lia || assumption).
  assumption.
Qed.

Lemma querySelector_halts (root : T) (s : string) :
  well_founded (childOf operations) ->
  well_founded (parentOf operations) ->
  well_founded (previousOf operations) ->
  halts (fun fuel => querySelector T_eq_dec operations parse fuel root s).
Proof.
  intros Hchild Hparent Hprevious. unfold querySelector.
  destruct (parse s) as [selectors|msg]; [|apply halts_const; discriminate].
  destruct (@traverse_halts unit T
              (fun fuel => findBody T_eq_dec operations fuel selectors)
              root tt (Hchild root)) as [fuel Hfuel].
  - intros x u. apply findBody_monotone.
  - intros x u. unfold findBody.
    apply halts_bind with
      (f := fun fuel => matchSelectors T_eq_dec operations fuel x selectors)
      (g := fun (b : bool) (_ : nat) =>
              if b then Returns (Break x)
              else Returns (Continue tt) : outcome (ctl unit T)).
    + apply matchSelectors_monotone.
    + intros b. apply monotone_const.
    + now apply matchSelectors_halts.
    + intros [|]; apply halts_const; discriminate.
  - exists fuel.
    destruct (preorderDepthFirstTraverse operations fuel root false _ tt)
      as [[u|n]| |]; cbn [bind]; congruence.
Qed.

Lemma querySelectorAll_halts (root : T) (s : string) :
  well_founded (childOf operations) ->
  well_founded (parentOf operations) ->
  well_founded (previousOf operations) ->
  halts (fun fuel => querySelectorAll T_eq_dec operations parse fuel root s).
Proof.
  intros Hchild Hparent Hprevious. unfold querySelectorAll.
  destruct (parse s) as [selectors|msg]; [|apply halts_const; discriminate].
  destruct (@traverse_halts (list T) Empty_set
              (fun fuel => collectBody T_eq_dec operations fuel selectors)
              root [] (Hchild root)) as [fuel Hfuel].
  - intros x acc. apply collectBody_monotone.
  - intros x acc. unfold collectBody.
    apply halts_bind with
      (f := fun fuel => matchSelectors T_eq_dec operations fuel x selectors)
      (g := fun (b : bool) (_ : nat) =>
              if b then Returns (Continue (acc ++ [x]))
              else Returns (Continue acc) : outcome (ctl (list T) Empty_set)).
    + apply matchSelectors_monotone.
    + intros b. apply monotone_const.
    + now apply matchSelectors_halts.
    + intros [|]; apply halts_const; discriminate.
  - exists fuel.
    destruct (preorderDepthFirstTraverse operations fuel root false _ [])
      as [[l|[]]| |]; cbn [bind]; congruence.
Qed.

(** C9. When the adapter presents a finite acyclic tree, that is, when the
    child, parent and previous-sibling relations are well-founded, the
    preorder traversal yields a finite sequence, every call of
    [querySelector] and of [querySelectorAll] terminates, and so do the
    ancestor and sibling loops of the collectors. *)
Theorem C9_queries_terminate :
  well_founded (childOf operations) ->
  well_founded (parentOf operations) ->
  well_founded (previousOf operations) ->
  forall (root : T) (s : string),
    (exists nodes fuel0, forall fuel,
        fuel0 <= fuel ->
        preorder operations fuel root false = Some nodes) /\
    terminates
      (fun fuel => querySelector T_eq_dec operations parse fuel root s) /\
    terminates
      (fun fuel => querySelectorAll T_eq_dec operations parse fuel root s) /\
    (forall kind nodes,
        terminates
          (fun fuel => collectors T_eq_dec operations fuel kind nodes)).
Proof.
  intros Hchild Hparent Hprevious root s. repeat split.
  - destruct (preorder_exists (Hchild root) false) as [k [nodes Hnodes]].
    exists nodes, k. intros fuel Hle.
    now apply preorder_monotone with k.
  - apply halts_terminates;
      [apply querySelector_monotone | now apply querySelector_halts].
  - apply halts_terminates;
      [apply querySelectorAll_monotone | now apply querySelectorAll_halts].
  - intros kind nodes. apply halts_terminates;
      [apply collectors_monotone | now apply collectors_halts].
Qed.

End Termination.

(** ** Relations between queries *)

Section Consistency.

Variable T : Type.
Variable T_eq_dec : forall a b : T, {a = b} + {a <> b}.
Variable operations : Operations T.
Variable parse : string -> parsed.

Lemma find_loop (fuel : nat) (selectors : list ComplexSelector)
    (nodes : list T) :
  (forall n, In n nodes ->
             exists b, matchSelectors T_eq_dec operations fuel n selectors =
                       Returns b) ->
  (c <- for_of nodes (findBody T_eq_dec operations fuel selectors) tt ;;
   match c with
   | Break node => Returns (Some node)
   | Continue _ => Returns None
   end) =
  Returns (hd_error
             (filter (fun n => isTrue (matchSelectors T_eq_dec operations
                                                      fuel n selectors))
                     nodes)).
Proof.
  induction nodes as [|n nodes IH]; intros Hall; cbn [for_of filter].
  - reflexivity.
  - unfold findBody at 1.
    destruct (Hall n (or_introl eq_refl)) as [[|] Hb]; rewrite Hb;
      cbn [bind isTrue hd_error]; [reflexivity|].
    apply IH. intros x Hx. apply Hall. now right.
Qed.

Lemma find_loop_none (fuel : nat) (selectors : list ComplexSelector)
    (nodes : list T) :
  (forall n, In n nodes ->
             matchSelectors T_eq_dec operations fuel n selectors =
             Returns false) ->
  for_of nodes (findBody T_eq_dec operations fuel selectors) tt =
  Returns (Continue tt).
Proof.
  induction nodes as [|n nodes IH]; intros Hall; cbn [for_of].
  - reflexivity.
  - unfold findBody at 1. rewrite (Hall n (or_introl eq_refl)). cbn [bind].
    apply IH. intros x Hx. apply Hall. now right.
Qed.

(** C2, amended. Whenever [querySelectorAll] returns a sequence,
    [querySelector] returns the first element of that sequence, and it
    returns the absence value exactly when the sequence is empty. *)
Theorem C2_querySelector_first_of_returned :
  forall (fuel : nat) (root : T) (s : string) (out : list T),
    querySelectorAll T_eq_dec operations parse fuel root s = Returns out ->
    querySelector T_eq_dec operations parse fuel root s =
      Returns (hd_error out) /\
    (querySelector T_eq_dec operations parse fuel root s = Returns None <->
     out = []).
Proof.
  intros fuel root s out Hall.
  assert (Hfirst : querySelector T_eq_dec operations parse fuel root s =
                   Returns (hd_error out)).
  { destruct (parse s) as [selectors|msg] eqn:Hparse.
    - apply querySelectorAll_returns with (selectors := selectors) in Hall;
        [|exact Hparse].
      destruct Hall as [nodes [Hpre [Hret ->]]].
      unfold querySelector. rewrite Hparse.
      rewrite traverse_preorder with (1 := Hpre). now apply find_loop.
    - unfold querySelectorAll in Hall. rewrite Hparse in Hall. discriminate. }
  split; [assumption|]. rewrite Hfirst. split.
  - intros H. inversion H as [Hhd]. now destruct out.
  - now intros ->.
Qed.

Lemma matchSelectors_column (fuel : nat) (node : T)
    (before after : list ComplexSelector) (member : ComplexSelector) :
  Forall (fun m => matchComplexSelector T_eq_dec operations fuel node m =
                   Returns false) before ->
  reachesColumn T_eq_dec operations fuel node member ->
  matchSelectors T_eq_dec operations fuel node (before ++ member :: after) =
  Throws columnNotSupported.
Proof.
  intros Hbefore Hreach. rewrite matchSelectors_app.
  apply matchSelectors_false in Hbefore. rewrite Hbefore.
  cbn [bind matchSelectors].
  now rewrite (reachesColumn_throws Hreach).
Qed.

(** C7. Let some member of the selector list use the column combinator.
    When the matching of that member is reached on a visited node, that is,
    no earlier node has stopped the query, no earlier member has matched the
    node, and the walk from the right end of the member arrives at the
    column pair with a candidate, the query raises the unsupported-feature
    error, whatever members follow in the list, even one that matches the
    node on its own. *)
Theorem C7_column_raises :
  forall (fuel : nat) (root : T) (s : string)
         (before after : list ComplexSelector) (member : ComplexSelector)
         (visited rest : list T) (node : T),
    parse s = ParseOk (before ++ member :: after) ->
    preorder operations fuel root false = Some (visited ++ node :: rest) ->
    Forall (fun m => matchComplexSelector T_eq_dec operations fuel node m =
                     Returns false) before ->
    reachesColumn T_eq_dec operations fuel node member ->
    ((forall n, In n visited ->
                exists b, matchSelectors T_eq_dec operations fuel n
                                         (before ++ member :: after) =
                          Returns b) ->
     querySelectorAll T_eq_dec operations parse fuel root s =
       Throws columnNotSupported) /\
    ((forall n, In n visited ->
                matchSelectors T_eq_dec operations fuel n
                               (before ++ member :: after) =
                Returns false) ->
     querySelector T_eq_dec operations parse fuel root s =
       Throws columnNotSupported).
Proof.
  intros fuel root s before after member visited rest node
         Hparse Hpre Hbefore Hreach.
  pose proof (matchSelectors_column after Hbefore Hreach) as Hnode.
  split; intros Hvisited.
  - unfold querySelectorAll. rewrite Hparse.
    rewrite traverse_preorder with (1 := Hpre). rewrite for_of_app.
    pose proof (proj2 (collect_loop T_eq_dec operations fuel
                         (before ++ member :: after) visited [] _)
                      (conj Hvisited eq_refl)) as Hloop.
    rewrite Hloop. cbn [bind for_of]. unfold collectBody at 1.
    now rewrite Hnode.
  - unfold querySelector. rewrite Hparse.
    rewrite traverse_preorder with (1 := Hpre). rewrite for_of_app.
    rewrite find_loop_none by exact Hvisited. cbn [bind for_of].
    unfold findBody at 1. now rewrite Hnode.
Qed.

Lemma isTrue_app (fuel : nat) (node : T) (first rest : list ComplexSelector)
    (a b : bool) :
  matchSelectors T_eq_dec operations fuel node first = Returns a ->
  matchSelectors T_eq_dec operations fuel node rest = Returns b ->
  matchSelectors T_eq_dec operations fuel node (first ++ rest) =
  Returns (a || b).
Proof.
  intros Ha Hb. rewrite matchSelectors_app, Ha. cbn [bind].
  now destruct a.
Qed.

Lemma matchSelectors_some (fuel : nat) (node : T)
    (selectors : list ComplexSelector) :
  (forall m, In m selectors ->
             exists b, matchComplexSelector T_eq_dec operations fuel node m =
                       Returns b) ->
  (matchSelectors T_eq_dec operations fuel node selectors = Returns true <->
   exists m, In m selectors /\
             matchComplexSelector T_eq_dec operations fuel node m =
               Returns true).
Proof.
  induction selectors as [|m' rest IH]; intros Hret; cbn [matchSelectors].
  - split; [discriminate | intros [m [[] _]]].
  - destruct (Hret m' (or_introl eq_refl)) as [[|] Hb]; rewrite Hb;
      cbn [bind].
    + split; [intros _; exists m'; split; [now left | assumption]
             | reflexivity].
    + rewrite IH by (intros; apply Hret; now right). split.
      * intros [m [Hin Hm]]. exists m. split; [now right | assumption].
      * intros [m [[<-|Hin] Hm]]; [congruence | now exists m].
Qed.

(** C8, amended. A selector list matches a node exactly when one of its
    members matches the node and every member before that one has answered
    no; when no member raises or diverges this is: exactly when some member
    matches.  For a root on which the queries for [A] and for [B] both
    return, the query for the list [A, B] returns the nodes of either
    result, in preorder. *)
Theorem C8_selector_list_union :
  (forall (fuel : nat) (node : T) (selectors : list ComplexSelector),
      matchSelectors T_eq_dec operations fuel node selectors = Returns true
      <->
      exists before member after,
        selectors = before ++ member :: after /\
        Forall (fun m => matchComplexSelector T_eq_dec operations fuel
                           node m = Returns false) before /\
        matchComplexSelector T_eq_dec operations fuel node member =
          Returns true) /\
  (forall (fuel : nat) (node : T) (selectors : list ComplexSelector),
      (forall m, In m selectors ->
                 exists b, matchComplexSelector T_eq_dec operations fuel
                             node m = Returns b) ->
      (matchSelectors T_eq_dec operations fuel node selectors = Returns true
       <->
       exists m, In m selectors /\
                 matchComplexSelector T_eq_dec operations fuel node m =
                   Returns true)) /\
  (forall (fuel : nat) (root : T) (sA sB sAB : string)
          (selsA selsB : list ComplexSelector) (outA outB : list T),
      parse sA = ParseOk selsA ->
      parse sB = ParseOk selsB ->
      parse sAB = ParseOk (selsA ++ selsB) ->
      querySelectorAll T_eq_dec operations parse fuel root sA =
        Returns outA ->
      querySelectorAll T_eq_dec operations parse fuel root sB =
        Returns outB ->
      exists nodes,
        preorder operations fuel root false = Some nodes /\
        querySelectorAll T_eq_dec operations parse fuel root sAB =
        Returns (filter (fun n => ws_has T_eq_dec outA n ||
                                  ws_has T_eq_dec outB n) nodes)).
Proof.
  split; [|split].
  - intros fuel node selectors. apply matchSelectors_true.
  - intros fuel node selectors. apply matchSelectors_some.
  - intros fuel root sA sB sAB selsA selsB outA outB HA HB HAB HoutA HoutB.
    apply querySelectorAll_returns with (selectors := selsA) in HoutA;
      [|exact HA].
    apply querySelectorAll_returns with (selectors := selsB) in HoutB;
      [|exact HB].
    destruct HoutA as [nodes [Hpre [HretA ->]]].
    destruct HoutB as [nodes' [Hpre' [HretB ->]]].
    assert (nodes' = nodes) by congruence. subst nodes'.
    exists nodes. split; [assumption|].
    apply querySelectorAll_returns with (selectors := selsA ++ selsB);
      [exact HAB|].
    exists nodes. split; [assumption|]. split.
    + intros n Hn. destruct (HretA n Hn) as [a Ha].
      destruct (HretB n Hn) as [b Hb]. exists (a || b).
      now apply isTrue_app.
    + apply filter_ext_in. intros n Hn.
      destruct (HretA n Hn) as [a Ha]. destruct (HretB n Hn) as [b Hb].
      rewrite isTrue_app with (1 := Ha) (2 := Hb).
      assert (Hmem : forall (sels : list ComplexSelector) (c : bool),
                 matchSelectors T_eq_dec operations fuel n sels = Returns c ->
                 ws_has T_eq_dec
                   (filter (fun x => isTrue (matchSelectors T_eq_dec
                                               operations fuel x sels))
                           nodes) n
                 = c).
      { intros sels c Hc.
        destruct c.
        - apply ws_has_In, filter_In. split; [assumption|]. now rewrite Hc.
        - destruct (ws_has T_eq_dec _ n) eqn:Hhas; [|reflexivity].
          apply ws_has_In, filter_In in Hhas. destruct Hhas as [_ Hhas].
          rewrite Hc in Hhas. discriminate. }
      rewrite (Hmem _ _ Ha), (Hmem _ _ Hb). now destruct a, b.
Qed.

End Consistency.

(** ** Capabilities the engine does not use *)

Section Independence.

Variable T : Type.
Variable T_eq_dec : forall a b : T, {a = b} + {a <> b}.
Variable parse : string -> parsed.
Variables ops1 ops2 : Operations T.

Hypothesis same_tag : forall n, getTagName ops1 n = getTagName ops2 n.
Hypothesis same_id : forall n, getID ops1 n = getID ops2 n.
Hypothesis same_class : forall n c, hasClass ops1 n c = hasClass ops2 n c.
Hypothesis same_parent : forall n, getParent ops1 n = getParent ops2 n.
Hypothesis same_children : forall n, getChildren ops1 n = getChildren ops2 n.
Hypothesis same_attribute :
  forall n a, getAttribute ops1 n a = getAttribute ops2 n a.
Hypothesis same_previous :
  forall n, getPreviouSibling ops1 n = getPreviouSibling ops2 n.

Lemma matchSubClassSelector_same (node : T) (selector : SubclassSelector) :
  matchSubClassSelector ops1 node selector =
  matchSubClassSelector ops2 node selector.
Proof.
  destruct selector as [value|value|name m|name|name];
    cbn [matchSubClassSelector];
    now rewrite ?same_id, ?same_class, ?same_attribute.
Qed.

Lemma allSubClassesMatch_same (node : T) (xs : list SubclassSelector) :
  allSubClassesMatch ops1 node xs = allSubClassesMatch ops2 node xs.
Proof.
  induction xs as [|x xs IH]; cbn [allSubClassesMatch];
    [reflexivity | now rewrite matchSubClassSelector_same, IH].
Qed.

Lemma matchCompoundSelector_same (node : T) (c : CompoundSelector) :
  matchCompoundSelector ops1 node c = matchCompoundSelector ops2 node c.
Proof.
  unfold matchCompoundSelector. rewrite same_tag.
  destruct (subclasses c), (pseudoes c);
    now rewrite ?allSubClassesMatch_same.
Qed.

Lemma whileChain_same (next1 next2 : T -> option T) (fuel : nat) :
  (forall x, next1 x = next2 x) ->
  forall t st,
    whileChain T_eq_dec next1 fuel t st = whileChain T_eq_dec next2 fuel t st.
Proof.
  intros Hnext. induction fuel as [|fuel IH]; intros [x|] st;
    cbn [whileChain]; try reflexivity.
  now rewrite Hnext, IH.
Qed.

Lemma forNodes_same (step1 step2 : T -> collected T -> outcome (collected T))
    (nodes : list T) :
  (forall node st, step1 node st = step2 node st) ->
  forall st, forNodes step1 nodes st = forNodes step2 nodes st.
Proof.
  intros Hstep. induction nodes as [|node rest IH]; intros st;
    cbn [forNodes]; [reflexivity|].
  rewrite Hstep. destruct (step2 node st); cbn [bind]; auto.
Qed.

Lemma collectors_same (fuel : nat) (kind : CombinatorKind) (nodes : list T) :
  collectors T_eq_dec ops1 fuel kind nodes =
  collectors T_eq_dec ops2 fuel kind nodes.
Proof.
  destruct kind; cbn [collectors]; try reflexivity; f_equal;
    apply forNodes_same; intros node st.
  - rewrite same_parent. now apply whileChain_same.
  - unfold optionStep. now rewrite same_parent.
  - unfold optionStep. now rewrite same_previous.
  - rewrite same_previous. now apply whileChain_same.
Qed.

Lemma filter_compound_same (c : CompoundSelector) (nodes : list T) :
  filter (fun t => matchCompoundSelector ops1 t c) nodes =
  filter (fun t => matchCompoundSelector ops2 t c) nodes.
Proof. apply filter_ext. intros t. apply matchCompoundSelector_same. Qed.

Lemma tailLoop_same (fuel : nat)
    (tl : list (CombinatorKind * CompoundSelector)) (k : nat) :
  forall candidates,
    tailLoop T_eq_dec ops1 fuel tl k candidates =
    tailLoop T_eq_dec ops2 fuel tl k candidates.
Proof.
  induction k as [|i IH]; intros candidates; cbn [tailLoop];
    [reflexivity|].
  destruct (nth_error tl i) as [[combinator selector]|]; [|reflexivity].
  rewrite filter_compound_same, collectors_same.
  destruct (List.length _ =? 0)%nat; [reflexivity|].
  destruct (collectors T_eq_dec ops2 fuel combinator _); cbn [bind]; auto.
Qed.

Lemma matchComplexSelector_same (fuel : nat) (node : T)
    (sel : ComplexSelector) :
  matchComplexSelector T_eq_dec ops1 fuel node sel =
  matchComplexSelector T_eq_dec ops2 fuel node sel.
Proof.
  unfold matchComplexSelector. rewrite tailLoop_same.
  destruct (tailLoop T_eq_dec ops2 fuel (tail sel) _ [node]) as [[l|b]| |];
    cbn [bind]; try reflexivity.
  now rewrite filter_compound_same.
Qed.

Lemma matchSelectors_same (fuel : nat) (node : T)
    (selectors : list ComplexSelector) :
  matchSelectors T_eq_dec ops1 fuel node selectors =
  matchSelectors T_eq_dec ops2 fuel node selectors.
Proof.
  induction selectors as [|m rest IH]; cbn [matchSelectors];
    [reflexivity|].
  rewrite matchComplexSelector_same.
  destruct (matchComplexSelector T_eq_dec ops2 fuel node m) as [[|]| |];
    cbn [bind]; auto.
Qed.

Lemma for_of_same (A St R : Type) (xs : list A)
    (f g : A -> St -> outcome (ctl St R)) :
  (forall x s, f x s = g x s) ->
  forall s, for_of xs f s = for_of xs g s.
Proof.
  intros Hfg. induction xs as [|x xs IH]; intros s; cbn [for_of];
    [reflexivity|].
  rewrite Hfg. destruct (g x s) as [[s'|r]| |]; cbn [bind]; auto.
Qed.

Lemma traverse_same (St R : Type)
    (body1 body2 : T -> St -> outcome (ctl St R)) (fuel : nat) :
  (forall x s, body1 x s = body2 x s) ->
  forall node includeRoot s,
    preorderDepthFirstTraverse ops1 fuel node includeRoot body1 s =
    preorderDepthFirstTraverse ops2 fuel node includeRoot body2 s.
Proof.
  intros Hbody. induction fuel as [|fuel IH]; intros node includeRoot s;
    cbn [preorderDepthFirstTraverse]; [reflexivity|].
  rewrite same_children.
  replace (if includeRoot then body1 node s else Returns (Continue s))
    with (if includeRoot then body2 node s else Returns (Continue s))
    by (destruct includeRoot; [symmetry; apply Hbody | reflexivity]).
  destruct (if includeRoot then body2 node s else Returns (Continue s))
    as [[s1|r]| |]; cbn [bind]; try reflexivity.
  apply for_of_same. intros child s'. apply IH.
Qed.

(** C10. The engine never calls [getNextSibling] nor [getContent]: two
    adapters that agree on the seven other capabilities give the same
    answer to every [querySelector] and [querySelectorAll] call. *)
Theorem C10_next_sibling_and_content_unused :
  forall (fuel : nat) (root : T) (s : string),
    querySelector T_eq_dec ops1 parse fuel root s =
      querySelector T_eq_dec ops2 parse fuel root s /\
    querySelectorAll T_eq_dec ops1 parse fuel root s =
      querySelectorAll T_eq_dec ops2 parse fuel root s.
Proof.
  intros fuel root s. unfold querySelector, querySelectorAll.
  destruct (parse s) as [selectors|msg]; [|split; reflexivity].
  split; f_equal; apply traverse_same; intros x st.
  - unfold findBody. now rewrite matchSelectors_same.
  - unfold collectBody. now rewrite matchSelectors_same.
Qed.

End Independence.

(** ** The sample document *)

(** A query that answers with fuel [n] settles on that answer. *)
Ltac settle_at n :=
  apply monotone_settles with n;
  [ first [ apply querySelectorAll_monotone
          | apply querySelector_monotone
          | apply collectors_monotone ]
  | first [ reflexivity | assumption ]
  | discriminate ].

Lemma sample_parent_wf : well_founded (parentOf Sample.ops).
Proof.
  apply well_founded_lt_compat with (f := fun n : Sample.node => n).
  intros p n H. unfold parentOf in H. cbn in H.
  destruct n as [|[|[|[|[|[|[|[|[|n]]]]]]]]]; cbn in H;
    try discriminate; inversion H; lia.
Qed.

Lemma sample_previous_wf : well_founded (previousOf Sample.ops).
Proof.
  apply well_founded_lt_compat with (f := fun n : Sample.node => n).
  intros p n H. unfold previousOf in H. cbn in H.
  destruct n as [|[|[|[|[|[|[|[|[|n]]]]]]]]]; cbn in H;
    try discriminate; inversion H; lia.
Qed.

Lemma sample_child_wf : well_founded (childOf Sample.ops).
Proof.
  apply well_founded_lt_compat with (f := fun n : Sample.node => 9 - n).
  intros c p H. unfold childOf in H. cbn in H.
  destruct p as [|[|[|p]]]; cbn in H;
    repeat (destruct H as [H|H]; [subst c; lia|]); contradiction.
Qed.

(** The end-to-end scenario of the test file. *)
Lemma sample_bad_articles :
  settles (fun fuel =>
             querySelectorAll Nat.eq_dec Sample.ops Sample.parse fuel 0
                              ".container > .gallery > .bad")
          (Returns [5; 6]).
Proof.
  settle_at 4.
Qed.

(** Descendant against child on [div > section > article]: here
    [body > div.container > div.gallery > article]. *)
Lemma sample_descendant_not_child :
  matchComplexSelector Nat.eq_dec Sample.ops 4 3
    {| head := Sample.classed "container";
       tail := [(Descendant, Sample.typed "article")] |} = Returns true /\
  matchComplexSelector Nat.eq_dec Sample.ops 4 3
    {| head := Sample.classed "container";
       tail := [(Child, Sample.typed "article")] |} = Returns false.
Proof. split; reflexivity. Qed.

(** A cyclic parent chain: the ancestor loop has no answer, whatever the
    fuel. *)
Lemma cyclic_chain_diverges (fuel : nat) :
  forall (t : Sample.node) (st : collected Sample.node),
    t = 0 \/ t = 1 ->
    whileChain Nat.eq_dec (getParent Sample.opsCyclic) fuel (Some t) st =
    Diverges.
Proof.
  induction fuel as [|fuel IH]; intros t st Ht; cbn [whileChain];
    [reflexivity|].
  destruct Ht as [-> | ->]; cbn; apply IH; auto.
Qed.

Lemma cyclic_collector_diverges (fuel : nat) :
  collectors Nat.eq_dec Sample.opsCyclic fuel Descendant [1] = Diverges.
Proof.
  cbn [collectors forNodes]. cbn [getParent Sample.opsCyclic].
  now rewrite cyclic_chain_diverges by auto.
Qed.

Lemma cyclic_match_diverges (fuel : nat) :
  matchSelectors Nat.eq_dec Sample.opsCyclic fuel 1 [Sample.selNested] =
  Diverges.
Proof.
  cbn [matchSelectors]. unfold matchComplexSelector.
  cbn [tail Sample.selNested List.length tailLoop nth_error].
  change (filter _ [1]) with [1]. cbn [List.length Nat.eqb].
  now rewrite cyclic_collector_diverges.
Qed.

(** Without the precondition of C9 a query need not terminate: on the cyclic
    adapter the query for [div div] has no answer, whatever the fuel. *)
Lemma cyclic_query_diverges (fuel : nat) :
  querySelectorAll Nat.eq_dec Sample.opsCyclic Sample.parse fuel 0 "div div"
  = Diverges /\
  querySelector Nat.eq_dec Sample.opsCyclic Sample.parse fuel 0 "div div"
  = Diverges.
Proof.
  unfold querySelectorAll, querySelector.
  change (Sample.parse "div div") with (ParseOk [Sample.selNested]).
  destruct fuel as [|[|fuel]]; [split; reflexivity..|].
  cbn [preorderDepthFirstTraverse bind for_of getChildren Sample.opsCyclic].
  unfold collectBody, findBody.
  now rewrite cyclic_match_diverges.
Qed.

(** ** The attribute operator [~=] and white space *)

(** C6. The registry follows the table for [=], [|=], [^=], [$=] and [*=]
    (see [matchers_spec], [matchers_empty_expected], [matchers_examples]),
    but [~=] cuts the value at U+0020 only.  On the value made of [foo], a
    tab and [bar], whose white-space-separated words are [foo] and [bar],
    the matcher answers [false] for the expected value [foo]; so the query
    [[data-x~=foo]] on the sample document returns the article whose
    attribute is [foo bar] and not the one whose attribute is [foo], tab,
    [bar]. *)
Theorem C6_includes_misses_tab_separated_word :
  In "foo" (wordList (String.append "foo" (String.append Sample.tab "bar")))
  /\
  matchers Includes (String.append "foo" (String.append Sample.tab "bar"))
           "foo" = false /\
  getAttribute Sample.ops 4 "data-x" =
    Some (String.append "foo" (String.append Sample.tab "bar")) /\
  settles (fun fuel =>
             querySelectorAll Nat.eq_dec Sample.ops Sample.parse fuel 0
                              "[data-x~=foo]")
          (Returns [3]).
Proof.
  split; [now left|]. split; [reflexivity|]. split; [reflexivity|].
  settle_at 4.
Qed.

(** ** Instances of the theorems on the sample document *)

Lemma C1_witness :
  Sample.parse ".container > .gallery > .bad" = ParseOk [Sample.selBad] /\
  (querySelectorAll Nat.eq_dec Sample.ops Sample.parse 4 0
                    ".container > .gallery > .bad" = Returns [5; 6] <->
   exists nodes,
     preorder Sample.ops 4 0 false = Some nodes /\
     (forall n, In n nodes ->
                exists b, matchSelectors Nat.eq_dec Sample.ops 4 n
                                         [Sample.selBad] = Returns b) /\
     [5; 6] =
     filter (fun n => isTrue (matchSelectors Nat.eq_dec Sample.ops 4 n
                                             [Sample.selBad])) nodes).
Proof.
  split; [reflexivity|].
  apply (proj1 (@C1_querySelectorAll_preorder_matches
                  Sample.node Nat.eq_dec Sample.ops Sample.parse 4 0
                  ".container > .gallery > .bad" [Sample.selBad] eq_refl)).
Defined.

Lemma C2_witness :
  querySelectorAll Nat.eq_dec Sample.ops Sample.parse 4 0
                   ".container > .gallery > .bad" = Returns [5; 6] /\
  querySelector Nat.eq_dec Sample.ops Sample.parse 4 0
                ".container > .gallery > .bad" = Returns (hd_error [5; 6]) /\
  (querySelector Nat.eq_dec Sample.ops Sample.parse 4 0
                 ".container > .gallery > .bad" = Returns None <->
   [5; 6] = []).
Proof.
  split; [reflexivity|].
  apply (@C2_querySelector_first_of_returned
           Sample.node Nat.eq_dec Sample.ops Sample.parse 4 0
           ".container > .gallery > .bad" [5; 6]).
  reflexivity.
Defined.

Lemma C4_witness :
  collectors Nat.eq_dec Sample.ops 4 Descendant [5; 6] = Returns [2; 1; 0] /\
  (NoDup [2; 1; 0] /\
   forall x, In x [2; 1; 0] <->
             exists c, In c [5; 6] /\ related Sample.ops Descendant c x) /\
  (exists out,
      settles (fun fuel =>
                 collectors Nat.eq_dec Sample.ops fuel Descendant [5; 6])
              (Returns out)).
Proof.
  destruct (@C4_collectors_spec Sample.node Nat.eq_dec Sample.ops
              Descendant [5; 6]) as [Hsound [_ Htotal]].
  split; [reflexivity|]. split.
  - apply (Hsound 4). reflexivity.
  - apply Htotal;
      [discriminate | apply sample_parent_wf | apply sample_previous_wf].
Defined.

Lemma C5_witness :
  asciiNames Sample.ops 1 (Sample.typed "div") = true /\
  matchCompoundSelector Sample.ops 1 (Sample.typed "div") = true /\
  asciiNames Sample.ops 1 (Sample.typed "article") = true /\
  matchCompoundSelectorCalls Sample.ops 1 (Sample.typed "article") =
    [CallGetTagName 1] /\
  allSubClassesCalls Sample.ops 1
    ([Class "container"] ++ Class "bad" :: [ID "x"]) =
    [CallHasClass 1 "container"; CallHasClass 1 "bad"].
Proof.
  split; [reflexivity|]. split; [|split; [reflexivity|split]].
  - apply (proj1 (proj1 (@C5_matchCompoundSelector_spec
                           Sample.node Sample.ops 1 (Sample.typed "div"))
                        eq_refl)).
    repeat split.
  - apply (proj2 (proj1 (@C5_matchCompoundSelector_spec
                           Sample.node Sample.ops 1
                           (Sample.typed "article"))
                        eq_refl)
             {| typeName := "article" |});
      reflexivity.
  - apply (proj1 (proj2 (proj2 (proj2 (proj2 (proj2 (proj2 (proj2
             (@C5_matchCompoundSelector_spec
                Sample.node Sample.ops 1 (Sample.typed "div")))))))))
             [Class "container"] (Class "bad") [ID "x"]);
      reflexivity.
Defined.

Lemma C7_witness :
  Sample.parse "div || article, article" =
    ParseOk ([] ++ Sample.selColumn ::
                   [Sample.simple (Sample.typed "article")]) /\
  preorder Sample.ops 4 0 false = Some ([1; 2] ++ 3 :: [4; 5; 6; 7; 8]) /\
  reachesColumn Nat.eq_dec Sample.ops 4 3 Sample.selColumn /\
  matchComplexSelector Nat.eq_dec Sample.ops 4 3
    (Sample.simple (Sample.typed "article")) = Returns true /\
  querySelectorAll Nat.eq_dec Sample.ops Sample.parse 4 0
                   "div || article, article" =
    Throws columnNotSupported /\
  querySelector Nat.eq_dec Sample.ops Sample.parse 4 0
                "div || article, article" =
    Throws columnNotSupported.
Proof.
  assert (Hreach : reachesColumn Nat.eq_dec Sample.ops 4 3 Sample.selColumn).
  { exists [], (Sample.typed "article"), [], [3].
    split; [reflexivity|]. split; [reflexivity|]. discriminate. }
  destruct (@C7_column_raises
              Sample.node Nat.eq_dec Sample.ops Sample.parse 4 0
              "div || article, article" []
              [Sample.simple (Sample.typed "article")] Sample.selColumn
              [1; 2] [4; 5; 6; 7; 8] 3 eq_refl eq_refl
              (Forall_nil _) Hreach) as [Hall Hfirst].
  split; [reflexivity|]. split; [reflexivity|]. split; [exact Hreach|].
  split; [reflexivity|]. split.
  - apply Hall. intros n [<-|[<-|[]]]; exists false; reflexivity.
  - apply Hfirst. intros n [<-|[<-|[]]]; reflexivity.
Defined.

Lemma C8_witness :
  Sample.parse ".bad" = ParseOk [Sample.simple (Sample.classed "bad")] /\
  Sample.parse "div" = ParseOk [Sample.simple (Sample.typed "div")] /\
  Sample.parse ".bad, div" =
    ParseOk ([Sample.simple (Sample.classed "bad")] ++
             [Sample.simple (Sample.typed "div")]) /\
  querySelectorAll Nat.eq_dec Sample.ops Sample.parse 4 0 ".bad" =
    Returns [5; 6] /\
  querySelectorAll Nat.eq_dec Sample.ops Sample.parse 4 0 "div" =
    Returns [1; 2] /\
  exists nodes,
    preorder Sample.ops 4 0 false = Some nodes /\
    querySelectorAll Nat.eq_dec Sample.ops Sample.parse 4 0 ".bad, div" =
    Returns (filter (fun n => ws_has Nat.eq_dec [5; 6] n ||
                              ws_has Nat.eq_dec [1; 2] n) nodes).
Proof.
  repeat (split; [reflexivity|]).
  apply (proj2 (proj2 (@C8_selector_list_union
                         Sample.node Nat.eq_dec Sample.ops Sample.parse))
           4 0 ".bad" "div" ".bad, div"
           [Sample.simple (Sample.classed "bad")]
           [Sample.simple (Sample.typed "div")] [5; 6] [1; 2]);
    reflexivity.
Defined.

Lemma C9_witness :
  well_founded (childOf Sample.ops) /\
  well_founded (parentOf Sample.ops) /\
  well_founded (previousOf Sample.ops) /\
  terminates (fun fuel =>
                querySelector Nat.eq_dec Sample.ops Sample.parse fuel 0
                              ".container > .gallery > .bad") /\
  terminates (fun fuel =>
                querySelectorAll Nat.eq_dec Sample.ops Sample.parse fuel 0
                                 ".container > .gallery > .bad").
Proof.
  destruct (@C9_queries_terminate
              Sample.node Nat.eq_dec Sample.ops Sample.parse
              sample_child_wf sample_parent_wf sample_previous_wf
              0 ".container > .gallery > .bad") as [_ [Hfirst [Hall _]]].
  split; [apply sample_child_wf|]. split; [apply sample_parent_wf|].
  split; [apply sample_previous_wf|]. split; assumption.
Defined.

Lemma C10_witness :
  querySelector Nat.eq_dec Sample.ops Sample.parse 4 0
                ".container > .gallery > .bad" =
    querySelector Nat.eq_dec Sample.opsOther Sample.parse 4 0
                  ".container > .gallery > .bad" /\
  querySelectorAll Nat.eq_dec Sample.ops Sample.parse 4 0
                   ".container > .gallery > .bad" =
    querySelectorAll Nat.eq_dec Sample.opsOther Sample.parse 4 0
                     ".container > .gallery > .bad".
Proof.
  apply (@C10_next_sibling_and_content_unused
           Sample.node Nat.eq_dec Sample.parse Sample.ops Sample.opsOther);
    intros; reflexivity.
Defined.

(** ** Where the claims about two queries fail *)

(** C2 as stated: on the sample document and the selector
    [div, div || article], [querySelector] returns the first [div], while
    [querySelectorAll] raises at the first [article] and returns no
    sequence, whatever the fuel. *)
Lemma C2_counterexample :
  settles (fun fuel =>
             querySelector Nat.eq_dec Sample.ops Sample.parse fuel 0
                           "div, div || article")
          (Returns (Some 1)) /\
  settles (fun fuel =>
             querySelectorAll Nat.eq_dec Sample.ops Sample.parse fuel 0
                              "div, div || article")
          (Throws columnNotSupported) /\
  ~ (exists fuel out,
        querySelectorAll Nat.eq_dec Sample.ops Sample.parse fuel 0
                         "div, div || article" = Returns out).
Proof.
  assert (Hall : settles
                   (fun fuel =>
                      querySelectorAll Nat.eq_dec Sample.ops Sample.parse
                                       fuel 0 "div, div || article")
                   (Throws columnNotSupported)).
  { settle_at 4. }
  split; [|split; [exact Hall|]].
  - settle_at 4.
  - intros [fuel [out Hout]].
    assert (Hret : settles
                     (fun fuel =>
                        querySelectorAll Nat.eq_dec Sample.ops Sample.parse
                                         fuel 0 "div, div || article")
                     (Returns out)).
    { settle_at fuel. }
    pose proof (settles_unique Hall Hret). discriminate.
Qed.

(** C8 as stated: on the sample document the first [article] matches the
    member [article] of the list [div || article, article], yet the list
    raises on it; and the query for [article, div || article] returns the
    six articles although the query for its second half, [div || article],
    raises and returns no sequence. *)
Lemma C8_counterexample :
  (In (Sample.simple (Sample.typed "article"))
      [Sample.selColumn; Sample.simple (Sample.typed "article")] /\
   matchComplexSelector Nat.eq_dec Sample.ops 4 3
     (Sample.simple (Sample.typed "article")) = Returns true /\
   matchSelectors Nat.eq_dec Sample.ops 4 3
     [Sample.selColumn; Sample.simple (Sample.typed "article")] =
   Throws columnNotSupported) /\
  settles (fun fuel =>
             querySelectorAll Nat.eq_dec Sample.ops Sample.parse fuel 0
                              "article, div || article")
          (Returns [3; 4; 5; 6; 7; 8]) /\
  settles (fun fuel =>
             querySelectorAll Nat.eq_dec Sample.ops Sample.parse fuel 0
                              "article")
          (Returns [3; 4; 5; 6; 7; 8]) /\
  settles (fun fuel =>
             querySelectorAll Nat.eq_dec Sample.ops Sample.parse fuel 0
                              "div || article")
          (Throws columnNotSupported) /\
  ~ (exists fuel out,
        querySelectorAll Nat.eq_dec Sample.ops Sample.parse fuel 0
                         "div || article" = Returns out).
Proof.
  assert (Hcol : settles
                   (fun fuel =>
                      querySelectorAll Nat.eq_dec Sample.ops Sample.parse
                                       fuel 0 "div || article")
                   (Throws columnNotSupported)).
  { settle_at 4. }
  split; [|split; [|split; [|split; [exact Hcol|]]]].
  - split; [right; now left|]. split; reflexivity.
  - settle_at 4.
  - settle_at 4.
  - intros [fuel [out Hout]].
    assert (Hret : settles
                     (fun fuel =>
                        querySelectorAll Nat.eq_dec Sample.ops Sample.parse
                                         fuel 0 "div || article")
                     (Returns out)).
    { settle_at fuel. }
    pose proof (settles_unique Hcol Hret). discriminate.
Qed.

(** * Further properties of the engine *)

(** ** What a complex selector represents *)

Section Semantics.

Variable T : Type.
Variable T_eq_dec : forall a b : T, {a = b} + {a <> b}.
Variable operations : Operations T.
Variable parse : string -> parsed.

Lemma rightToLeft_continue (fuel : nat)
    (pairs : list (CombinatorKind * CompoundSelector)) :
  forall current final,
    rightToLeft T_eq_dec operations fuel pairs current =
      Returns (Continue final) ->
    forall y, In y final <->
              exists n, In n current /\ walks operations pairs n y.
Proof.
  induction pairs as [|[combinator compound] rest IH];
    intros current final Hrun y; cbn [rightToLeft walks] in *.
  - inversion Hrun; subst. split.
    + intros Hy. now exists y.
    + now intros [n [Hn ->]].
  - destruct (filter (fun t => matchCompoundSelector operations t compound)
                     current) as [|c cs] eqn:Hf; [discriminate|].
    destruct (collectors T_eq_dec operations fuel combinator (c :: cs))
      as [next| |] eqn:Hc; cbn [bind] in Hrun; try discriminate.
    apply collectors_sound in Hc. destruct Hc as [_ Hnext].
    rewrite (IH _ _ Hrun). split.
    + intros [x [Hx Hwalk]]. apply Hnext in Hx.
      destruct Hx as [n [Hn Hrel]]. rewrite <- Hf in Hn.
      apply filter_In in Hn. destruct Hn as [Hn Hm].
      exists n. split; [assumption|]. split; [assumption|]. now exists x.
    + intros [n [Hn [Hm [x [Hrel Hwalk]]]]]. exists x.
      split; [|assumption]. apply Hnext. exists n. split; [|assumption].
      rewrite <- Hf. apply filter_In. now split.
Qed.

Lemma rightToLeft_break (fuel : nat)
    (pairs : list (CombinatorKind * CompoundSelector)) :
  forall current b,
    rightToLeft T_eq_dec operations fuel pairs current = Returns (Break b) ->
    b = false /\
    forall n y, In n current -> ~ walks operations pairs n y.
Proof.
  induction pairs as [|[combinator compound] rest IH];
    intros current b Hrun; cbn [rightToLeft walks] in *; [discriminate|].
  destruct (filter (fun t => matchCompoundSelector operations t compound)
                   current) as [|c cs] eqn:Hf.
  - inversion Hrun; subst. split; [reflexivity|].
    intros n y Hn [Hm _].
    assert (Hin : In n (filter (fun t => matchCompoundSelector operations t
                                           compound) current))
      by (apply filter_In; now split).
    rewrite Hf in Hin. contradiction.
  - destruct (collectors T_eq_dec operations fuel combinator (c :: cs))
      as [next| |] eqn:Hc; cbn [bind] in Hrun; try discriminate.
    apply collectors_sound in Hc. destruct Hc as [_ Hnext].
    destruct (IH _ _ Hrun) as [-> Hnone]. split; [reflexivity|].
    intros n y Hn [Hm [x [Hrel Hwalk]]]. apply (Hnone x y); [|assumption].
    apply Hnext. exists n. split; [|assumption].
    rewrite <- Hf. apply filter_In. now split.
Qed.

Lemma complex_represents (fuel : nat) (node : T) (sel : ComplexSelector)
    (b : bool) :
  matchComplexSelector T_eq_dec operations fuel node sel = Returns b ->
  (b = true <-> represents operations sel node).
Proof.
  unfold matchComplexSelector, represents.
  rewrite tailLoop_rightToLeft by lia. rewrite firstn_all.
  destruct (rightToLeft T_eq_dec operations fuel (rev (tail sel)) [node])
    as [[final|r]| |] eqn:Hwalk; cbn [bind]; intros Hrun; try discriminate;
    inversion Hrun; subst; clear Hrun.
  - pose proof (rightToLeft_continue _ _ _ Hwalk) as Hfinal.
    rewrite Nat.ltb_lt. split.
    + destruct (filter (fun t => matchCompoundSelector operations t
                                   (head sel)) final) as [|y ys] eqn:Hf;
        cbn [List.length]; [lia|]. intros _.
      assert (Hy : In y (filter (fun t => matchCompoundSelector operations t
                                            (head sel)) final))
        by (rewrite Hf; now left).
      apply filter_In in Hy. destruct Hy as [Hy Hm].
      apply Hfinal in Hy. destruct Hy as [n [[<-|[]] Hw]]. now exists y.
    + intros [y [Hw Hm]].
      assert (Hy : In y (filter (fun t => matchCompoundSelector operations t
                                            (head sel)) final)).
      { apply filter_In. split; [|assumption]. apply Hfinal.
        exists node. split; [now left | assumption]. }
      destruct (filter _ final); [contradiction | cbn [List.length]; lia].
  - destruct (rightToLeft_break _ _ _ Hwalk) as [-> Hnone].
    split; [discriminate|]. intros [y [Hw _]].
    exfalso. apply (Hnone node y); [now left | assumption].
Qed.

(** X1. When [matchComplexSelector] returns, its answer is [true] exactly
    when a chain of nodes starts at the node, goes through the tail pairs
    from the last to the first, each node satisfying the compound selector
    of its pair and being related by the combinator to the next one, and
    ends on a node that satisfies the head. *)
Theorem X1_matchComplexSelector_represents :
  forall (fuel : nat) (node : T) (sel : ComplexSelector),
    (matchComplexSelector T_eq_dec operations fuel node sel = Returns true ->
     represents operations sel node) /\
    (matchComplexSelector T_eq_dec operations fuel node sel = Returns false ->
     ~ represents operations sel node) /\
    (represents operations sel node ->
     forall b,
       matchComplexSelector T_eq_dec operations fuel node sel = Returns b ->
       b = true).
Proof.
  intros fuel node sel. split; [|split].
  - intros Hrun. now apply (complex_represents _ _ _ Hrun).
  - intros Hrun Hrep. apply (complex_represents _ _ _ Hrun) in Hrep.
    discriminate.
  - intros Hrep b Hrun. now apply (complex_represents _ _ _ Hrun).
Qed.

Lemma related_loosen (kind : CombinatorKind) (c x : T) :
  related operations kind c x -> related operations (loosen kind) c x.
Proof.
  destruct kind; cbn [related loosen]; auto; intros H; now apply chain_one.
Qed.

Lemma walks_loosen (pairs : list (CombinatorKind * CompoundSelector)) :
  forall n y,
    walks operations pairs n y ->
    walks operations
          (map (fun pair => (loosen (fst pair), snd pair)) pairs) n y.
Proof.
  induction pairs as [|[combinator compound] rest IH]; intros n y;
    cbn [walks map fst snd]; [auto|].
  intros [Hm [x [Hrel Hwalk]]]. split; [assumption|]. exists x.
  split; [now apply related_loosen | now apply IH].
Qed.

Lemma represents_loosen (sel : ComplexSelector) (n : T) :
  represents operations sel n ->
  represents operations (loosenSelector sel) n.
Proof.
  intros [y [Hwalk Hm]]. exists y. split; [|exact Hm].
  cbn [tail loosenSelector]. rewrite <- map_rev. now apply walks_loosen.
Qed.

Lemma matchSelectors_loosen (fuel fuel' : nat) (node : T)
    (selectors : list ComplexSelector) (b : bool) :
  matchSelectors T_eq_dec operations fuel node selectors = Returns true ->
  matchSelectors T_eq_dec operations fuel' node
                 (map loosenSelector selectors) = Returns b ->
  b = true.
Proof.
  intros Htrue Hloose. destruct b; [reflexivity | exfalso].
  apply matchSelectors_true in Htrue.
  destruct Htrue as [before [member [after [-> [_ Hm]]]]].
  apply matchSelectors_false in Hloose.
  rewrite map_app in Hloose. apply Forall_app in Hloose.
  destruct Hloose as [_ Hloose]. cbn [map] in Hloose.
  inversion Hloose as [|? ? Hfalse _]; subst.
  apply complex_represents in Hm. apply complex_represents in Hfalse.
  assert (Hrep : represents operations member node) by now apply Hm.
  apply represents_loosen, Hfalse in Hrep. discriminate.
Qed.

(** X2. Turning child combinators into descendant combinators and
    next-sibling combinators into subsequent-sibling combinators only adds
    matches: a node matched by a complex selector is matched by the
    loosened selector whenever that one returns, and every node that
    [querySelectorAll] returns for a selector list is among the nodes it
    returns for the loosened list. *)
Theorem X2_loosened_selector_matches_more :
  (forall (fuel fuel' : nat) (node : T) (sel : ComplexSelector) (b : bool),
      matchComplexSelector T_eq_dec operations fuel node sel =
        Returns true ->
      matchComplexSelector T_eq_dec operations fuel' node
                           (loosenSelector sel) = Returns b ->
      b = true) /\
  (forall (fuel : nat) (root : T) (s s' : string)
          (selectors : list ComplexSelector) (out out' : list T),
      parse s = ParseOk selectors ->
      parse s' = ParseOk (map loosenSelector selectors) ->
      querySelectorAll T_eq_dec operations parse fuel root s = Returns out ->
      querySelectorAll T_eq_dec operations parse fuel root s' =
        Returns out' ->
      incl out out').
Proof.
  split.
  - intros fuel fuel' node sel b Htrue Hloose.
    apply complex_represents in Htrue. apply complex_represents in Hloose.
    apply Hloose, represents_loosen. now apply Htrue.
  - intros fuel root s s' selectors out out' Hs Hs' Hout Hout'.
    apply querySelectorAll_returns with (selectors := selectors) in Hout;
      [|exact Hs].
    apply querySelectorAll_returns
      with (selectors := map loosenSelector selectors) in Hout';
      [|exact Hs'].
    destruct Hout as [nodes [Hpre [_ ->]]].
    destruct Hout' as [nodes' [Hpre' [Hret ->]]].
    assert (nodes' = nodes) by congruence. subst nodes'.
    intros n Hn. apply filter_In in Hn. destruct Hn as [Hn Htrue].
    apply filter_In. split; [assumption|].
    destruct (matchSelectors T_eq_dec operations fuel n selectors)
      as [[|]| |] eqn:Hm; try discriminate.
    destruct (Hret n Hn) as [b Hb]. rewrite Hb.
    now rewrite (@matchSelectors_loosen fuel fuel n selectors b Hm Hb).
Qed.

Lemma subject_snoc (h : CompoundSelector)
    (before : list (CombinatorKind * CompoundSelector))
    (kind : CombinatorKind) (compound : CompoundSelector) :
  subject {| head := h; tail := before ++ [(kind, compound)] |} = compound.
Proof.
  unfold subject. cbn [tail head]. rewrite map_app. cbn [map snd].
  apply last_last.
Qed.

Lemma complex_subject_fails (fuel : nat) (node : T) (sel : ComplexSelector) :
  matchCompoundSelector operations node (subject sel) = false ->
  matchComplexSelector T_eq_dec operations fuel node sel = Returns false.
Proof.
  destruct sel as [h tl]. destruct tl as [|pair tl _] using rev_ind.
  - unfold subject, matchComplexSelector.
    cbn [tail head map last List.length tailLoop bind filter].
    now intros ->.
  - destruct pair as [kind compound]. rewrite subject_snoc. intros Hfail.
    unfold matchComplexSelector. cbn [tail head].
    rewrite length_app. cbn [List.length].
    replace (List.length tl + 1) with (S (List.length tl)) by lia.
    cbn [tailLoop]. rewrite nth_error_app2 by lia.
    rewrite Nat.sub_diag. cbn [nth_error filter]. now rewrite Hfail.
Qed.

(** X3. The node under test is checked first against the rightmost
    compound selector.  When it fails there, [matchComplexSelector] answers
    [false] with any fuel, without calling a collector: it does not raise
    even if the selector holds a column combinator, and it does not loop on
    a cyclic adapter.  So a query over a finite tree none of whose nodes
    satisfies the rightmost compound selector of any member returns the
    empty result. *)
Theorem X3_rightmost_compound_is_checked_first :
  (forall (fuel : nat) (node : T) (sel : ComplexSelector),
      matchCompoundSelector operations node (subject sel) = false ->
      matchComplexSelector T_eq_dec operations fuel node sel =
        Returns false) /\
  (forall (fuel : nat) (root : T) (s : string)
          (selectors : list ComplexSelector) (nodes : list T),
      parse s = ParseOk selectors ->
      preorder operations fuel root false = Some nodes ->
      (forall n m, In n nodes -> In m selectors ->
                   matchCompoundSelector operations n (subject m) = false) ->
      querySelectorAll T_eq_dec operations parse fuel root s = Returns [] /\
      querySelector T_eq_dec operations parse fuel root s = Returns None).
Proof.
  split; [intros; now apply complex_subject_fails|].
  intros fuel root s selectors nodes Hparse Hpre Hfail.
  assert (Hnone : forall n, In n nodes ->
                    matchSelectors T_eq_dec operations fuel n selectors =
                    Returns false).
  { intros n Hn. apply matchSelectors_false. apply Forall_forall.
    intros m Hm. apply complex_subject_fails. now apply Hfail. }
  split.
  - apply querySelectorAll_returns with (selectors := selectors);
      [exact Hparse|].
    exists nodes. split; [assumption|]. split; [intros n Hn; eauto|].
    symmetry. clear Hpre Hfail.
    induction nodes as [|n nodes IH]; [reflexivity|]. cbn [filter].
    rewrite (Hnone n (or_introl eq_refl)). cbn [isTrue].
    apply IH. intros x Hx. apply Hnone. now right.
  - unfold querySelector. rewrite Hparse.
    rewrite traverse_preorder with (1 := Hpre).
    now rewrite find_loop_none by exact Hnone.
Qed.

Lemma collectors_singleStep (fuel : nat) (kind : CombinatorKind)
    (nodes : list T) :
  singleStep kind = true ->
  exists out,
    collectors T_eq_dec operations fuel kind nodes = Returns out /\
    collectors T_eq_dec operations 0 kind nodes = Returns out.
Proof.
  destruct kind; cbn [singleStep]; try discriminate; intros _;
    cbn [collectors].
  - destruct (forNodes_optionStep_returns T_eq_dec (getParent operations)
                nodes ([], ws_empty T)) as [st ->].
    now exists (fst st).
  - destruct (forNodes_optionStep_returns T_eq_dec
                (getPreviouSibling operations) nodes ([], ws_empty T))
      as [st ->].
    now exists (fst st).
Qed.

Lemma tailLoop_singleSteps (fuel : nat)
    (tl : list (CombinatorKind * CompoundSelector)) (k : nat) :
  forallb (fun pair => singleStep (fst pair)) tl = true ->
  k <= List.length tl ->
  forall candidates, exists c,
    tailLoop T_eq_dec operations fuel tl k candidates = Returns c /\
    tailLoop T_eq_dec operations 0 tl k candidates = Returns c.
Proof.
  intros Hall. induction k as [|i IH]; intros Hk candidates;
    cbn [tailLoop].
  - now exists (Continue candidates).
  - destruct (nth_error tl i) as [[combinator selector]|] eqn:Hi.
    + destruct (List.length (filter _ candidates) =? 0)%nat;
        [now exists (Break false)|].
      assert (Hstep : singleStep combinator = true).
      { apply nth_error_In in Hi.
        now apply (proj1 (forallb_forall _ _) Hall) in Hi. }
      destruct (collectors_singleStep fuel combinator
                  (filter (fun t => matchCompoundSelector operations t
                                      selector) candidates) Hstep)
        as [next [-> ->]].
      cbn [bind]. apply IH. lia.
    + apply nth_error_None in Hi. lia.
Qed.

Lemma matchSelectors_singleSteps (fuel : nat) (node : T)
    (selectors : list ComplexSelector) :
  (forall m, In m selectors -> singleSteps m = true) ->
  exists b,
    matchSelectors T_eq_dec operations fuel node selectors = Returns b /\
    matchSelectors T_eq_dec operations 0 node selectors = Returns b.
Proof.
  induction selectors as [|m rest IH]; intros Hall; cbn [matchSelectors].
  - now exists false.
  - unfold matchComplexSelector.
    destruct (tailLoop_singleSteps fuel (tail m) (Hall m (or_introl eq_refl))
                (le_n _) [node]) as [c [-> ->]].
    cbn [bind].
    destruct c as [candidates|r]; cbn [bind].
    + destruct (0 <? _)%nat; [now exists true|].
      apply IH. intros x Hx. apply Hall. now right.
    + destruct r; [now exists true|].
      apply IH. intros x Hx. apply Hall. now right.
Qed.

(** X4. A selector list whose only combinators are the child and the
    next-sibling combinator is matched without any unbounded loop and
    without exception: for every node the answer of [matchSelectors] is the
    same boolean with any fuel, on any adapter, cyclic parent or sibling
    chains included; and over a finite tree both queries return. *)
Theorem X4_single_step_selectors_always_answer :
  forall (selectors : list ComplexSelector),
    (forall m, In m selectors -> singleSteps m = true) ->
    (forall node, exists b, forall fuel,
        matchSelectors T_eq_dec operations fuel node selectors = Returns b) /\
    (forall fuel root s nodes,
        parse s = ParseOk selectors ->
        preorder operations fuel root false = Some nodes ->
        exists out,
          querySelectorAll T_eq_dec operations parse fuel root s =
            Returns out /\
          querySelector T_eq_dec operations parse fuel root s =
            Returns (hd_error out)).
Proof.
  intros selectors Hall. split.
  - intros node.
    destruct (matchSelectors_singleSteps 0 node selectors Hall) as [b [Hb _]].
    exists b. intros fuel.
    destruct (matchSelectors_singleSteps fuel node selectors Hall)
      as [b' [Hfuel Hzero]].
    congruence.
  - intros fuel root s nodes Hparse Hpre.
    assert (Hret : forall n, In n nodes ->
                     exists b, matchSelectors T_eq_dec operations fuel n
                                              selectors = Returns b).
    { intros n _.
      destruct (matchSelectors_singleSteps fuel n selectors Hall)
        as [b [Hb _]]. now exists b. }
    exists (filter (fun n => isTrue (matchSelectors T_eq_dec operations fuel n
                                                    selectors)) nodes).
    split.
    + apply querySelectorAll_returns with (selectors := selectors);
        [exact Hparse|]. exists nodes. auto.
    + unfold querySelector. rewrite Hparse.
      rewrite traverse_preorder with (1 := Hpre). now apply find_loop.
Qed.

End Semantics.

(** ** Which nodes a query returns *)

Section Results.

Variable T : Type.
Variable T_eq_dec : forall a b : T, {a = b} + {a <> b}.
Variable operations : Operations T.
Variable parse : string -> parsed.

Lemma descends_up (p c n : T) :
  In c (getChildren operations p) ->
  descends operations c n -> descends operations p n.
Proof.
  intros Hc Hn. induction Hn as [c x Hx|c q x _ IH Hx].
  - apply descends_down with c; [now apply descends_child | assumption].
  - apply descends_down with q; [now apply IH | assumption].
Qed.

Lemma descends_trans (p q n : T) :
  descends operations p q -> descends operations q n ->
  descends operations p n.
Proof.
  intros Hpq Hqn. induction Hqn as [q x Hx|q r x _ IH Hx].
  - now apply descends_down with q.
  - apply descends_down with r; [now apply IH | assumption].
Qed.

Lemma descends_first_step (p n : T) :
  descends operations p n ->
  exists c, In c (getChildren operations p) /\
            (c = n \/ descends operations c n).
Proof.
  induction 1 as [p c Hc|p q c _ IH Hc].
  - exists c. auto.
  - destruct IH as [d [Hd [Heq|Hq]]]; exists d; split; auto; right.
    + subst q. now apply descends_child.
    + now apply descends_down with q.
Qed.

Lemma descends_irreflexive (n : T) :
  well_founded (childOf operations) -> ~ descends operations n n.
Proof.
  intros Hwf. induction (Hwf n) as [n _ IH]. intros Hn.
  destruct (descends_first_step Hn) as [c [Hc Hcn]].
  apply (IH c Hc).
  destruct Hcn as [->|Hcn]; [assumption|].
  now apply descends_down with n.
Qed.

Lemma concatOption_In (f : T -> option (list T)) (cs : list T) :
  forall below,
    concatOption f cs = Some below ->
    forall x, In x below <->
              exists c l, In c cs /\ f c = Some l /\ In x l.
Proof.
  induction cs as [|c cs IH]; intros below Hb x; cbn [concatOption] in Hb.
  - inversion Hb; subst. split; [intros [] | intros [c [l [[] _]]]].
  - destruct (f c) as [here|] eqn:Hc; [|discriminate].
    destruct (concatOption f cs) as [there|]; [|discriminate].
    inversion Hb; subst. rewrite in_app_iff, (IH there eq_refl). split.
    + intros [Hx|[d [l [Hd [Hl Hx]]]]].
      * exists c, here. repeat split; auto. now left.
      * exists d, l. repeat split; auto. now right.
    + intros [d [l [[<-|Hd] [Hl Hx]]]].
      * left. congruence.
      * right. now exists d, l.
Qed.

(** The preorder sequence holds the strict descendants, and nothing else
    but the starting node when it is asked for. *)
Lemma preorder_In (fuel : nat) :
  forall node includeRoot nodes,
    preorder operations fuel node includeRoot = Some nodes ->
    forall n, In n nodes <->
              (includeRoot = true /\ n = node) \/ descends operations node n.
Proof.
  induction fuel as [|fuel IH]; intros node includeRoot nodes Hpre n;
    cbn [preorder] in Hpre; [discriminate|].
  destruct (concatOption (fun child => preorder operations fuel child true)
                         (getChildren operations node)) as [below|] eqn:Hb;
    [|discriminate].
  pose proof (concatOption_In _ _ Hb) as Hbelow.
  assert (Hdesc : forall x, In x below <-> descends operations node x).
  { clear Hpre. intros x. rewrite Hbelow. split.
    - intros [c [l [Hc [Hl Hx]]]]. apply (IH _ _ _ Hl) in Hx.
      destruct Hx as [[_ ->]|Hx];
        [now apply descends_child | now apply descends_up with c].
    - intros Hx. induction Hx as [p c Hc|p q c _ IHq Hc].
      + destruct (Hbelow c) as [_ _].
        assert (Hsub : exists l, preorder operations fuel c true = Some l).
        { clear - Hb Hc. revert below Hb.
          induction (getChildren operations p) as [|d ds IHd];
            intros below Hb; [contradiction|]. cbn [concatOption] in Hb.
          destruct (preorder operations fuel d true) as [here|] eqn:Hd;
            [|discriminate].
          destruct (concatOption _ ds) as [there|]; [|discriminate].
          destruct Hc as [<-|Hc];
            [now exists here | now apply (IHd Hc there)]. }
        destruct Hsub as [l Hl]. exists c, l. repeat split; auto.
        apply (IH _ _ _ Hl). left. now split.
      + destruct (IHq Hb Hbelow) as [d [l [Hd [Hl Hq]]]].
        exists d, l. repeat split; auto.
        apply (IH _ _ _ Hl). right.
        apply (IH _ _ _ Hl) in Hq. destruct Hq as [[_ ->]|Hq].
        * now apply descends_child.
        * now apply descends_down with q. }
  inversion Hpre; subst. destruct includeRoot; cbn [In].
  - rewrite Hdesc. split.
    + intros [<-|H]; [left; now split | now right].
    + intros [[_ ->]|H]; [now left | now right].
  - rewrite Hdesc. split; [now right|].
    intros [[H _]|H]; [discriminate | assumption].
Qed.

Lemma isTrue_true (o : outcome bool) : isTrue o = true <-> o = Returns true.
Proof.
  destruct o as [[|]| |]; cbn [isTrue]; split; congruence.
Qed.

Lemma querySelectorAll_In (fuel : nat) (root : T) (s : string)
    (selectors : list ComplexSelector) (out : list T) :
  parse s = ParseOk selectors ->
  querySelectorAll T_eq_dec operations parse fuel root s = Returns out ->
  forall n, In n out <->
            descends operations root n /\
            matchSelectors T_eq_dec operations fuel n selectors =
              Returns true.
Proof.
  intros Hparse Hout n.
  apply querySelectorAll_returns with (selectors := selectors) in Hout;
    [|exact Hparse].
  destruct Hout as [nodes [Hpre [_ ->]]].
  rewrite filter_In, isTrue_true, (preorder_In _ _ _ Hpre). split.
  - intros [[[H _]|H] Hm]; [discriminate | now split].
  - intros [H Hm]. split; [now right | assumption].
Qed.

(** X5. The result of [querySelectorAll] holds exactly the strict
    descendants of the root that the selector list matches; on a
    well-founded child relation the root itself is never returned. *)
Theorem X5_querySelectorAll_returns_matching_descendants :
  forall (fuel : nat) (root : T) (s : string)
         (selectors : list ComplexSelector) (out : list T),
    parse s = ParseOk selectors ->
    querySelectorAll T_eq_dec operations parse fuel root s = Returns out ->
    (forall n, In n out <->
               descends operations root n /\
               matchSelectors T_eq_dec operations fuel n selectors =
                 Returns true) /\
    (well_founded (childOf operations) -> ~ In root out).
Proof.
  intros fuel root s selectors out Hparse Hout.
  pose proof (querySelectorAll_In _ _ Hparse Hout) as Hin.
  split; [exact Hin|].
  intros Hwf Hroot. apply Hin in Hroot. destruct Hroot as [Hroot _].
  now apply descends_irreflexive in Hroot.
Qed.

(** X6. Whether a node is selected does not depend on the root of the
    query: the result of a query from a node below the root holds exactly
    the nodes of the result from the root that lie below that node. *)
Theorem X6_query_of_a_subtree :
  forall (fuel : nat) (root inner : T) (s : string) (out out' : list T),
    descends operations root inner ->
    querySelectorAll T_eq_dec operations parse fuel root s = Returns out ->
    querySelectorAll T_eq_dec operations parse fuel inner s = Returns out' ->
    forall n, In n out' <-> In n out /\ descends operations inner n.
Proof.
  intros fuel root inner s out out' Hinner Hout Hout' n.
  destruct (parse s) as [selectors|msg] eqn:Hparse.
  - rewrite (querySelectorAll_In _ _ Hparse Hout n).
    rewrite (querySelectorAll_In _ _ Hparse Hout' n). split.
    + intros [Hn Hm]. repeat split; auto.
      now apply descends_trans with inner.
    + intros [[_ Hm] Hn]. now split.
  - unfold querySelectorAll in Hout. rewrite Hparse in Hout. discriminate.
Qed.

Lemma for_of_break (A St R : Type) (xs : list A)
    (f : A -> St -> outcome (ctl St R)) :
  forall s r,
    for_of xs f s = Returns (Break r) ->
    exists x s', In x xs /\ f x s' = Returns (Break r).
Proof.
  induction xs as [|x xs IH]; intros s r Hrun; cbn [for_of] in Hrun;
    [discriminate|].
  destruct (f x s) as [[s1|r1]| |] eqn:Hx; cbn [bind] in Hrun;
    try discriminate.
  - destruct (IH _ _ Hrun) as [y [s' [Hy Hf]]]. exists y, s'.
    split; [now right | assumption].
  - inversion Hrun; subst. exists x, s. split; [now left | assumption].
Qed.

(** A [return] out of the loop over the generator comes from the body run
    on a node of the tree. *)
Lemma traverse_break (St R : Type) (body : T -> St -> outcome (ctl St R))
    (fuel : nat) :
  forall node includeRoot s r,
    preorderDepthFirstTraverse operations fuel node includeRoot body s =
      Returns (Break r) ->
    exists x s',
      ((includeRoot = true /\ x = node) \/ descends operations node x) /\
      body x s' = Returns (Break r).
Proof.
  induction fuel as [|fuel IH]; intros node includeRoot s r Hrun;
    cbn [preorderDepthFirstTraverse] in Hrun; [discriminate|].
  destruct includeRoot.
  - destruct (body node s) as [[s1|r1]| |] eqn:Hb; cbn [bind] in Hrun;
      try discriminate.
    + apply for_of_break in Hrun. destruct Hrun as [c [s' [Hc Hrun]]].
      destruct (IH _ _ _ _ Hrun) as [x [s2 [Hx Hbody]]].
      exists x, s2. split; [right|assumption].
      destruct Hx as [[_ ->]|Hx];
        [now apply descends_child | now apply descends_up with c].
    + inversion Hrun; subst. exists node, s. split; [left; now split|].
      assumption.
  - cbn [bind] in Hrun.
    apply for_of_break in Hrun. destruct Hrun as [c [s' [Hc Hrun]]].
    destruct (IH _ _ _ _ Hrun) as [x [s2 [Hx Hbody]]].
    exists x, s2. split; [right|assumption].
    destruct Hx as [[_ ->]|Hx];
      [now apply descends_child | now apply descends_up with c].
Qed.

Lemma findBody_break (fuel : nat) (selectors : list ComplexSelector)
    (x n : T) (u : unit) :
  findBody T_eq_dec operations fuel selectors x u = Returns (Break n) ->
  n = x /\
  matchSelectors T_eq_dec operations fuel x selectors = Returns true.
Proof.
  unfold findBody.
  destruct (matchSelectors T_eq_dec operations fuel x selectors)
    as [[|]| |]; cbn [bind]; intros H; inversion H. now split.
Qed.

Lemma find_loop_continue (fuel : nat) (selectors : list ComplexSelector)
    (nodes : list T) (u : unit) :
  for_of nodes (findBody T_eq_dec operations fuel selectors) tt =
    Returns (Continue u) ->
  forall n, In n nodes ->
            matchSelectors T_eq_dec operations fuel n selectors =
            Returns false.
Proof.
  induction nodes as [|x nodes IH]; intros Hrun n Hn; cbn [for_of] in Hrun;
    [contradiction|].
  unfold findBody at 1 in Hrun.
  destruct (matchSelectors T_eq_dec operations fuel x selectors)
    as [[|]| |] eqn:Hx; cbn [bind] in Hrun; try discriminate.
  destruct Hn as [<-|Hn]; [assumption | now apply IH].
Qed.

Lemma find_loop_break (fuel : nat) (selectors : list ComplexSelector)
    (nodes : list T) (n : T) :
  for_of nodes (findBody T_eq_dec operations fuel selectors) tt =
    Returns (Break n) <->
  exists visited rest,
    nodes = visited ++ n :: rest /\
    (forall x, In x visited ->
               matchSelectors T_eq_dec operations fuel x selectors =
               Returns false) /\
    matchSelectors T_eq_dec operations fuel n selectors = Returns true.
Proof.
  induction nodes as [|x nodes IH]; cbn [for_of].
  - split; [discriminate|]. intros [[|? ?] [? [H _]]]; discriminate.
  - unfold findBody at 1.
    destruct (matchSelectors T_eq_dec operations fuel x selectors)
      as [[|]| |] eqn:Hx; cbn [bind].
    + split.
      * intros H. inversion H; subst. exists [], nodes.
        repeat split; auto. intros ? [].
      * intros [[|y visited] [rest [Heq [Hvis Hn]]]]; cbn [app] in Heq;
          inversion Heq; subst; [reflexivity|].
        rewrite (Hvis y (or_introl eq_refl)) in Hx. discriminate.
    + rewrite IH. split.
      * intros [visited [rest [-> [Hvis Hn]]]].
        exists (x :: visited), rest. repeat split; auto.
        intros y [<-|Hy]; auto.
      * intros [[|y visited] [rest [Heq [Hvis Hn]]]]; cbn [app] in Heq;
          inversion Heq; subst; [congruence|].
        exists visited, rest. repeat split; auto.
        intros z Hz. apply Hvis. now right.
    + split; [discriminate|].
      intros [[|y visited] [rest [Heq [Hvis Hn]]]]; cbn [app] in Heq;
        inversion Heq; subst; [congruence|].
      rewrite (Hvis y (or_introl eq_refl)) in Hx. discriminate.
    + split; [discriminate|].
      intros [[|y visited] [rest [Heq [Hvis Hn]]]]; cbn [app] in Heq;
        inversion Heq; subst; [congruence|].
      rewrite (Hvis y (or_introl eq_refl)) in Hx. discriminate.
Qed.

(** X7. [querySelector] on its own: a node it returns is a strict
    descendant of the root that the selector list matches, whether or not
    the nodes after it could be matched without error; it returns the
    absence value exactly when the whole preorder sequence has been visited
    and no node of it matches; and over a finite tree it returns the first
    node of the preorder sequence that matches, every node before it having
    answered no. *)
Theorem X7_querySelector_first_match :
  forall (fuel : nat) (root : T) (s : string)
         (selectors : list ComplexSelector),
    parse s = ParseOk selectors ->
    (forall n,
        querySelector T_eq_dec operations parse fuel root s =
          Returns (Some n) ->
        descends operations root n /\
        matchSelectors T_eq_dec operations fuel n selectors = Returns true) /\
    (querySelector T_eq_dec operations parse fuel root s = Returns None <->
     exists nodes,
       preorder operations fuel root false = Some nodes /\
       forall n, In n nodes ->
                 matchSelectors T_eq_dec operations fuel n selectors =
                 Returns false) /\
    (forall nodes n,
        preorder operations fuel root false = Some nodes ->
        (querySelector T_eq_dec operations parse fuel root s =
           Returns (Some n) <->
         exists visited rest,
           nodes = visited ++ n :: rest /\
           (forall x, In x visited ->
                      matchSelectors T_eq_dec operations fuel x selectors =
                      Returns false) /\
           matchSelectors T_eq_dec operations fuel n selectors =
             Returns true)).
Proof.
  intros fuel root s selectors Hparse. unfold querySelector.
  rewrite Hparse. split; [|split].
  - intros n Hrun.
    destruct (preorderDepthFirstTraverse operations fuel root false
                (findBody T_eq_dec operations fuel selectors) tt)
      as [[u|r]| |] eqn:Ht; cbn [bind] in Hrun; try discriminate.
    inversion Hrun; subst.
    apply traverse_break in Ht. destruct Ht as [x [u [Hx Hbody]]].
    apply findBody_break in Hbody. destruct Hbody as [-> Hm].
    destruct Hx as [[H _]|Hx]; [discriminate | now split].
  - split.
    + intros Hrun.
      destruct (preorderDepthFirstTraverse operations fuel root false
                  (findBody T_eq_dec operations fuel selectors) tt)
        as [[u|r]| |] eqn:Ht; cbn [bind] in Hrun; try discriminate.
      pose proof Ht as Hpre. apply traverse_continue in Hpre.
      destruct Hpre as [nodes Hpre].
      exists nodes. split; [assumption|].
      rewrite traverse_preorder with (1 := Hpre) in Ht.
      now apply find_loop_continue with u.
    + intros [nodes [Hpre Hnone]].
      rewrite traverse_preorder with (1 := Hpre).
      now rewrite find_loop_none by exact Hnone.
  - intros nodes n Hpre. rewrite traverse_preorder with (1 := Hpre).
    rewrite <- find_loop_break.
    destruct (for_of nodes (findBody T_eq_dec operations fuel selectors) tt)
      as [[u|r]| |]; cbn [bind]; split; congruence.
Qed.

End Results.

(** ** Duplicates in the result *)

Section Tree.

Variable T : Type.
Variable T_eq_dec : forall a b : T, {a = b} + {a <> b}.
Variable operations : Operations T.
Variable parse : string -> parsed.

Lemma sibling_not_below (p c d : T) :
  well_founded (childOf operations) -> uniqueParent operations ->
  In c (getChildren operations p) -> In d (getChildren operations p) ->
  ~ descends operations d c.
Proof.
  intros Hwf Huniq Hc Hd Hdc.
  apply (descends_irreflexive (n := d) Hwf).
  inversion Hdc as [? ? Hin|? q ? Hdq Hin]; subst.
  - pose proof (Huniq c d p Hin Hc). subst d. now apply descends_child.
  - pose proof (Huniq c q p Hin Hc). subst q.
    apply descends_trans with p; [assumption | now apply descends_child].
Qed.

Lemma descends_linear (a x : T) :
  uniqueParent operations ->
  descends operations a x ->
  forall b, descends operations b x ->
            a = b \/ descends operations a b \/ descends operations b a.
Proof.
  intros Huniq Ha. induction Ha as [a x Hx|a q x Haq IH Hx]; intros b Hb.
  - inversion Hb as [? ? Hin|? r ? Hbr Hin]; subst.
    + left. now apply (Huniq x a b).
    + right. right. pose proof (Huniq x a r Hx Hin). now subst r.
  - inversion Hb as [? ? Hin|? r ? Hbr Hin]; subst.
    + right. left. pose proof (Huniq x q b Hx Hin). now subst q.
    + apply IH. pose proof (Huniq x q r Hx Hin). now subst r.
Qed.

Lemma subtrees_disjoint (p c d x : T) :
  well_founded (childOf operations) -> uniqueParent operations ->
  In c (getChildren operations p) -> In d (getChildren operations p) ->
  c <> d ->
  x = c \/ descends operations c x ->
  x = d \/ descends operations d x ->
  False.
Proof.
  intros Hwf Huniq Hc Hd Hne [->|Hcx] [Hxd|Hdx].
  - contradiction.
  - now apply (@sibling_not_below p c d Hwf Huniq Hc Hd).
  - subst x. now apply (@sibling_not_below p d c Hwf Huniq Hd Hc).
  - destruct (@descends_linear c x Huniq Hcx d Hdx) as [Heq|[Hcd|Hdc]].
    + contradiction.
    + now apply (@sibling_not_below p d c Hwf Huniq Hd Hc).
    + now apply (@sibling_not_below p c d Hwf Huniq Hc Hd).
Qed.

Lemma preorder_NoDup (fuel : nat) :
  well_founded (childOf operations) -> uniqueParent operations ->
  distinctChildren operations ->
  forall node includeRoot nodes,
    preorder operations fuel node includeRoot = Some nodes -> NoDup nodes.
Proof.
  intros Hwf Huniq Hdist.
  induction fuel as [|fuel IH]; intros node includeRoot nodes Hpre;
    [discriminate|].
  assert (Hbelow : exists below,
             preorder operations (S fuel) node false = Some below /\
             nodes = if includeRoot then node :: below else below).
  { cbn [preorder] in *.
    destruct (concatOption _ (getChildren operations node)) as [below|];
      [|discriminate].
    exists below. split; [reflexivity | now inversion Hpre]. }
  destruct Hbelow as [below [Hfalse ->]].
  pose proof (@preorder_In _ _ _ _ _ _ Hfalse) as Hdesc.
  assert (Hlist : forall cs l,
             (forall c, In c cs -> In c (getChildren operations node)) ->
             NoDup cs ->
             concatOption (fun child => preorder operations fuel child true)
                          cs = Some l ->
             NoDup l).
  { induction cs as [|c cs IHc]; intros l Hsub Hcs Hb;
      cbn [concatOption] in Hb.
    - inversion Hb. constructor.
    - destruct (preorder operations fuel c true) as [here|] eqn:Hc;
        [|discriminate].
      destruct (concatOption _ cs) as [there|] eqn:Hrest; [|discriminate].
      inversion Hb; subst. inversion Hcs as [|? ? Hnotin Hcs']; subst.
      apply NoDup_app.
      + now apply (IH c true).
      + apply IHc; auto. intros x Hx. apply Hsub. now right.
      + intros x Hhere Hthere.
        apply (@preorder_In _ _ _ _ _ _ Hc) in Hhere.
        apply (@concatOption_In _ _ _ _ Hrest) in Hthere.
        destruct Hthere as [d [l [Hd [Hl Hx]]]].
        apply (@preorder_In _ _ _ _ _ _ Hl) in Hx.
        apply (@subtrees_disjoint node c d x); auto.
        * apply Hsub. now left.
        * apply Hsub. now right.
        * intros ->. contradiction.
        * destruct Hhere as [[_ ->]|Hh]; auto.
        * destruct Hx as [[_ ->]|Hh]; auto. }
  assert (Hnd : NoDup below).
  { cbn [preorder] in Hfalse.
    destruct (concatOption (fun child => preorder operations fuel child true)
                           (getChildren operations node)) as [l|] eqn:Hb;
      [|discriminate].
    inversion Hfalse; subst l.
    apply (Hlist (getChildren operations node)); auto. }
  destruct includeRoot; [|assumption].
  constructor; [|assumption].
  intros Hin. apply Hdesc in Hin. destruct Hin as [[H _]|Hin];
    [discriminate | now apply descends_irreflexive in Hin].
Qed.

(** X8. Over a tree, that is, a well-founded child relation in which no
    node is listed under two nodes nor twice under one, the traversal
    visits every node once and [querySelectorAll] returns no node twice. *)
Theorem X8_tree_results_have_no_duplicates :
  well_founded (childOf operations) ->
  uniqueParent operations ->
  distinctChildren operations ->
  forall (fuel : nat) (root : T),
    (forall includeRoot nodes,
        preorder operations fuel root includeRoot = Some nodes ->
        NoDup nodes) /\
    (forall s out,
        querySelectorAll T_eq_dec operations parse fuel root s =
          Returns out ->
        NoDup out).
Proof.
  intros Hwf Huniq Hdist fuel root. split.
  - intros includeRoot nodes. now apply preorder_NoDup.
  - intros s out Hout. destruct (parse s) as [selectors|msg] eqn:Hparse.
    + apply querySelectorAll_returns with (selectors := selectors) in Hout;
        [|exact Hparse].
      destruct Hout as [nodes [Hpre [_ ->]]].
      apply NoDup_filter.
      now apply (preorder_NoDup fuel Hwf Huniq Hdist) in Hpre.
    + unfold querySelectorAll in Hout. rewrite Hparse in Hout. discriminate.
Qed.

Lemma count_occ_filter (p : T -> bool) (l : list T) (n : T) :
  count_occ T_eq_dec (filter p l) n =
  if p n then count_occ T_eq_dec l n else 0.
Proof.
  induction l as [|x l IH]; cbn [filter count_occ].
  - now destruct (p n).
  - destruct (p x) eqn:Hx; cbn [count_occ];
      destruct (T_eq_dec x n) as [Heq|Hne];
      try exact IH; subst x; rewrite IH, Hx; reflexivity.
Qed.

(** X9. [querySelectorAll] does not remove duplicates: a node that the
    selector list matches is returned as many times as the traversal
    visits it, which is more than once when the adapter lists it under two
    nodes or twice under one. *)
Theorem X9_result_keeps_every_visit :
  forall (fuel : nat) (root : T) (s : string)
         (selectors : list ComplexSelector) (nodes out : list T),
    parse s = ParseOk selectors ->
    preorder operations fuel root false = Some nodes ->
    querySelectorAll T_eq_dec operations parse fuel root s = Returns out ->
    forall n,
      count_occ T_eq_dec out n =
      if isTrue (matchSelectors T_eq_dec operations fuel n selectors)
      then count_occ T_eq_dec nodes n else 0.
Proof.
  intros fuel root s selectors nodes out Hparse Hpre Hout n.
  apply querySelectorAll_returns with (selectors := selectors) in Hout;
    [|exact Hparse].
  destruct Hout as [nodes' [Hpre' [_ ->]]].
  assert (nodes' = nodes) by congruence. subst nodes'.
  apply count_occ_filter.
Qed.

End Tree.

(** ** Exceptions *)

Section Exceptions.

Variable T : Type.
Variable T_eq_dec : forall a b : T, {a = b} + {a <> b}.
Variable operations : Operations T.
Variable parse : string -> parsed.

Lemma collectors_throws (fuel : nat) (kind : CombinatorKind)
    (nodes : list T) (e : exn) :
  collectors T_eq_dec operations fuel kind nodes = Throws e ->
  kind = Column /\ e = columnNotSupported.
Proof.
  intros Hrun. destruct kind;
    try (now apply collectors_not_throws in Hrun).
  cbn [collectors] in Hrun. inversion Hrun. now split.
Qed.

Lemma tailLoop_throws (fuel : nat)
    (tl : list (CombinatorKind * CompoundSelector)) (k : nat) (e : exn) :
  k <= List.length tl ->
  forall candidates,
    tailLoop T_eq_dec operations fuel tl k candidates = Throws e ->
    e = columnNotSupported /\
    existsb (fun pair => isColumn (fst pair)) tl = true.
Proof.
  induction k as [|i IH]; intros Hk candidates Hrun; cbn [tailLoop] in Hrun;
    [discriminate|].
  destruct (nth_error tl i) as [[combinator selector]|] eqn:Hi.
  - destruct (List.length (filter _ candidates) =? 0)%nat; [discriminate|].
    destruct (collectors T_eq_dec operations fuel combinator _)
      as [next|e'|] eqn:Hc; cbn [bind] in Hrun; try discriminate.
    + apply (IH ltac:(lia) _ Hrun).
    + inversion Hrun; subst e'. apply collectors_throws in Hc.
      destruct Hc as [-> ->]. split; [reflexivity|].
      apply existsb_exists. exists (Column, selector).
      split; [now apply nth_error_In in Hi | reflexivity].
  - apply nth_error_None in Hi. lia.
Qed.

Lemma matchSelectors_throws (fuel : nat) (node : T)
    (selectors : list ComplexSelector) (e : exn) :
  matchSelectors T_eq_dec operations fuel node selectors = Throws e ->
  e = columnNotSupported /\
  exists m, In m selectors /\ usesColumn m = true.
Proof.
  induction selectors as [|m rest IH]; cbn [matchSelectors];
    [discriminate|].
  unfold matchComplexSelector at 1.
  destruct (tailLoop T_eq_dec operations fuel (tail m)
                     (List.length (tail m)) [node])
    as [c|e'|] eqn:Ht; cbn [bind]; try discriminate.
  - intros Hrun.
    assert (Hrest : matchSelectors T_eq_dec operations fuel node rest =
                    Throws e).
    { destruct c as [candidates|[|]]; cbn [bind] in Hrun;
        try discriminate; try assumption.
      destruct (0 <? _)%nat; [discriminate | assumption]. }
    destruct (IH Hrest) as [He [x [Hx Hcol]]]. split; [assumption|].
    exists x. split; [now right | assumption].
  - intros Hrun. inversion Hrun; subst e'.
    apply tailLoop_throws in Ht; [|lia]. destruct Ht as [He Hcol].
    split; [assumption|]. exists m. split; [now left | assumption].
Qed.

Lemma for_of_throws (A St R : Type) (xs : list A)
    (f : A -> St -> outcome (ctl St R)) (e : exn) :
  forall s,
    for_of xs f s = Throws e ->
    exists x s', In x xs /\ f x s' = Throws e.
Proof.
  induction xs as [|x xs IH]; intros s Hrun; cbn [for_of] in Hrun;
    [discriminate|].
  destruct (f x s) as [[s1|r1]|e'|] eqn:Hx; cbn [bind] in Hrun;
    try discriminate.
  - destruct (IH _ Hrun) as [y [s' [Hy Hf]]]. exists y, s'.
    split; [now right | assumption].
  - inversion Hrun; subst. exists x, s. split; [now left | assumption].
Qed.

Lemma traverse_throws (St R : Type) (body : T -> St -> outcome (ctl St R))
    (e : exn) (fuel : nat) :
  forall node includeRoot s,
    preorderDepthFirstTraverse operations fuel node includeRoot body s =
      Throws e ->
    exists x s', body x s' = Throws e.
Proof.
  induction fuel as [|fuel IH]; intros node includeRoot s Hrun;
    cbn [preorderDepthFirstTraverse] in Hrun; [discriminate|].
  destruct (if includeRoot then body node s else Returns (Continue s))
    as [[s1|r1]|e'|] eqn:Hb; cbn [bind] in Hrun; try discriminate.
  - apply for_of_throws in Hrun. destruct Hrun as [c [s' [_ Hrun]]].
    now apply IH in Hrun.
  - inversion Hrun; subst e'. destruct includeRoot; [|discriminate].
    now exists node, s.
Qed.

(** X10. The errors that come from the engine and its parser, the
    capabilities of the adapter returning as the functions of [Operations]
    do: a query that raises, raises the syntax error of the parser, for a
    selector string that does not parse, or the error of the column
    combinator, for a selector list one of whose members holds that
    combinator.  In particular the destructuring of [tail[i]] never raises
    a [TypeError], the index being in range, and a selector string that
    parses to members without column combinator makes no query raise.  An
    error raised by a capability of the adapter, which the source does not
    catch, and the limits of the host are outside this statement. *)
Theorem X10_engine_raises_only_syntax_and_column_errors :
  forall (fuel : nat) (root : T) (s : string) (e : exn),
    querySelector T_eq_dec operations parse fuel root s = Throws e \/
    querySelectorAll T_eq_dec operations parse fuel root s = Throws e ->
    (exists msg, parse s = ParseError msg /\ e = SyntaxError msg) \/
    (exists selectors m,
        parse s = ParseOk selectors /\ In m selectors /\
        usesColumn m = true /\ e = columnNotSupported).
Proof.
  intros fuel root s e Hthrows.
  unfold querySelector, querySelectorAll in Hthrows.
  destruct (parse s) as [selectors|msg] eqn:Hparse.
  - right.
    assert (Hnode : exists x,
               matchSelectors T_eq_dec operations fuel x selectors =
               Throws e).
    { destruct Hthrows as [Hrun|Hrun].
      - destruct (preorderDepthFirstTraverse operations fuel root false
                    (findBody T_eq_dec operations fuel selectors) tt)
          as [[u|r]|e'|] eqn:Ht; cbn [bind] in Hrun; try discriminate.
        inversion Hrun; subst e'. apply traverse_throws in Ht.
        destruct Ht as [x [u Hbody]]. exists x. unfold findBody in Hbody.
        destruct (matchSelectors T_eq_dec operations fuel x selectors)
          as [[|]| |]; cbn [bind] in Hbody; congruence.
      - destruct (preorderDepthFirstTraverse operations fuel root false
                    (collectBody T_eq_dec operations fuel selectors) [])
          as [[l|[]]|e'|] eqn:Ht; cbn [bind] in Hrun; try discriminate.
        inversion Hrun; subst e'. apply traverse_throws in Ht.
        destruct Ht as [x [acc Hbody]]. exists x. unfold collectBody in Hbody.
        destruct (matchSelectors T_eq_dec operations fuel x selectors)
          as [[|]| |]; cbn [bind] in Hbody; congruence. }
    destruct Hnode as [x Hx]. apply matchSelectors_throws in Hx.
    destruct Hx as [-> [m [Hm Hcol]]]. exists selectors, m. auto.
  - left. exists msg. split; [reflexivity|].
    destruct Hthrows as [H|H]; now inversion H.
Qed.

End Exceptions.

(** ** Compound selectors as conjunctions, and the descendant selector *)

Section Conjunction.

Variable T : Type.
Variable T_eq_dec : forall a b : T, {a = b} + {a <> b}.
Variable operations : Operations T.
Variable parse : string -> parsed.

Lemma allSubClassesMatch_forallb (node : T) (xs : list SubclassSelector) :
  allSubClassesMatch operations node xs =
  forallb (matchSubClassSelector operations node) xs.
Proof.
  induction xs as [|x xs IH]; cbn [allSubClassesMatch forallb];
    [reflexivity|].
  now destruct (matchSubClassSelector operations node x).
Qed.

Lemma forallb_same_elements (A : Type) (p : A -> bool) (xs ys : list A) :
  (forall x, In x xs <-> In x ys) -> forallb p xs = forallb p ys.
Proof.
  intros Hsame.
  destruct (forallb p xs) eqn:Hx; destruct (forallb p ys) eqn:Hy;
    try reflexivity; exfalso.
  - rewrite forallb_forall in Hx. apply Bool.not_true_iff_false in Hy.
    apply Hy, forallb_forall. intros y Hin. apply Hx. now apply Hsame.
  - rewrite forallb_forall in Hy. apply Bool.not_true_iff_false in Hx.
    apply Hx, forallb_forall. intros x Hin. apply Hy. now apply Hsame.
Qed.

Lemma forallb_drop_pseudo_classes (node : T) (xs : list SubclassSelector) :
  forallb (matchSubClassSelector operations node)
          (filter (fun x => negb (isPseudoClass x)) xs) =
  forallb (matchSubClassSelector operations node) xs.
Proof.
  induction xs as [|x xs IH]; cbn [filter forallb]; [reflexivity|].
  destruct x; cbn [isPseudoClass negb forallb matchSubClassSelector];
    now rewrite IH.
Qed.

(** X15. A compound selector is the conjunction of its parts: the order of
    the subclass selectors and their repetition do not change the answer
    of [matchCompoundSelector], a list of selectors may be split between
    [subclasses] and [pseudoes] at any place, and pseudo-class selectors
    can be removed without changing the answer. *)
Theorem X15_compound_selector_is_a_conjunction :
  forall (node : T) (ty : option TypeSelector)
         (xs ys zs : list SubclassSelector),
    ((forall x, In x xs <-> In x ys) ->
     matchCompoundSelector operations node
       {| type := ty; subclasses := Some xs; pseudoes := Some zs |} =
     matchCompoundSelector operations node
       {| type := ty; subclasses := Some ys; pseudoes := Some zs |}) /\
    matchCompoundSelector operations node
      {| type := ty; subclasses := Some xs; pseudoes := Some zs |} =
    matchCompoundSelector operations node
      {| type := ty; subclasses := Some (xs ++ zs); pseudoes := None |} /\
    matchCompoundSelector operations node
      {| type := ty;
         subclasses := Some (filter (fun x => negb (isPseudoClass x)) xs);
         pseudoes := Some (filter (fun x => negb (isPseudoClass x)) zs) |} =
    matchCompoundSelector operations node
      {| type := ty; subclasses := Some xs; pseudoes := Some zs |}.
Proof.
  intros node ty xs ys zs. unfold matchCompoundSelector.
  cbn [type subclasses pseudoes]. rewrite !allSubClassesMatch_forallb.
  split; [|split].
  - intros Hsame.
    now rewrite (@forallb_same_elements
                   _ (matchSubClassSelector operations node) xs ys Hsame).
  - rewrite forallb_app.
    destruct (match ty with Some _ => _ | None => false end);
      [reflexivity|].
    destruct (forallb _ xs); cbn [negb andb]; [|reflexivity].
    now destruct (forallb _ zs).
  - now rewrite !forallb_drop_pseudo_classes.
Qed.

Lemma chain_descends (c x : T) :
  parentsAgree operations ->
  (chain (getParent operations) c x <-> descends operations x c).
Proof.
  intros Hagree. split.
  - induction 1 as [c x Hp|c y x Hp _ IH].
    + apply descends_child. now apply Hagree.
    + apply descends_down with y; [assumption | now apply Hagree].
  - induction 1 as [x c Hc|x q c _ IH Hc].
    + apply chain_one. now apply Hagree.
    + apply chain_more with q; [now apply Hagree | assumption].
Qed.

(** X16. On an adapter whose [getParent] agrees with its [getChildren],
    the descendant combinator relates a node to the nodes it descends from,
    and the query for [A B] returns exactly the strict descendants of the
    root that satisfy [B] and descend from a node that satisfies [A]; that
    node may be the root or lie above it. *)
Theorem X16_descendant_selector :
  parentsAgree operations ->
  (forall c x,
      related operations Descendant c x <-> descends operations x c) /\
  (forall (fuel : nat) (root : T) (s : string) (a b : CompoundSelector)
          (out : list T),
      parse s = ParseOk [descendantSelector a b] ->
      querySelectorAll T_eq_dec operations parse fuel root s = Returns out ->
      forall n,
        In n out <->
        descends operations root n /\
        matchCompoundSelector operations n b = true /\
        exists x, descends operations x n /\
                  matchCompoundSelector operations x a = true).
Proof.
  intros Hagree. split.
  - intros c x. now apply chain_descends.
  - intros fuel root s a b out Hparse Hout n.
    pose proof Hout as Hret.
    apply querySelectorAll_returns
      with (selectors := [descendantSelector a b]) in Hret;
      [|exact Hparse].
    destruct Hret as [nodes [Hpre [Hret Heq]]].
    rewrite (@querySelectorAll_In _ T_eq_dec operations parse _ _ _ _ _
               Hparse Hout n).
    assert (Hsem : represents operations (descendantSelector a b) n <->
                   matchCompoundSelector operations n b = true /\
                   exists x, descends operations x n /\
                             matchCompoundSelector operations x a = true).
    { unfold represents. cbn [descendantSelector tail head rev app walks].
      split.
      - intros [y [[Hb [x [Hrel ->]]] Ha]]. split; [assumption|].
        exists x. split; [now apply chain_descends | assumption].
      - intros [Hb [x [Hx Ha]]]. exists x. split; [|assumption].
        split; [assumption|]. exists x.
        split; [now apply chain_descends | reflexivity]. }
    rewrite <- Hsem. split.
    + intros [Hn Hm]. split; [assumption|].
      apply matchSelectors_true in Hm.
      destruct Hm as [[|? [|? ?]] [member [after [Hl [_ Hm]]]]];
        cbn [app] in Hl; inversion Hl; subst.
      now apply (@complex_represents _ T_eq_dec operations _ _ _ _ Hm).
    + intros [Hn Hrep]. split; [assumption|].
      assert (Hin : In n nodes)
        by (apply (@preorder_In _ _ _ _ _ _ Hpre); now right).
      destruct (Hret n Hin) as [r Hr]. rewrite Hr. f_equal.
      cbn [matchSelectors] in Hr.
      destruct (matchComplexSelector T_eq_dec operations fuel n
                  (descendantSelector a b)) as [[|]| |] eqn:Hm;
        cbn [bind] in Hr; try discriminate; [congruence|].
      apply (@complex_represents _ T_eq_dec operations _ _ _ _ Hm) in Hrep.
      discriminate.
Qed.

End Conjunction.

(** ** More on the attribute operators *)

Section Operators.

Lemma noSpace_append (a b : string) :
  noSpace (String.append a b) = noSpace a && noSpace b.
Proof.
  induction a as [|c a IH]; cbn [String.append noSpace];
    [reflexivity | now rewrite IH, andb_assoc].
Qed.

Lemma splitSpacesFrom_noSpace (s : string) :
  forall (inRun : bool) (piece p : string),
    noSpace piece = true ->
    In p (splitSpacesFrom inRun piece s) -> noSpace p = true.
Proof.
  induction s as [|c s IH]; intros inRun piece p Hpiece Hp;
    cbn [splitSpacesFrom] in Hp.
  - destruct Hp as [<-|[]]. assumption.
  - destruct (Ascii.eqb c space) eqn:Hc.
    + destruct inRun.
      * now apply (IH true EmptyString).
      * destruct Hp as [<-|Hp]; [assumption|].
        now apply (IH true EmptyString).
    + apply (IH false (String.append piece (String c EmptyString)));
        [|assumption].
      rewrite noSpace_append, Hpiece. cbn [noSpace]. now rewrite Hc.
Qed.

Lemma includes_space (s : string) :
  includes s " " = true <-> noSpace s = false.
Proof.
  induction s as [|c s IH]; cbn [includes noSpace].
  - split; discriminate.
  - unfold startsWith. cbn [prefix].
    destruct (ascii_dec " " c) as [<-|Hne].
    + cbn. split; [reflexivity|]. intros _. now destruct s.
    + assert (Hc : Ascii.eqb c space = false).
      { apply Ascii.eqb_neq. intros ->. now apply Hne. }
      rewrite Hc. cbn [negb andb orb]. exact IH.
Qed.

(** X11. The operator [~=] never succeeds for an expected value that holds
    a space, whatever the attribute value: the pieces that
    [split(/ +/)] yields hold no space. *)
Theorem X11_includes_rejects_expected_with_space :
  forall (value expected : string),
    includes expected " " = true ->
    matchers Includes value expected = false.
Proof.
  intros value expected Hspace. apply includes_space in Hspace.
  cbn [matchers]. destruct (arrayIncludes (splitSpaces value) expected) eqn:Hin;
    [|reflexivity].
  apply arrayIncludes_spec in Hin. unfold splitSpaces in Hin.
  apply splitSpacesFrom_noSpace in Hin; [congruence | reflexivity].
Qed.

(** X12. When the only white space of the attribute value is U+0020 and
    the expected value is not empty, [~=] succeeds exactly when the
    expected value is one of the white-space-separated words of the
    attribute value. *)
Theorem X12_includes_is_word_membership_on_spaced_values :
  forall (value expected : string),
    onlySpaces value = true ->
    expected <> EmptyString ->
    (matchers Includes value expected = true <->
     In expected (wordList value)).
Proof.
  intros value expected Hvalue Hexpected. cbn [matchers].
  rewrite arrayIncludes_spec, <- splitSpaces_words by assumption.
  rewrite filter_In. split; [|tauto].
  intros Hin. split; [assumption|]. now destruct expected.
Qed.

Lemma splitSpacesFrom_substring (s : string) :
  forall (inRun : bool) (piece p : string),
    In p (splitSpacesFrom inRun piece s) ->
    exists before after,
      String.append piece s =
      String.append before (String.append p after).
Proof.
  induction s as [|c s IH]; intros inRun piece p Hp;
    cbn [splitSpacesFrom] in Hp.
  - destruct Hp as [<-|[]]. exists EmptyString, EmptyString.
    cbn [String.append]. now rewrite append_empty_r.
  - assert (Hrun : In p (splitSpacesFrom true EmptyString s) ->
                   exists before after,
                     String.append piece (String c s) =
                     String.append before (String.append p after)).
    { intros Hin. destruct (IH _ _ _ Hin) as [before [after Heq]].
      cbn [String.append] in Heq.
      exists (String.append piece (String c before)), after.
      rewrite append_assoc. cbn [String.append]. now rewrite <- Heq. }
    destruct (Ascii.eqb c space).
    + destruct inRun; [now apply Hrun|].
      destruct Hp as [<-|Hp]; [|now apply Hrun].
      exists EmptyString, (String c s). reflexivity.
    + destruct (IH _ _ _ Hp) as [before [after Heq]].
      exists before, after. rewrite <- Heq, append_assoc. reflexivity.
Qed.

(** X13. The operators are nested: a value accepted by [=] is accepted by
    [|=] and by [$=]; a value accepted by [|=] is accepted by [^=]; a value
    accepted by [^=], by [$=] or by [~=] is accepted by [*=]. *)
Theorem X13_operators_are_nested :
  forall (value expected : string),
    (matchers Equals value expected = true ->
     matchers DashMatch value expected = true) /\
    (matchers Equals value expected = true ->
     matchers SuffixMatch value expected = true) /\
    (matchers DashMatch value expected = true ->
     matchers PrefixMatch value expected = true) /\
    (matchers PrefixMatch value expected = true ->
     matchers SubstringMatch value expected = true) /\
    (matchers SuffixMatch value expected = true ->
     matchers SubstringMatch value expected = true) /\
    (matchers Includes value expected = true ->
     matchers SubstringMatch value expected = true).
Proof.
  intros value expected. cbn [matchers].
  split; [|split; [|split; [|split; [|split]]]].
  - intros ->. reflexivity.
  - intros Heq. apply String.eqb_eq in Heq. subst.
    apply endsWith_spec. now exists EmptyString.
  - rewrite orb_true_iff, String.eqb_eq, !startsWith_spec.
    intros [->|[rest ->]].
    + exists EmptyString. now rewrite append_empty_r.
    + exists (String.append "-" rest). now rewrite append_assoc.
  - rewrite startsWith_spec, includes_spec. intros [rest ->].
    now exists EmptyString, rest.
  - rewrite endsWith_spec, includes_spec. intros [before ->].
    exists before, EmptyString. now rewrite append_empty_r.
  - rewrite arrayIncludes_spec, includes_spec. unfold splitSpaces.
    intros Hin. apply splitSpacesFrom_substring in Hin.
    exact Hin.
Qed.

Lemma ends_with_space_cons (c : ascii) (s : string) :
  (exists before, String c s = String.append before " ") <->
  (s = EmptyString /\ c = space) \/
  exists before, s = String.append before " ".
Proof.
  split.
  - intros [[|d before] Heq]; cbn [String.append] in Heq; inversion Heq.
    + left. now split.
    + right. now exists before.
  - intros [[-> ->]|[before ->]].
    + now exists EmptyString.
    + now exists (String c before).
Qed.

Lemma empty_piece (s : string) :
  (In EmptyString (splitSpacesFrom true EmptyString s) <->
   s = EmptyString \/ exists before, s = String.append before " ") /\
  (forall piece, piece <> EmptyString ->
     (In EmptyString (splitSpacesFrom false piece s) <->
      exists before, s = String.append before " ")).
Proof.
  induction s as [|c s [IHrun IHword]]; cbn [splitSpacesFrom In].
  - split.
    + split; [now left | now left].
    + intros piece Hpiece. split.
      * intros [H|[]]. congruence.
      * intros [[|d before] H]; discriminate.
  - assert (Hgrow : forall piece,
               String.append piece (String c EmptyString) <> EmptyString)
      by (intros [|d piece]; discriminate).
    destruct (Ascii.eqb c space) eqn:Hc.
    + apply Ascii.eqb_eq in Hc. subst c. split.
      * rewrite IHrun, ends_with_space_cons. split.
        -- intros [->|H]; right; [left; now split | now right].
        -- intros [H|[[-> _]|H]]; [discriminate | now left | now right].
      * intros piece Hpiece. cbn [In].
        rewrite IHrun, ends_with_space_cons. split.
        -- intros [H|[->|H]]; [congruence | left; now split | now right].
        -- intros [[-> _]|H]; right; [now left | now right].
    + assert (Hne : c <> space) by now apply Ascii.eqb_neq.
      split.
      * rewrite (IHword _ (Hgrow EmptyString)), ends_with_space_cons. split.
        -- intros H. right. now right.
        -- intros [H|[[_ H]|H]];
             [discriminate | contradiction | assumption].
      * intros piece Hpiece.
        rewrite (IHword _ (Hgrow piece)), ends_with_space_cons. split.
        -- intros H. now right.
        -- intros [[_ H]|H]; [contradiction | assumption].
Qed.

(** X14. No operator treats an empty expected value apart.  With the
    empty string as expected value, [^=], [$=] and [*=] accept every
    attribute value; [=] accepts the empty value only; [|=] accepts the
    empty value and the values that begin with a hyphen; and [~=] accepts
    the empty value and the values that begin or end with a space. *)
Theorem X14_empty_expected_value :
  forall (value : string),
    matchers PrefixMatch value "" = true /\
    matchers SuffixMatch value "" = true /\
    matchers SubstringMatch value "" = true /\
    (matchers Equals value "" = true <-> value = "") /\
    (matchers DashMatch value "" = true <->
     value = "" \/ startsWith value "-" = true) /\
    (matchers Includes value "" = true <->
     value = "" \/ startsWith value " " = true \/ endsWith value " " = true).
Proof.
  intros value. split; [|split; [|split; [|split; [|split]]]].
  - apply startsWith_spec. now exists value.
  - apply endsWith_spec. exists value. now rewrite append_empty_r.
  - apply includes_spec. now exists "", value.
  - apply String.eqb_eq.
  - cbn [matchers String.append]. now rewrite orb_true_iff, String.eqb_eq.
  - cbn [matchers]. rewrite arrayIncludes_spec, endsWith_spec.
    unfold splitSpaces, startsWith.
    destruct value as [|c s]; cbn [splitSpacesFrom prefix].
    + split; [now left | now left].
    + destruct (empty_piece s) as [Hrun Hword].
      destruct (Ascii.eqb c space) eqn:Hc.
      * apply Ascii.eqb_eq in Hc. subst c.
        split; [|intros _; now left].
        intros _. right. left. unfold space.
        destruct (ascii_dec " " " "); [now destruct s | contradiction].
      * assert (Hne : c <> space) by now apply Ascii.eqb_neq.
        rewrite (Hword (String c EmptyString)) by discriminate.
        rewrite ends_with_space_cons. split.
        -- intros H. right. right. now right.
        -- intros [H|[H|[[_ H]|H]]];
             [discriminate | | contradiction | assumption].
           destruct (ascii_dec " " c) as [<-|]; [|discriminate].
           now contradiction Hne.
Qed.

End Operators.

(** ** Instances of the further properties *)

Lemma sample_unique_parent : uniqueParent Sample.ops.
Proof.
  intros c p q Hp Hq.
  destruct p as [|[|[|p]]]; destruct q as [|[|[|q]]]; cbn in Hp, Hq;
    try contradiction; try reflexivity;
    exfalso; intuition (subst; discriminate).
Qed.

Lemma sample_distinct_children : distinctChildren Sample.ops.
Proof.
  intros p. destruct p as [|[|[|p]]]; cbn;
    repeat (constructor; [cbn; intuition discriminate|]); constructor.
Qed.

Lemma sample_gallery_below_body : descends Sample.ops 0 2.
Proof.
  apply descends_down with 1; [apply descends_child|]; cbn; auto.
Qed.

Lemma X1_witness :
  matchComplexSelector Nat.eq_dec Sample.ops 4 5 Sample.selBad =
    Returns true /\
  represents Sample.ops Sample.selBad 5.
Proof.
  split; [reflexivity|].
  apply (proj1 (@X1_matchComplexSelector_represents
                  Sample.node Nat.eq_dec Sample.ops 4 5 Sample.selBad)).
  reflexivity.
Defined.

Lemma X2_witness :
  matchComplexSelector Nat.eq_dec Sample.ops 4 5 Sample.selBad =
    Returns true /\
  (forall b,
      matchComplexSelector Nat.eq_dec Sample.ops 4 5
                           (loosenSelector Sample.selBad) = Returns b ->
      b = true) /\
  Further.parse "div > div" = ParseOk [Further.selChild] /\
  Further.parse "div div" =
    ParseOk (map loosenSelector [Further.selChild]) /\
  querySelectorAll Nat.eq_dec Sample.ops Further.parse 4 0 "div > div" =
    Returns [2] /\
  querySelectorAll Nat.eq_dec Sample.ops Further.parse 4 0 "div div" =
    Returns [2] /\
  incl [2] [2].
Proof.
  destruct (@X2_loosened_selector_matches_more
              Sample.node Nat.eq_dec Sample.ops Further.parse)
    as [Hmember Hquery].
  split; [reflexivity|]. split.
  - intros b. apply (Hmember 4 4 5 Sample.selBad b). reflexivity.
  - repeat (split; [reflexivity|]).
    apply (Hquery 4 0 "div > div" "div div" [Further.selChild] [2] [2]);
      reflexivity.
Defined.

Lemma X3_witness :
  matchCompoundSelector Sample.opsCyclic 1 (subject Sample.selColumn) =
    false /\
  matchComplexSelector Nat.eq_dec Sample.opsCyclic 0 1 Sample.selColumn =
    Returns false /\
  Sample.parse "div || article" = ParseOk [Sample.selColumn] /\
  preorder Sample.opsCyclic 2 0 false = Some [1] /\
  querySelectorAll Nat.eq_dec Sample.opsCyclic Sample.parse 2 0
                   "div || article" = Returns [] /\
  querySelector Nat.eq_dec Sample.opsCyclic Sample.parse 2 0
                "div || article" = Returns None.
Proof.
  destruct (@X3_rightmost_compound_is_checked_first
              nat Nat.eq_dec Sample.opsCyclic Sample.parse)
    as [Hmember Hquery].
  split; [reflexivity|]. split; [now apply Hmember|].
  split; [reflexivity|]. split; [reflexivity|].
  apply (Hquery 2 0 "div || article" [Sample.selColumn] [1]);
    try reflexivity.
  intros n m [<-|[]] [<-|[]]. reflexivity.
Defined.

Lemma X4_witness :
  (forall m, In m [Sample.selBad] -> singleSteps m = true) /\
  (exists b, forall fuel,
      matchSelectors Nat.eq_dec Sample.opsCyclic fuel 1 [Sample.selBad] =
      Returns b) /\
  exists out,
    querySelectorAll Nat.eq_dec Sample.opsCyclic Sample.parse 2 0
                     ".container > .gallery > .bad" = Returns out /\
    querySelector Nat.eq_dec Sample.opsCyclic Sample.parse 2 0
                  ".container > .gallery > .bad" = Returns (hd_error out).
Proof.
  assert (Hsteps : forall m, In m [Sample.selBad] -> singleSteps m = true)
    by (intros m [<-|[]]; reflexivity).
  destruct (@X4_single_step_selectors_always_answer
              nat Nat.eq_dec Sample.opsCyclic Sample.parse
              [Sample.selBad] Hsteps) as [Hnode Hquery].
  split; [exact Hsteps|]. split; [apply Hnode|].
  apply (Hquery 2 0 ".container > .gallery > .bad" [1]); reflexivity.
Defined.

Lemma X5_witness :
  Sample.parse ".container > .gallery > .bad" = ParseOk [Sample.selBad] /\
  querySelectorAll Nat.eq_dec Sample.ops Sample.parse 4 0
                   ".container > .gallery > .bad" = Returns [5; 6] /\
  (forall n, In n [5; 6] <->
             descends Sample.ops 0 n /\
             matchSelectors Nat.eq_dec Sample.ops 4 n [Sample.selBad] =
               Returns true) /\
  ~ In 0 [5; 6].
Proof.
  destruct (@X5_querySelectorAll_returns_matching_descendants
              Sample.node Nat.eq_dec Sample.ops Sample.parse 4 0
              ".container > .gallery > .bad" [Sample.selBad] [5; 6]
              eq_refl eq_refl) as [Hin Hroot].
  split; [reflexivity|]. split; [reflexivity|]. split; [exact Hin|].
  apply Hroot. apply sample_child_wf.
Defined.

Lemma X6_witness :
  descends Sample.ops 0 2 /\
  querySelectorAll Nat.eq_dec Sample.ops Sample.parse 4 0 ".bad" =
    Returns [5; 6] /\
  querySelectorAll Nat.eq_dec Sample.ops Sample.parse 4 2 ".bad" =
    Returns [5; 6] /\
  forall n, In n [5; 6] <-> In n [5; 6] /\ descends Sample.ops 2 n.
Proof.
  split; [apply sample_gallery_below_body|].
  split; [reflexivity|]. split; [reflexivity|].
  apply (@X6_query_of_a_subtree
           Sample.node Nat.eq_dec Sample.ops Sample.parse 4 0 2 ".bad"
           [5; 6] [5; 6] sample_gallery_below_body eq_refl eq_refl).
Defined.

Lemma X7_witness :
  Sample.parse "div, div || article" =
    ParseOk [Sample.simple (Sample.typed "div"); Sample.selColumn] /\
  querySelector Nat.eq_dec Sample.ops Sample.parse 4 0
                "div, div || article" = Returns (Some 1) /\
  descends Sample.ops 0 1 /\
  matchSelectors Nat.eq_dec Sample.ops 4 1
    [Sample.simple (Sample.typed "div"); Sample.selColumn] = Returns true.
Proof.
  split; [reflexivity|]. split; [reflexivity|].
  apply (proj1 (@X7_querySelector_first_match
                  Sample.node Nat.eq_dec Sample.ops Sample.parse 4 0
                  "div, div || article"
                  [Sample.simple (Sample.typed "div"); Sample.selColumn]
                  eq_refl)).
  reflexivity.
Defined.

Lemma X8_witness :
  well_founded (childOf Sample.ops) /\
  uniqueParent Sample.ops /\
  distinctChildren Sample.ops /\
  querySelectorAll Nat.eq_dec Sample.ops Sample.parse 4 0 "article" =
    Returns [3; 4; 5; 6; 7; 8] /\
  NoDup [3; 4; 5; 6; 7; 8].
Proof.
  split; [apply sample_child_wf|]. split; [apply sample_unique_parent|].
  split; [apply sample_distinct_children|]. split; [reflexivity|].
  apply (proj2 (@X8_tree_results_have_no_duplicates
                  Sample.node Nat.eq_dec Sample.ops Sample.parse
                  sample_child_wf sample_unique_parent
                  sample_distinct_children 4 0) "article").
  reflexivity.
Defined.

Lemma X9_witness :
  Further.parse "div" = ParseOk [Sample.simple (Sample.typed "div")] /\
  preorder Further.ops 2 0 false = Some [1; 1; 2] /\
  querySelectorAll Nat.eq_dec Further.ops Further.parse 2 0 "div" =
    Returns [1; 1; 2] /\
  count_occ Nat.eq_dec [1; 1; 2] 1 =
  (if isTrue (matchSelectors Nat.eq_dec Further.ops 2 1
                             [Sample.simple (Sample.typed "div")])
   then count_occ Nat.eq_dec [1; 1; 2] 1 else 0).
Proof.
  repeat (split; [reflexivity|]).
  apply (@X9_result_keeps_every_visit
           nat Nat.eq_dec Further.ops Further.parse 2 0 "div"
           [Sample.simple (Sample.typed "div")] [1; 1; 2] [1; 1; 2]);
    reflexivity.
Defined.

Lemma X10_witness :
  querySelectorAll Nat.eq_dec Sample.ops Sample.parse 4 0 "div || article" =
    Throws columnNotSupported /\
  ((exists msg, Sample.parse "div || article" = ParseError msg /\
                columnNotSupported = SyntaxError msg) \/
   (exists selectors m,
       Sample.parse "div || article" = ParseOk selectors /\
       In m selectors /\ usesColumn m = true /\
       columnNotSupported = columnNotSupported)).
Proof.
  split; [reflexivity|].
  apply (@X10_engine_raises_only_syntax_and_column_errors
           Sample.node Nat.eq_dec Sample.ops Sample.parse 4 0
           "div || article" columnNotSupported).
  right. reflexivity.
Defined.

Lemma X11_witness :
  includes "foo bar" " " = true /\
  matchers Includes "foo bar" "foo bar" = false.
Proof.
  split; [reflexivity|].
  apply X11_includes_rejects_expected_with_space. reflexivity.
Defined.

Lemma X12_witness :
  onlySpaces "foo bar" = true /\
  "foo" <> EmptyString /\
  (matchers Includes "foo bar" "foo" = true <->
   In "foo" (wordList "foo bar")).
Proof.
  split; [reflexivity|]. split; [discriminate|].
  apply X12_includes_is_word_membership_on_spaced_values;
    [reflexivity | discriminate].
Defined.

Lemma X13_witness :
  matchers DashMatch "en-US" "en" = true /\
  matchers PrefixMatch "en-US" "en" = true /\
  matchers SubstringMatch "en-US" "en" = true.
Proof.
  destruct (X13_operators_are_nested "en-US" "en")
    as [_ [_ [Hdash [Hprefix _]]]].
  assert (Hd : matchers DashMatch "en-US" "en" = true) by reflexivity.
  split; [exact Hd|]. split; [exact (Hdash Hd)|].
  exact (Hprefix (Hdash Hd)).
Defined.

Lemma sample_parents_agree : parentsAgree Sample.ops.
Proof.
  intros c p. split.
  - intros H. cbn in H.
    destruct c as [|[|[|[|[|[|[|[|[|c]]]]]]]]]; cbn in H;
      try discriminate; inversion H; subst; cbn; auto 10.
  - intros H. destruct p as [|[|[|p]]]; cbn in H; try contradiction;
      repeat (destruct H as [H|H]; [subst c; reflexivity|]); contradiction.
Qed.

Lemma X15_witness :
  (forall x, In x [Class "a"; Class "b"] <-> In x [Class "b"; Class "a"]) /\
  matchCompoundSelector Sample.ops 5
    {| type := None; subclasses := Some [Class "a"; Class "b"];
       pseudoes := Some [] |} =
  matchCompoundSelector Sample.ops 5
    {| type := None; subclasses := Some [Class "b"; Class "a"];
       pseudoes := Some [] |}.
Proof.
  assert (Hsame : forall x, In x [Class "a"; Class "b"] <->
                            In x [Class "b"; Class "a"])
    by (intros x; cbn; tauto).
  split; [exact Hsame|].
  apply (proj1 (@X15_compound_selector_is_a_conjunction
                  Sample.node Sample.ops 5 None
                  [Class "a"; Class "b"] [Class "b"; Class "a"] [])).
  exact Hsame.
Defined.

Lemma X16_witness :
  parentsAgree Sample.ops /\
  Further.parse "div div" =
    ParseOk [descendantSelector (Sample.typed "div") (Sample.typed "div")] /\
  querySelectorAll Nat.eq_dec Sample.ops Further.parse 4 1 "div div" =
    Returns [2] /\
  forall n,
    In n [2] <->
    descends Sample.ops 1 n /\
    matchCompoundSelector Sample.ops n (Sample.typed "div") = true /\
    exists x, descends Sample.ops x n /\
              matchCompoundSelector Sample.ops x (Sample.typed "div") = true.
Proof.
  split; [apply sample_parents_agree|]. split; [reflexivity|].
  split; [reflexivity|].
  apply (proj2 (@X16_descendant_selector
                  Sample.node Nat.eq_dec Sample.ops Further.parse
                  sample_parents_agree)
           4 1 "div div" (Sample.typed "div") (Sample.typed "div") [2]);
    reflexivity.
Defined.
